(** * request-ledger: the entry store, the retry policy, the replay engine
      and the ledger facade, embedded from the TypeScript sources.

    - [src/types.ts]              data model and error classes
    - [src/utils/backoff.ts]      [calculateBackoffDelay], [canRetry]
    - [src/online/checker.ts]     [isNetworkError], status classes
    - [src/storage/indexeddb.ts]  [Module IndexedDBStorage]
    - [src/replay/engine.ts]      [Module ReplayEngine]
    - [src/ledger.ts]             [Module RequestLedger]

    JavaScript numbers that the code uses as counters, timestamps and
    HTTP status codes are integers and are modelled in [Z]. *)

From Stdlib Require Import ZArith String Ascii List Bool Lia.
From stdpp Require Import base option list sorting gmap strings pretty.

Local Open Scope string_scope.

(** ** The platform's JSON codec

    [JSON.stringify] and [JSON.parse] belong to the JavaScript runtime, not
    to the repository, so they are parameters of the development: [json] is
    the type of JSON values, [JSON_parse] returns [None] where the runtime
    throws a [SyntaxError], and [JSON_truthy] is the truth value the
    runtime gives a JSON value in a condition ([null], [false], [0] and the
    empty string are falsy, every object and array is truthy). *)

Class JSON := {
  json : Type;
  JSON_stringify : json → string;
  JSON_parse : string → option json;
  JSON_truthy : json → bool;
}.

(** [v ? ... : undefined] and [v && ...] on an optional JSON value: the
    value when it is there and truthy. *)
Definition truthy `{JSON} (v : option json) : option json :=
  match v with
  | Some value => if JSON_truthy value then Some value else None
  | None => None
  end.

(** A value is JSON-serializable when the runtime renders it as a JSON text
    (a non-empty string) that parses back to the same value. *)
Definition json_serializable `{JSON} (v : json) : Prop :=
  JSON_stringify v ≠ "" ∧ JSON_parse (JSON_stringify v) = Some v.

(** ** Data model ([src/types.ts]) *)

Inductive HttpMethod := GET | POST | PUT | PATCH | DELETE.

Inductive EntryStatus := pending | processing | completed | failed.

Record EntryError := {
  message : string;
  code : option string;
}.

(** The request snapshot. [body : unknown] is [None] for [undefined]; the
    store keeps the same shape with the body as JSON text, hence the
    parameter [B]. *)
Record StoredRequest (B : Type) := {
  url : string;
  method : HttpMethod;
  headers : list (string * string);
  body : option B;
}.
Arguments url {B} _.
Arguments method {B} _.
Arguments headers {B} _.
Arguments body {B} _.

Inductive RetryStrategy :=
| fixed (delayMs maxAttempts : Z)
| exponential (baseMs maxMs maxAttempts : Z)
| manual.

(** [LedgerEntryPatch]. For [status], [attemptCount] and [lastAttemptAt]
    the code only tests [!== undefined], so [None] stands for both a missing
    key and [undefined]. For [error] the code tests ['error' in patch]
    first: [None] is a patch without the key, [Some None] a patch holding
    [error: undefined], [Some (Some e)] a patch holding the value [e]. *)
Record LedgerEntryPatch := {
  patch_status : option EntryStatus;
  patch_attemptCount : option Z;
  patch_lastAttemptAt : option Z;
  patch_error : option (option EntryError);
}.

(** The error classes of [src/types.ts] and the built-in ones the code
    throws or inspects. *)
#[warnings="-register-all"]
Inductive exn :=
| Error (msg : string)
| TypeError (msg : string)
| DOMException (name msg : string)
| SyntaxError
| PersistenceError (msg : string) (cause : option exn)
| NetworkError (msg : string) (cause : option exn)
| EntryNotFoundError (entryId : string)
| DuplicateEntryError (entryId : string).

#[global] Instance HttpMethod_eq_dec : EqDecision HttpMethod.
Proof. solve_decision. Defined.
#[global] Instance EntryStatus_eq_dec : EqDecision EntryStatus.
Proof. solve_decision. Defined.
#[global] Instance EntryError_eq_dec : EqDecision EntryError.
Proof. solve_decision. Defined.

Section Entries.
Context `{JSON}.

Record LedgerEntry := {
  id : string;
  request : StoredRequest json;
  status : EntryStatus;
  attemptCount : Z;
  createdAt : Z;
  lastAttemptAt : option Z;
  error : option EntryError;
  idempotencyKey : option string;
  metadata : option json;
}.

(** [RequestOptions], the argument of the facade's [request]. *)
Record RequestOptions := {
  opt_id : string;
  opt_url : string;
  opt_method : HttpMethod;
  opt_headers : option (list (string * string));
  opt_body : option json;
  opt_idempotencyKey : option string;
  opt_metadata : option json;
}.
End Entries.

(** What the object store holds for an entry. The store is created with
    [keyPath: 'id'], so the [id] property of a record is its primary key;
    the model keeps it as the key of the map and the record holds the other
    properties, [body] and [metadata] as JSON text. *)
Record StoredRecord := {
  rec_request : StoredRequest string;
  rec_status : EntryStatus;
  rec_attemptCount : Z;
  rec_createdAt : Z;
  rec_lastAttemptAt : option Z;
  rec_error : option EntryError;
  rec_idempotencyKey : option string;
  rec_metadata : option string;
}.

(** ** Backoff ([src/utils/backoff.ts]) *)

(** [Math.pow(2, attemptCount - 1)] is [2 ^ (attemptCount - 1)] for every
    [attemptCount >= 1], which is how the engine calls it (the count after
    the attempt that was just made). *)
Definition calculateBackoffDelay (strategy : RetryStrategy) (attemptCount : Z)
  : option Z :=
  match strategy with
  | fixed delayMs maxAttempts =>
      if (attemptCount >=? maxAttempts)%Z then None else Some delayMs
  | exponential baseMs maxMs maxAttempts =>
      if (attemptCount >=? maxAttempts)%Z then None
      else
        let delay := (baseMs * 2 ^ (attemptCount - 1))%Z in
        Some (Z.min delay maxMs)
  | manual => None
  end.

Definition canRetry (strategy : RetryStrategy) (attemptCount : Z) : bool :=
  match strategy with
  | manual => true
  | fixed _ maxAttempts | exponential _ _ maxAttempts =>
      (attemptCount <? maxAttempts)%Z
  end.

Definition DEFAULT_RETRY_STRATEGY : RetryStrategy :=
  exponential 1000 30000 3.

(** ** Failure classification ([src/online/checker.ts]) *)

Definition toLowerCase_ascii (c : ascii) : ascii :=
  let n := N_of_ascii c in
  if ((65 <=? n) && (n <=? 90))%N then ascii_of_N (n + 32) else c.

(** [String.prototype.toLowerCase] on the ASCII letters, which is all the
    compared messages contain. *)
Fixpoint toLowerCase (s : string) : string :=
  match s with
  | EmptyString => EmptyString
  | String c s' => String (toLowerCase_ascii c) (toLowerCase s')
  end.

Definition isNetworkError (error : exn) : bool :=
  match error with
  | TypeError msg =>
      let message := toLowerCase msg in
      String.eqb message "failed to fetch"
      || String.eqb message "network request failed"
      || String.eqb message "load failed"
      || String.eqb message "networkerror"
      || String.prefix "networkerror when" message
  | DOMException name _ => String.eqb name "AbortError"
  | _ => false
  end.

Definition isRetryableStatusCode (status : Z) : bool :=
  ((status >=? 500) && (status <? 600))%Z.

Definition isClientError (status : Z) : bool :=
  ((status >=? 400) && (status <? 500))%Z.

(** ** Results of asynchronous operations

    A promise is fulfilled, rejected, or never settles. [Pending] is the
    last case: a callback that threw before it could settle the promise, or
    a loop that has not finished within the steps it was given. *)
Inductive res (A : Type) :=
| Returns (a : A)
| Throws (e : exn)
| Pending.
Arguments Returns {A} _.
Arguments Throws {A} _.
Arguments Pending {A}.

(** ** The IndexedDB adapter ([src/storage/indexeddb.ts]) *)

Module IndexedDBStorage.

Definition DEFAULT_MAX_ENTRIES : nat := 1000.

(** The ['createdAt'] index lists the records by [createdAt] and, for
    equal [createdAt], by primary key. *)
Definition index_le (x y : string * StoredRecord) : Prop :=
  (rec_createdAt x.2 < rec_createdAt y.2)%Z
  ∨ (rec_createdAt x.2 = rec_createdAt y.2 ∧ String.leb x.1 y.1 = true).

#[global] Instance index_le_dec x y : Decision (index_le x y).
Proof. unfold index_le. apply _. Defined.

Definition createdAt_index (store : gmap string StoredRecord)
  : list (string * StoredRecord) :=
  merge_sort index_le (map_to_list store).

Definition set_status (r : StoredRecord) (s : EntryStatus) : StoredRecord :=
  {| rec_request := rec_request r; rec_status := s;
     rec_attemptCount := rec_attemptCount r; rec_createdAt := rec_createdAt r;
     rec_lastAttemptAt := rec_lastAttemptAt r; rec_error := rec_error r;
     rec_idempotencyKey := rec_idempotencyKey r;
     rec_metadata := rec_metadata r |}.

Definition set_attemptCount (r : StoredRecord) (n : Z) : StoredRecord :=
  {| rec_request := rec_request r; rec_status := rec_status r;
     rec_attemptCount := n; rec_createdAt := rec_createdAt r;
     rec_lastAttemptAt := rec_lastAttemptAt r; rec_error := rec_error r;
     rec_idempotencyKey := rec_idempotencyKey r;
     rec_metadata := rec_metadata r |}.

Definition set_lastAttemptAt (r : StoredRecord) (t : Z) : StoredRecord :=
  {| rec_request := rec_request r; rec_status := rec_status r;
     rec_attemptCount := rec_attemptCount r; rec_createdAt := rec_createdAt r;
     rec_lastAttemptAt := Some t; rec_error := rec_error r;
     rec_idempotencyKey := rec_idempotencyKey r;
     rec_metadata := rec_metadata r |}.

(** [delete updated.error] for [None], [updated.error = e] for [Some e]. *)
Definition set_error (r : StoredRecord) (e : option EntryError)
  : StoredRecord :=
  {| rec_request := rec_request r; rec_status := rec_status r;
     rec_attemptCount := rec_attemptCount r; rec_createdAt := rec_createdAt r;
     rec_lastAttemptAt := rec_lastAttemptAt r; rec_error := e;
     rec_idempotencyKey := rec_idempotencyKey r;
     rec_metadata := rec_metadata r |}.

(** The cursor loop of [evictIfNeeded]: it walks the ['createdAt'] index
    and deletes the record under the cursor while [deleted < toDelete]. *)
Fixpoint evict_cursor (toDelete deleted : nat)
    (cursor : list (string * StoredRecord))
    (store : gmap string StoredRecord) : gmap string StoredRecord :=
  match cursor with
  | (primaryKey, _) :: rest =>
      if decide (deleted < toDelete)%nat
      then evict_cursor toDelete (S deleted) rest (delete primaryKey store)
      else store
  | [] => store
  end.

Definition evictIfNeeded (maxEntries : nat)
    (store : gmap string StoredRecord) : gmap string StoredRecord :=
  let count := size store in
  if decide (count ≤ maxEntries)%nat then store
  else
    let toDelete := count - maxEntries in
    evict_cursor toDelete 0 (createdAt_index store) store.

(** "Merge patch with existing entry": the copy [{ ...existing }] with
    the patched properties assigned. *)
Definition merge_patch (existing : StoredRecord) (patch : LedgerEntryPatch)
  : StoredRecord :=
  let updated := existing in
  let updated :=
    match patch_status patch with
    | Some s => set_status updated s | None => updated end in
  let updated :=
    match patch_attemptCount patch with
    | Some n => set_attemptCount updated n | None => updated end in
  let updated :=
    match patch_lastAttemptAt patch with
    | Some t => set_lastAttemptAt updated t | None => updated end in
  match patch_error patch with
  | Some e => set_error updated e | None => updated end.

Definition update (store : gmap string StoredRecord) (id : string)
    (patch : LedgerEntryPatch) : res (gmap string StoredRecord) :=
  match store !! id with
  | None => Throws (EntryNotFoundError id)
  | Some existing => Returns (<[id := merge_patch existing patch]> store)
  end.

Definition remove (store : gmap string StoredRecord) (id : string)
  : gmap string StoredRecord := delete id store.

Definition clear (store : gmap string StoredRecord)
  : gmap string StoredRecord := ∅.

Definition count (store : gmap string StoredRecord) : nat := size store.

Section WithJSON.
Context `{JSON}.

(** The [storedEntry] object that [put] adds: the body goes through
    [JSON.stringify] ([undefined] stays [undefined]), the metadata too
    when it is truthy. *)
Definition storedEntry (entry : LedgerEntry) : StoredRecord :=
  {| rec_request :=
       {| url := url (request entry);
          method := method (request entry);
          headers := headers (request entry);
          body := JSON_stringify <$> body (request entry) |};
     rec_status := status entry;
     rec_attemptCount := attemptCount entry;
     rec_createdAt := createdAt entry;
     rec_lastAttemptAt := lastAttemptAt entry;
     rec_error := error entry;
     rec_idempotencyKey := idempotencyKey entry;
     rec_metadata := JSON_stringify <$> truthy (metadata entry) |}.

Definition put (maxEntries : nat) (store : gmap string StoredRecord)
    (entry : LedgerEntry) : res (gmap string StoredRecord) :=
  match store !! id entry with
  | Some _ => Throws (DuplicateEntryError (id entry))
  | None =>
      Returns (evictIfNeeded maxEntries
                 (<[id entry := storedEntry entry]> store))
  end.

(** [text ? JSON.parse(text) : undefined]: a missing or empty text is
    falsy; the outer [None] is a [SyntaxError]. *)
Definition parse_if_truthy (text : option string) : option (option json) :=
  match text with
  | None => Some None
  | Some EmptyString => Some None
  | Some s => Some <$> JSON_parse s
  end.

Definition deserializeEntry (stored : string * StoredRecord)
  : option LedgerEntry :=
  let request := rec_request stored.2 in
  match parse_if_truthy (body request),
        parse_if_truthy (rec_metadata stored.2) with
  | Some parsed_body, Some parsed_metadata =>
      Some {| id := stored.1;
              request := {| url := url request;
                            method := method request;
                            headers := headers request;
                            body := parsed_body |};
              status := rec_status stored.2;
              attemptCount := rec_attemptCount stored.2;
              createdAt := rec_createdAt stored.2;
              lastAttemptAt := rec_lastAttemptAt stored.2;
              error := rec_error stored.2;
              idempotencyKey := rec_idempotencyKey stored.2;
              metadata := parsed_metadata |}
  | _, _ => None
  end.

(** [getAll] deserializes inside the request's success callback: when
    [JSON.parse] throws there, the promise is never settled. *)
Definition getAll (store : gmap string StoredRecord)
  : res (list LedgerEntry) :=
  match mapM deserializeEntry (createdAt_index store) with
  | Some entries => Returns entries
  | None => Pending
  end.

Definition get (store : gmap string StoredRecord) (id : string)
  : res (option LedgerEntry) :=
  match store !! id with
  | Some result =>
      match deserializeEntry (id, result) with
      | Some entry => Returns (Some entry)
      | None => Throws SyntaxError
      end
  | None => Returns None
  end.
End WithJSON.

End IndexedDBStorage.

(** ** The world the engine and the facade run in

    The object store, the flags of the engine and of the facade, and what
    the outside answers: the connectivity check, [fetch] and [Date.now] are
    oracles, asked in order ([onlineCheck env k] is the answer to the
    [k]-th check). Every call that leaves the engine is logged. *)

Inductive FetchOutcome :=
| Response (status : Z)
| FetchThrows (e : exn).

Record Env := {
  onlineCheck : nat → bool;
  fetch : nat → FetchOutcome;
  Date_now : nat → Z;
}.

Record Config := {
  retry : RetryStrategy;
  maxEntries : nat;
}.

Record ProcessOptions := {
  concurrency : option Z;
  stopOnError : option bool;
}.

(** The private fields of [ReplayEngine]; [abortController] is [None] for
    [null] and [Some aborted] for a controller with that signal state.
    [activeLoops] is a ghost counter of the drain loops between the guard
    of [process] and its [finally] block. *)
Record EngineState := {
  isProcessing : bool;
  isPaused : bool;
  lastError : option exn;
  abortController : option bool;
  activeLoops : nat;
}.

Section World.
Context `{JSON}.

Inductive Event :=
| storage_put_called (entry : LedgerEntry)
| storage_getAll_called
| storage_get_called (id : string)
| storage_update_called (id : string) (patch : LedgerEntryPatch)
| storage_remove_called (id : string)
| onlineCheck_called
| fetch_called (id : string)
| delay_called (ms : Z)
| onPersist (entry : LedgerEntry)
| onReplayStart (entry : LedgerEntry)
| onReplaySuccess (entry : LedgerEntry) (status : Z)
| onReplayFailure (entry : LedgerEntry) (error : exn)
| onSuccess (entry : LedgerEntry)
| onFailure (entry : LedgerEntry) (error : exn).

Record World := {
  store : gmap string StoredRecord;
  engine : EngineState;
  isDestroyed : bool;
  onlineChecks : nat;
  fetches : nat;
  clock : nat;
  trace : list Event;
}.

Definition with_store (w : World) (s : gmap string StoredRecord) : World :=
  {| store := s; engine := engine w; isDestroyed := isDestroyed w;
     onlineChecks := onlineChecks w; fetches := fetches w;
     clock := clock w; trace := trace w |}.

Definition with_engine (w : World) (e : EngineState) : World :=
  {| store := store w; engine := e; isDestroyed := isDestroyed w;
     onlineChecks := onlineChecks w; fetches := fetches w;
     clock := clock w; trace := trace w |}.

Definition with_isDestroyed (w : World) (b : bool) : World :=
  {| store := store w; engine := engine w; isDestroyed := b;
     onlineChecks := onlineChecks w; fetches := fetches w;
     clock := clock w; trace := trace w |}.

Definition logged (ev : Event) (w : World) : World :=
  {| store := store w; engine := engine w; isDestroyed := isDestroyed w;
     onlineChecks := onlineChecks w; fetches := fetches w;
     clock := clock w; trace := trace w ++ [ev] |}.

(** *** A state and exception monad over [World] *)

Definition M (A : Type) : Type := World → res A * World.

Definition ret {A} (a : A) : M A := λ w, (Returns a, w).

Definition bind {A B} (m : M A) (k : A → M B) : M B :=
  λ w, match m w with
       | (Returns a, w') => k a w'
       | (Throws e, w') => (Throws e, w')
       | (Pending, w') => (Pending, w')
       end.

Definition throw {A} (e : exn) : M A := λ w, (Throws e, w).

(** [try { m } catch (error) { handler error }] *)
Definition try_catch {A} (m : M A) (handler : exn → M A) : M A :=
  λ w, match m w with
       | (Throws e, w') => handler e w'
       | r => r
       end.

(** [try { m } finally { cleanup }] for a [cleanup] that only assigns
    fields; a promise that never settles never reaches it. *)
Definition try_finally {A} (m : M A) (cleanup : World → World) : M A :=
  λ w, match m w with
       | (Pending, w') => (Pending, w')
       | (r, w') => (r, cleanup w')
       end.

(** One member of [Promise.allSettled]: a rejection becomes a value. *)
Definition settled {A} (m : M A) : M (exn + A) :=
  λ w, match m w with
       | (Returns a, w') => (Returns (inr a), w')
       | (Throws e, w') => (Returns (inl e), w')
       | (Pending, w') => (Pending, w')
       end.

Definition log (ev : Event) : M unit := λ w, (Returns tt, logged ev w).

Definition getWorld : M World := λ w, (Returns w, w).

Definition modify (f : World → World) : M unit := λ w, (Returns tt, f w).
End World.

Declare Scope ledger_scope.
Delimit Scope ledger_scope with ledger.
Notation "x <- m ;; k" := (bind m (λ x, k))
  (at level 100, m at next level, right associativity) : ledger_scope.
Notation "m ;;; k" := (bind m (λ _, k))
  (at level 100, right associativity) : ledger_scope.
Local Open Scope ledger_scope.

Section Effects.
Context `{JSON}.
Variable env : Env.
Variable config : Config.

Fixpoint for_each {A} (l : list A) (body : A → M unit) : M unit :=
  match l with
  | [] => ret tt
  | x :: rest => body x ;;; for_each rest body
  end.

(** *** The [LedgerStorage] calls, on the store of the world *)

Definition lift_store (r : res (gmap string StoredRecord)) : M unit :=
  λ w, match r with
       | Returns s => (Returns tt, with_store w s)
       | Throws e => (Throws e, w)
       | Pending => (Pending, w)
       end.

Definition lift_read {A} (r : res A) : M A := λ w, (r, w).

Definition storage_put (entry : LedgerEntry) : M unit :=
  log (storage_put_called entry) ;;;
  w <- getWorld ;;
  lift_store (IndexedDBStorage.put (maxEntries config) (store w) entry).

Definition storage_getAll : M (list LedgerEntry) :=
  log storage_getAll_called ;;;
  w <- getWorld ;;
  lift_read (IndexedDBStorage.getAll (store w)).

Definition storage_get (id : string) : M (option LedgerEntry) :=
  log (storage_get_called id) ;;;
  w <- getWorld ;;
  lift_read (IndexedDBStorage.get (store w) id).

Definition storage_update (id : string) (patch : LedgerEntryPatch)
  : M unit :=
  log (storage_update_called id patch) ;;;
  w <- getWorld ;;
  lift_store (IndexedDBStorage.update (store w) id patch).

Definition storage_remove (id : string) : M unit :=
  log (storage_remove_called id) ;;;
  modify (λ w, with_store w (IndexedDBStorage.remove (store w) id)).

(** *** The oracles *)

Definition ask_onlineCheck : M bool :=
  λ w, (Returns (onlineCheck env (onlineChecks w)),
        logged onlineCheck_called
          {| store := store w; engine := engine w;
             isDestroyed := isDestroyed w;
             onlineChecks := S (onlineChecks w); fetches := fetches w;
             clock := clock w; trace := trace w |}).

(** [fetch] with the request built from the entry or the options; what
    is thrown while the request is built counts as thrown by [fetch]. *)
Definition ask_fetch (id : string) : M Z :=
  λ w, let w' := logged (fetch_called id)
                   {| store := store w; engine := engine w;
                      isDestroyed := isDestroyed w;
                      onlineChecks := onlineChecks w;
                      fetches := S (fetches w);
                      clock := clock w; trace := trace w |} in
       match fetch env (fetches w) with
       | Response status => (Returns status, w')
       | FetchThrows e => (Throws e, w')
       end.

Definition ask_Date_now : M Z :=
  λ w, (Returns (Date_now env (clock w)),
        {| store := store w; engine := engine w;
           isDestroyed := isDestroyed w;
           onlineChecks := onlineChecks w; fetches := fetches w;
           clock := S (clock w); trace := trace w |}).

Definition delay (ms : Z) : M unit := log (delay_called ms).
End Effects.

(** [error.message] *)
Definition exn_message (e : exn) : string :=
  match e with
  | Error msg | TypeError msg | DOMException _ msg
  | PersistenceError msg _ | NetworkError msg _ => msg
  | SyntaxError => "Unexpected token"
  | EntryNotFoundError entryId => "Entry not found: " +:+ entryId
  | DuplicateEntryError entryId => "Duplicate entry: " +:+ entryId
  end.

(** [array.slice(0, end)] *)
Definition slice0 {A} (end_ : Z) (l : list A) : list A :=
  let len := Z.of_nat (length l) in
  let k := if (end_ <? 0)%Z then Z.max (len + end_) 0 else Z.min end_ len in
  take (Z.to_nat k) l.

(** [LedgerState] of [src/types.ts]. *)
Module LedgerState.
Inductive t := idle | pending | processing | paused | error.
End LedgerState.

(** ** The replay engine ([src/replay/engine.ts]) *)

Module ReplayEngine.

(** Passing the guard of [process] (lines 101-103 of the engine) and its
    [finally] block (lines 171-172). *)
Definition enter (e : EngineState) : EngineState :=
  {| isProcessing := true; isPaused := isPaused e; lastError := None;
     abortController := Some false; activeLoops := S (activeLoops e) |}.

Definition leave (e : EngineState) : EngineState :=
  {| isProcessing := false; isPaused := isPaused e;
     lastError := lastError e; abortController := None;
     activeLoops := Nat.pred (activeLoops e) |}.

Definition set_lastError (e : EngineState) (error : exn) : EngineState :=
  {| isProcessing := isProcessing e; isPaused := isPaused e;
     lastError := Some error; abortController := abortController e;
     activeLoops := activeLoops e |}.

(** [pause()]: [this.abortController?.abort()] *)
Definition pause (e : EngineState) : EngineState :=
  {| isProcessing := isProcessing e; isPaused := true;
     lastError := lastError e;
     abortController := (λ _, true) <$> abortController e;
     activeLoops := activeLoops e |}.

Definition resume (e : EngineState) : EngineState :=
  {| isProcessing := isProcessing e; isPaused := false;
     lastError := lastError e; abortController := abortController e;
     activeLoops := activeLoops e |}.

Definition status_patch (s : EntryStatus) : LedgerEntryPatch :=
  {| patch_status := Some s; patch_attemptCount := None;
     patch_lastAttemptAt := None; patch_error := None |}.

Section WithJSON.
Context `{JSON}.
Variable env : Env.
Variable config : Config.

Definition canRetryEntry (entry : LedgerEntry) : bool :=
  match retry config with
  | manual => false
  | fixed _ maxAttempts | exponential _ _ maxAttempts =>
      (attemptCount entry + 1 <? maxAttempts)%Z
  end.

Definition markAsFailed (entry : LedgerEntry) (error : exn)
    (code : option string) : M unit :=
  storage_update (id entry)
    {| patch_status := Some failed; patch_attemptCount := None;
       patch_lastAttemptAt := None;
       patch_error :=
         Some (Some {| message := exn_message error; code := code |}) |}.

Definition recoverStaleEntries : M unit :=
  entries <- storage_getAll ;;
  for_each entries (λ entry,
    if decide (status entry = processing)
    then storage_update (id entry) (status_patch pending)
    else ret tt).

(** The two retry branches share this: re-arm the entry, then sleep
    the backoff delay inside the attempt. *)
Definition rearm (entry : LedgerEntry) : M unit :=
  storage_update (id entry) (status_patch pending) ;;;
  match calculateBackoffDelay (retry config) (attemptCount entry + 1) with
  | Some backoffDelay => delay backoffDelay
  | None => ret tt
  end.

Definition processEntry (entry : LedgerEntry) : M unit :=
  now <- ask_Date_now env ;;
  storage_update (id entry)
    {| patch_status := Some processing;
       patch_attemptCount := Some (attemptCount entry + 1)%Z;
       patch_lastAttemptAt := Some now;
       patch_error := None |} ;;;
  log (onReplayStart entry) ;;;
  try_catch
    (status <- ask_fetch env (id entry) ;;
     if isClientError status then
       let error := Error ("HTTP " +:+ pretty status +:+ ": Client error") in
       markAsFailed entry error (Some (pretty status)) ;;;
       log (onReplayFailure entry error) ;;;
       throw error
     else if isRetryableStatusCode status then
       if canRetryEntry entry then
         rearm entry ;;;
         throw (Error ("HTTP " +:+ pretty status
                       +:+ ": Server error, will retry"))
       else
         let error :=
           Error ("HTTP " +:+ pretty status
                  +:+ ": Server error, max retries exceeded") in
         markAsFailed entry error (Some (pretty status)) ;;;
         log (onReplayFailure entry error) ;;;
         throw error
     else log (onReplaySuccess entry status))
    (λ error,
       if isNetworkError error then
         (if canRetryEntry entry then rearm entry
          else
            let networkError :=
              NetworkError "Network error, max retries exceeded"
                           (Some error) in
            markAsFailed entry networkError (Some "NETWORK_ERROR") ;;;
            log (onReplayFailure entry networkError)) ;;;
         throw error
       else throw error).

(** [Promise.allSettled(batch.map(entry => this.processEntry(entry)))],
    the members run one after the other (with the default concurrency
    of 1 there is one member). *)
Fixpoint allSettled (batch : list LedgerEntry) : M (list (exn + unit)) :=
  match batch with
  | [] => ret []
  | entry :: rest =>
      result <- settled (processEntry entry) ;;
      results <- allSettled rest ;;
      ret (result :: results)
  end.

(** The loop over [results]; the value is [hasError]. *)
Fixpoint handle_results (stopOnError : bool)
    (results : list (LedgerEntry * (exn + unit))) (hasError : bool)
  : M bool :=
  match results with
  | [] => ret hasError
  | (entry, inr _) :: rest =>
      storage_remove (id entry) ;;;
      log (onSuccess entry) ;;;
      handle_results stopOnError rest hasError
  | (entry, inl error) :: rest =>
      updatedEntry <- storage_get (id entry) ;;
      match updatedEntry with
      | Some updated => log (onFailure updated error)
      | None => ret tt
      end ;;;
      if stopOnError
      then modify (λ w, with_engine w (set_lastError (engine w) error)) ;;;
           ret true
      else handle_results stopOnError rest true
  end.

(** The [while] loop of [process]; [fuel] bounds its iterations. *)
Fixpoint drain (concurrency : Z) (stopOnError : bool) (fuel : nat)
  : M unit :=
  match fuel with
  | O => λ w, (Pending, w)
  | S fuel' =>
      w <- getWorld ;;
      if isPaused (engine w) then ret tt
      else
      match abortController (engine w) with
      | None => throw (TypeError "Cannot read properties of null")
      | Some aborted =>
          if aborted then ret tt
          else
            online <- ask_onlineCheck env ;;
            if negb online
            then delay 1000 ;;; drain concurrency stopOnError fuel'
            else
              entries <- storage_getAll ;;
              let pendingEntries :=
                filter (λ e, status e = pending) entries in
              match pendingEntries with
              | [] => ret tt
              | _ =>
                  let batch := slice0 concurrency pendingEntries in
                  results <- allSettled batch ;;
                  hasError <- handle_results stopOnError
                                (zip batch results) false ;;
                  if hasError && stopOnError then ret tt
                  else drain concurrency stopOnError fuel'
              end
      end
  end.

Definition process (options : ProcessOptions) (fuel : nat) : M unit :=
  let concurrency := default 1%Z (concurrency options) in
  let stopOnError := default true (stopOnError options) in
  w <- getWorld ;;
  if isProcessing (engine w) then ret tt
  else
    modify (λ w, with_engine w (enter (engine w))) ;;;
    try_finally
      (recoverStaleEntries ;;; drain concurrency stopOnError fuel)
      (λ w, with_engine w (leave (engine w))).
(** [entries.some(e => e.status === 'pending' || e.status ===
    'processing')] *)
Definition hasPending (entries : list LedgerEntry) : bool :=
  existsb (λ e, bool_decide (status e = pending)
                || bool_decide (status e = processing)) entries.

Definition getState : M LedgerState.t :=
  w <- getWorld ;;
  if isPaused (engine w) then ret LedgerState.paused
  else if isProcessing (engine w) then ret LedgerState.processing
  else
    match lastError (engine w) with
    | Some _ => ret LedgerState.error
    | None =>
        entries <- storage_getAll ;;
        ret (if hasPending entries
             then LedgerState.pending else LedgerState.idle)
    end.
End WithJSON.

(** The field initialisers of the class. *)
Definition initial : EngineState :=
  {| isProcessing := false; isPaused := false; lastError := None;
     abortController := None; activeLoops := 0 |}.

End ReplayEngine.

(** ** The facade ([src/ledger.ts]) *)

Module RequestLedger.
Section WithJSON.
Context `{JSON}.
Variable env : Env.
Variable config : Config.

Definition ensureNotDestroyed : M unit :=
  w <- getWorld ;;
  if isDestroyed w then throw (Error "Ledger has been destroyed")
  else ret tt.

Definition executeRequest (options : RequestOptions) : M Z :=
  ask_fetch env (opt_id options).

(** [...(options.idempotencyKey && {...})]: an empty key is falsy. *)
Definition truthy_string (s : option string) : option string :=
  match s with
  | Some EmptyString => None
  | other => other
  end.

(** The [entry] object that [persistRequest] builds, [now] being the
    value of [Date.now()]. *)
Definition new_entry (options : RequestOptions) (now : Z) : LedgerEntry :=
  {| id := opt_id options;
     request := {| url := opt_url options;
                   method := opt_method options;
                   headers := default [] (opt_headers options);
                   body := opt_body options |};
     status := pending;
     attemptCount := 0;
     createdAt := now;
     lastAttemptAt := None;
     error := None;
     idempotencyKey := truthy_string (opt_idempotencyKey options);
     metadata := truthy (opt_metadata options) |}.

Definition persistRequest (options : RequestOptions) : M unit :=
  now <- ask_Date_now env ;;
  let entry := new_entry options now in
  try_catch
    (storage_put config entry ;;; log (onPersist entry))
    (λ error,
       match error with
       | PersistenceError _ _ => throw error
       | _ => throw (PersistenceError
                       "Failed to persist request to ledger" (Some error))
       end).

(** The value is [Some status] for the [Response], [None] for [void]. *)
Definition request (options : RequestOptions) : M (option Z) :=
  ensureNotDestroyed ;;;
  online <- ask_onlineCheck env ;;
  if online then
    try_catch
      (response <- executeRequest options ;; ret (Some response))
      (λ error,
         if isNetworkError error
         then persistRequest options ;;; ret None
         else throw error)
  else persistRequest options ;;; ret None.

Definition process (options : ProcessOptions) (fuel : nat) : M unit :=
  ensureNotDestroyed ;;;
  ReplayEngine.process env config options fuel.

Definition list : M (list LedgerEntry) :=
  ensureNotDestroyed ;;; storage_getAll.

Definition get (id : string) : M (option LedgerEntry) :=
  ensureNotDestroyed ;;; storage_get id.

Definition retry (id : string) : M unit :=
  ensureNotDestroyed ;;;
  entry <- storage_get id ;;
  match entry with
  | None => throw (Error ("Entry not found: " +:+ id))
  | Some entry =>
      if decide (status entry ≠ failed)
      then throw (Error ("Entry is not in failed state: " +:+ id))
      else storage_update id
             {| patch_status := Some pending;
                patch_attemptCount := None;
                patch_lastAttemptAt := None;
                patch_error := Some None |}
  end.

Definition remove (id : string) : M unit :=
  ensureNotDestroyed ;;; storage_remove id.

Definition destroy : M unit :=
  w <- getWorld ;;
  if isDestroyed w then ret tt
  else modify (λ w, with_engine (with_isDestroyed w true)
                      (ReplayEngine.pause (engine w))).

Definition pause : M unit :=
  ensureNotDestroyed ;;;
  modify (λ w, with_engine w (ReplayEngine.pause (engine w))).

Definition resume : M unit :=
  ensureNotDestroyed ;;;
  modify (λ w, with_engine w (ReplayEngine.resume (engine w))).

Definition clearCompleted : M unit :=
  ensureNotDestroyed ;;;
  entries <- storage_getAll ;;
  for_each entries (λ entry,
    if decide (status entry = completed)
    then storage_remove (id entry)
    else ret tt).

Definition getState : M LedgerState.t :=
  ensureNotDestroyed ;;; ReplayEngine.getState.
End WithJSON.
End RequestLedger.

(** * Example data

    The JSON literals [null], [true], [false] and the empty object and
    array, with their JSON texts, stand for the platform codec in the
    examples. *)
Inductive literal := Lnull | Ltrue | Lfalse | Lobject | Larray.

Definition literal_stringify (v : literal) : string :=
  match v with
  | Lnull => "null" | Ltrue => "true" | Lfalse => "false"
  | Lobject => "{}" | Larray => "[]"
  end.

Definition literal_parse (text : string) : option literal :=
  if String.eqb text "null" then Some Lnull
  else if String.eqb text "true" then Some Ltrue
  else if String.eqb text "false" then Some Lfalse
  else if String.eqb text "{}" then Some Lobject
  else if String.eqb text "[]" then Some Larray
  else None.

Definition literal_truthy (v : literal) : bool :=
  match v with
  | Lnull | Lfalse => false
  | Ltrue | Lobject | Larray => true
  end.

Definition literal_JSON : JSON :=
  {| json := literal;
     JSON_stringify := literal_stringify;
     JSON_parse := literal_parse;
     JSON_truthy := literal_truthy |}.

Section Examples.
#[local] Existing Instance literal_JSON.

(** [createEntry] of [tests/storage.test.ts], with an empty object as
    body. *)
Definition createEntry (id : string) (createdAt : Z) : LedgerEntry :=
  {| id := id;
     request := {| url := "https://api.example.com/test"; method := POST;
                   headers := [("Content-Type", "application/json")];
                   body := Some Lobject |};
     status := pending; attemptCount := 0; createdAt := createdAt;
     lastAttemptAt := None; error := None; idempotencyKey := None;
     metadata := None |}.

(** An entry as the engine leaves it: [status] after [attempts]
    attempts. *)
Definition attemptedEntry (id : string) (createdAt : Z)
    (status : EntryStatus) (attempts : Z) (error : option EntryError)
  : LedgerEntry :=
  {| id := id;
     request := {| url := "https://api.example.com/test"; method := POST;
                   headers := [("Content-Type", "application/json")];
                   body := Some Lobject |};
     status := status; attemptCount := attempts; createdAt := createdAt;
     lastAttemptAt := Some (createdAt + 60000)%Z; error := error;
     idempotencyKey := Some "idem-key-123";
     metadata := Some Lobject |}.

(** The store after a sequence of [put]s that all succeed. *)
Definition puts (maxEntries : nat) (entries : list LedgerEntry)
  : gmap string StoredRecord :=
  foldl (λ store entry,
           match IndexedDBStorage.put maxEntries store entry with
           | Returns store' => store'
           | _ => store
           end) ∅ entries.

Definition world_of (store : gmap string StoredRecord) : World :=
  {| store := store; engine := ReplayEngine.initial; isDestroyed := false;
     onlineChecks := 0; fetches := 0; clock := 0; trace := [] |}.

(** The three entries of the eviction test. *)
Definition three_entries : gmap string StoredRecord :=
  puts 3 [createEntry "test-1" 1000; createEntry "test-2" 2000;
          createEntry "test-3" 3000].

(** A store with one entry in each retained status. *)
Definition mixed_entries : gmap string StoredRecord :=
  puts 10
    [createEntry "test-1" 1000;
     attemptedEntry "test-2" 2000 processing 1 None;
     attemptedEntry "test-3" 3000 failed 3
       (Some {| message := "HTTP 500: Server error, max retries exceeded";
                code := Some "500" |})].

(** The world answers every connectivity check with [online] and every
    [fetch] with [outcome]; the clock stands at 5000. *)
Definition constant_env (online : bool) (outcome : FetchOutcome) : Env :=
  {| onlineCheck := λ _, online; fetch := λ _, outcome;
     Date_now := λ _, 5000%Z |}.

Definition example_config : Config :=
  {| retry := exponential 1000 10000 3; maxEntries := 10 |}.

Definition example_options (id : string) : RequestOptions :=
  {| opt_id := id; opt_url := "https://api.example.com/test";
     opt_method := POST; opt_headers := None; opt_body := Some Lobject;
     opt_idempotencyKey := None; opt_metadata := None |}.

(** The first [fetch] is answered with 404, every later one with 200;
    the network is reachable and the clock stands at 5000. *)
Definition first_rejected_env : Env :=
  {| onlineCheck := λ _, true;
     fetch := λ k, match k with
                   | O => Response 404
                   | S _ => Response 200
                   end;
     Date_now := λ _, 5000%Z |}.

Definition default_options : ProcessOptions :=
  {| concurrency := None; stopOnError := None |}.

Definition batch_options (size : Z) : ProcessOptions :=
  {| concurrency := Some size; stopOnError := None |}.
(** A store that holds a [completed] record, as a caller of the adapter
    can write one. *)
Definition archived_entries : gmap string StoredRecord :=
  puts 10
    [createEntry "test-1" 1000;
     attemptedEntry "test-2" 2000 completed 1 None;
     attemptedEntry "test-3" 3000 failed 3
       (Some {| message := "HTTP 500: Server error, max retries exceeded";
                code := Some "500" |})].
End Examples.

(** * Vocabulary of the properties *)

Section Vocabulary.
Context `{JSON}.
Variable env : Env.
Variable config : Config.

(** Every stored record deserializes: its texts are JSON texts. *)
Definition readable (store : gmap string StoredRecord) : Prop :=
  ∀ k r, store !! k = Some r →
         is_Some (IndexedDBStorage.deserializeEntry (k, r)).

(** Older or of the same age. *)
Definition not_newer (x y : string * StoredRecord) : Prop :=
  (rec_createdAt x.2 ≤ rec_createdAt y.2)%Z.

(** What recovery does to a stored record. *)
Definition recovered (r : StoredRecord) : StoredRecord :=
  if decide (rec_status r = processing)
  then IndexedDBStorage.set_status r pending else r.

(** The retry budget allows another attempt after [n] attempts. *)
Definition budget_remaining (n : Z) : Prop :=
  match retry config with
  | manual => False
  | fixed _ maxAttempts | exponential _ _ maxAttempts => (n < maxAttempts)%Z
  end.

(** The retry budget is used up: an automatic strategy whose
    [maxAttempts] the attempt count [n] has reached. *)
Definition budget_reached (n : Z) : Prop :=
  match retry config with
  | manual => False
  | fixed _ maxAttempts | exponential _ _ maxAttempts => (maxAttempts ≤ n)%Z
  end.

(** The outcomes of [fetch] that the engine treats as a failed attempt: a
    response in the client-error or server-error class, or a network
    error. *)
Definition failure_outcome (o : FetchOutcome) : bool :=
  match o with
  | Response status => isClientError status || isRetryableStatusCode status
  | FetchThrows e => isNetworkError e
  end.

(** The attempt is rejected and leaves under [id] a record satisfying
    [P]. *)
Definition rejected_leaving (r : res unit * World) (id : string)
    (P : StoredRecord → Prop) : Prop :=
  ∃ error updated,
    r.1 = Throws error ∧ store r.2 !! id = Some updated ∧ P updated.

(** The entry with status [pending] and no error, every other field as it
    was. *)
Definition rearmed (entry : LedgerEntry) : LedgerEntry :=
  {| id := id entry; request := request entry; status := pending;
     attemptCount := attemptCount entry; createdAt := createdAt entry;
     lastAttemptAt := lastAttemptAt entry; error := None;
     idempotencyKey := idempotencyKey entry; metadata := metadata entry |}.

Definition retry_patch : LedgerEntryPatch :=
  {| patch_status := Some pending; patch_attemptCount := None;
     patch_lastAttemptAt := None; patch_error := Some None |}.

(** What [persistRequest] leaves behind: with no entry under the id, the
    new [pending] entry is put (and the capacity rule applied); with an
    entry already under the id, the put is rejected, a [PersistenceError]
    is thrown and the store is what it was. *)
Definition persist_outcome (options : RequestOptions) (w : World)
    (outcome : res (option Z) * World) : Prop :=
  let entry := RequestLedger.new_entry options (Date_now env (clock w)) in
  match store w !! opt_id options with
  | None =>
      outcome.1 = Returns None
      ∧ status entry = pending
      ∧ store outcome.2
        = IndexedDBStorage.evictIfNeeded (maxEntries config)
            (<[opt_id options := IndexedDBStorage.storedEntry entry]> (store w))
      ∧ ((size (store w) < maxEntries config)%nat →
         store outcome.2 !! opt_id options
         = Some (IndexedDBStorage.storedEntry entry))
  | Some _ =>
      outcome.1
      = Throws (PersistenceError "Failed to persist request to ledger"
                  (Some (DuplicateEntryError (opt_id options))))
      ∧ store outcome.2 = store w
  end.

(** The entry with the properties of a patch assigned. *)
Definition patched (entry : LedgerEntry) (patch : LedgerEntryPatch)
  : LedgerEntry :=
  {| id := id entry; request := request entry;
     status := default (status entry) (patch_status patch);
     attemptCount := default (attemptCount entry) (patch_attemptCount patch);
     createdAt := createdAt entry;
     lastAttemptAt :=
       match patch_lastAttemptAt patch with
       | Some t => Some t
       | None => lastAttemptAt entry
       end;
     error := default (error entry) (patch_error patch);
     idempotencyKey := idempotencyKey entry; metadata := metadata entry |}.

(** The calls that open every attempt on a stored entry. *)
Definition attempt_opening (entry : LedgerEntry) (w : World) : list Event :=
  [storage_update_called (id entry)
     {| patch_status := Some processing;
        patch_attemptCount := Some (attemptCount entry + 1)%Z;
        patch_lastAttemptAt := Some (Date_now env (clock w));
        patch_error := None |};
   onReplayStart entry;
   fetch_called (id entry)].

(** A fetch result that the engine retries: a response in the
    server-error class or a network error. *)
Definition retryable_outcome (o : FetchOutcome) : bool :=
  match o with
  | Response status =>
      negb (isClientError status) && isRetryableStatusCode status
  | FetchThrows e => isNetworkError e
  end.

(** The flags that guard the loop: all of the engine but [lastError]. *)
Definition loop_flags (w : World) : bool * bool * option bool * nat :=
  (isProcessing (engine w), isPaused (engine w),
   abortController (engine w), activeLoops (engine w)).

(** A fetch result that the engine counts as a success: a response whose
    status is outside 400..599. *)
Definition success_outcome (o : FetchOutcome) : bool :=
  match o with
  | Response status =>
      negb (isClientError status) && negb (isRetryableStatusCode status)
  | FetchThrows _ => false
  end.

(** The computation leaves the projection [proj] of the world as it
    found it, however it ends. *)
Definition preserves {X A} (proj : World → X) (m : M A) : Prop :=
  ∀ w, proj (m w).2 = proj w.

(** Neither waiting nor under way: [completed] or [failed]. *)
Definition settled_status (r : StoredRecord) : Prop :=
  rec_status r ≠ pending ∧ rec_status r ≠ processing.

(** The call is rejected as on a destroyed ledger, the world staying
    [w]. *)
Definition refused {A} (w : World) (r : res A * World) : Prop :=
  r = (Throws (Error "Ledger has been destroyed"), w).

(** No stored record has the status [completed]. *)
Definition no_completed (m : gmap string StoredRecord) : Prop :=
  ∀ k r, m !! k = Some r → rec_status r ≠ completed.

(** The computation keeps the property [P] of the store, however it
    ends. *)
Definition maintains {A} (P : gmap string StoredRecord → Prop) (m : M A)
  : Prop :=
  ∀ w, P (store w) → P (store (m w).2).

(** A drain loop is active exactly when the processing flag is set, and
    then it is the only one. *)
Definition one_loop (e : EngineState) : Prop :=
  activeLoops e = if isProcessing e then 1%nat else 0%nat.

End Vocabulary.

(** Unfolds the monad and the effect wrappers in the goal. *)
Ltac run_effects :=
  cbv [bind ret throw try_catch try_finally settled log getWorld modify
       lift_store lift_read
       storage_put storage_getAll storage_get storage_update storage_remove
       ask_onlineCheck ask_fetch ask_Date_now delay
       logged with_store with_engine with_isDestroyed
       IndexedDBStorage.update IndexedDBStorage.remove
       ReplayEngine.markAsFailed ReplayEngine.rearm ReplayEngine.status_patch];
  cbn [store engine isDestroyed onlineChecks fetches clock trace fst snd
       isNetworkError].

(** * Properties *)

(** ** Retry policy *)

(** C3: for an exponential strategy and an attempt count [n >= 1],
    [calculateBackoffDelay] returns [min (baseMs * 2^(n-1)) maxMs] while
    [n < maxAttempts] and [null] from [n >= maxAttempts] on; with
    [baseMs = 1000], [maxMs = 10000], [maxAttempts = 5] the delays for
    [n = 1..4] are 1000, 2000, 4000, 8000 and every [n >= 5] stops. *)
Theorem calculateBackoffDelay_exponential baseMs maxMs maxAttempts n :
  (1 ≤ n)%Z →
  ((n < maxAttempts)%Z →
     calculateBackoffDelay (exponential baseMs maxMs maxAttempts) n
     = Some (Z.min (baseMs * 2 ^ (n - 1)) maxMs))
  ∧ ((maxAttempts ≤ n)%Z →
     calculateBackoffDelay (exponential baseMs maxMs maxAttempts) n = None)
  ∧ map (calculateBackoffDelay (exponential 1000 10000 5)) [1; 2; 3; 4]%Z
    = [Some 1000; Some 2000; Some 4000; Some 8000]%Z
  ∧ ((5 ≤ n)%Z → calculateBackoffDelay (exponential 1000 10000 5) n = None).
Proof.
  intros _. unfold calculateBackoffDelay. repeat split.
  - intros Hlt. destruct (Z.geb_spec n maxAttempts); [lia | reflexivity].
  - intros Hge. destruct (Z.geb_spec n maxAttempts); [reflexivity | lia].
  - intros Hge. destruct (Z.geb_spec n 5); [reflexivity | lia].
Qed.

Lemma calculateBackoffDelay_exponential_witness :
  calculateBackoffDelay (exponential 1000 10000 5) 4 = Some 8000%Z
  ∧ calculateBackoffDelay (exponential 1000 10000 5) 7 = None.
Proof.
  split.
  - apply (calculateBackoffDelay_exponential 1000 10000 5 4); lia.
  - apply (calculateBackoffDelay_exponential 1000 10000 5 7); lia.
Defined.

(** ** The entry store *)

(** C7: [update] on an existing entry tells a patch without the [error]
    key (the stored error stays) from a patch holding [error: undefined]
    (the stored error is removed) and from a patch holding an error value
    (it replaces the stored one). *)
Theorem update_error_field store id existing patch :
  store !! id = Some existing →
  ∃ updated,
    IndexedDBStorage.update store id patch = Returns (<[id := updated]> store)
    ∧ (patch_error patch = Some None → rec_error updated = None)
    ∧ (patch_error patch = None → rec_error updated = rec_error existing)
    ∧ (∀ e, patch_error patch = Some (Some e) → rec_error updated = Some e).
Proof.
  intros Hex. exists (IndexedDBStorage.merge_patch existing patch).
  unfold IndexedDBStorage.update. rewrite Hex. split; [reflexivity |].
  unfold IndexedDBStorage.merge_patch.
  destruct patch as [ps pa pl pe]; simpl.
  repeat split.
  - intros ->. reflexivity.
  - intros ->. destruct ps, pa, pl; reflexivity.
  - intros e ->. reflexivity.
Qed.

(** ** Running the storage calls *)

Section StorageCalls.
Context `{JSON}.

Lemma storage_update_existing id patch (w : World) existing :
  store w !! id = Some existing →
  storage_update id patch w
  = (Returns tt,
     with_store (logged (storage_update_called id patch) w)
       (<[id := IndexedDBStorage.merge_patch existing patch]> (store w))).
Proof.
  intros Hex.
  unfold storage_update, bind, log, getWorld, lift_store,
    IndexedDBStorage.update; simpl.
  rewrite Hex. reflexivity.
Qed.

End StorageCalls.

(** ** The ['createdAt'] index *)

Lemma createdAt_index_Permutation (store : gmap string StoredRecord) :
  IndexedDBStorage.createdAt_index store ≡ₚ map_to_list store.
Proof. apply merge_sort_Permutation. Qed.

Lemma elem_of_createdAt_index (store : gmap string StoredRecord) k r :
  (k, r) ∈ IndexedDBStorage.createdAt_index store ↔ store !! k = Some r.
Proof.
  rewrite createdAt_index_Permutation. apply elem_of_map_to_list.
Qed.

Lemma NoDup_createdAt_index (store : gmap string StoredRecord) :
  NoDup (IndexedDBStorage.createdAt_index store).*1.
Proof.
  rewrite createdAt_index_Permutation. apply NoDup_fst_map_to_list.
Qed.

Lemma length_createdAt_index (store : gmap string StoredRecord) :
  length (IndexedDBStorage.createdAt_index store) = size store.
Proof.
  rewrite createdAt_index_Permutation. apply length_map_to_list.
Qed.

(** *** Eviction *)

Lemma evict_cursor_lookup toDelete cursor :
  ∀ deleted (store : gmap string StoredRecord) k,
    IndexedDBStorage.evict_cursor toDelete deleted cursor store !! k
    = if decide (k ∈ (take (toDelete - deleted) cursor).*1) then None
      else store !! k.
Proof.
  induction cursor as [| [k0 r0] rest IH]; intros deleted store k.
  - cbn. rewrite take_nil. by rewrite decide_False by apply not_elem_of_nil.
  - cbn [IndexedDBStorage.evict_cursor].
    destruct (decide (deleted < toDelete)%nat) as [Hlt | Hge].
    + rewrite IH.
      replace (toDelete - deleted)%nat with (S (toDelete - S deleted)) by lia.
      cbn [take fmap list_fmap fst]. rewrite lookup_delete.
      destruct (decide (k ∈ k0 :: _)) as [Hin | Hin];
        destruct (decide (k ∈ _)) as [Hin' | Hin'];
        destruct (decide (k0 = k)) as [Heq | Hne]; try done; exfalso.
      * apply elem_of_cons in Hin as [-> | Hin]; done.
      * apply Hin, elem_of_cons. by right.
      * apply Hin, elem_of_cons. by right.
      * apply Hin, elem_of_cons. by left.
    + replace (toDelete - deleted)%nat with 0%nat by lia.
      cbn. by rewrite decide_False by apply not_elem_of_nil.
Qed.

Lemma evict_cursor_size toDelete cursor :
  ∀ deleted (store : gmap string StoredRecord),
    NoDup cursor.*1 →
    (∀ k, k ∈ cursor.*1 → is_Some (store !! k)) →
    size (IndexedDBStorage.evict_cursor toDelete deleted cursor store)
    = (size store - (toDelete - deleted) `min` length cursor)%nat.
Proof.
  induction cursor as [| [k0 r0] rest IH]; intros deleted store Hnd Hin.
  - cbn. lia.
  - cbn [IndexedDBStorage.evict_cursor].
    rewrite fmap_cons in Hnd, Hin. cbn [fst] in Hnd, Hin.
    apply NoDup_cons in Hnd as [Hk0 Hnd].
    destruct (decide (deleted < toDelete)%nat) as [Hlt | Hge].
    + rewrite IH; [| exact Hnd |].
      * rewrite map_size_delete_Some by (apply Hin; left).
        assert (size store ≠ 0)%nat.
        { intros Hz. apply map_size_empty_iff in Hz.
          destruct (Hin k0) as [r Hr]; [left |].
          rewrite Hz in Hr. by rewrite lookup_empty in Hr. }
        cbn [length]. lia.
      * intros k Hk. rewrite lookup_delete_ne.
        -- apply Hin. by right.
        -- intros <-. by apply Hk0.
    + lia.
Qed.

Lemma evictIfNeeded_subseteq maxEntries (store : gmap string StoredRecord) :
  IndexedDBStorage.evictIfNeeded maxEntries store ⊆ store.
Proof.
  unfold IndexedDBStorage.evictIfNeeded.
  destruct (decide _); [done |].
  apply map_subseteq_spec. intros k r. rewrite evict_cursor_lookup.
  by destruct (decide _).
Qed.

#[local] Instance index_le_total : Total IndexedDBStorage.index_le.
Proof.
  intros [k1 r1] [k2 r2]. unfold IndexedDBStorage.index_le. cbn.
  destruct (Z.lt_trichotomy (rec_createdAt r1) (rec_createdAt r2))
    as [Hlt | [Heq | Hgt]]; [by left; left | | by right; left].
  destruct (String.leb_total k1 k2); [left | right]; right; split;
    congruence.
Qed.

Lemma createdAt_index_sorted (store : gmap string StoredRecord) :
  StronglySorted not_newer (IndexedDBStorage.createdAt_index store).
Proof.
  apply Sorted_StronglySorted.
  { intros x y z. unfold not_newer. lia. }
  assert (Hs : Sorted IndexedDBStorage.index_le
                 (IndexedDBStorage.createdAt_index store))
    by apply (Sorted_merge_sort _).
  induction Hs as [| x l _ IH Hhd]; constructor; [exact IH |].
  destruct Hhd as [| y l Hxy]; constructor.
  unfold not_newer. destruct Hxy as [Hlt | [Heq _]]; lia.
Qed.

Section Deserialization.
Context `{JSON}.

Lemma deserializeEntry_fields k r entry :
  IndexedDBStorage.deserializeEntry (k, r) = Some entry →
  id entry = k ∧ status entry = rec_status r
  ∧ attemptCount entry = rec_attemptCount r.
Proof.
  unfold IndexedDBStorage.deserializeEntry. cbn [fst snd].
  destruct (IndexedDBStorage.parse_if_truthy _); [| discriminate].
  destruct (IndexedDBStorage.parse_if_truthy _); [| discriminate].
  intros [= <-]. auto.
Qed.

Lemma getAll_readable store :
  readable store →
  ∃ entries,
    IndexedDBStorage.getAll store = Returns entries
    ∧ Forall2 (λ p e, IndexedDBStorage.deserializeEntry p = Some e)
        (IndexedDBStorage.createdAt_index store) entries.
Proof.
  intros Hr. unfold IndexedDBStorage.getAll.
  destruct (mapM _ _) as [entries |] eqn:E.
  - exists entries. split; [reflexivity |]. by apply mapM_Some.
  - exfalso. apply eq_None_not_Some in E. apply E.
    apply mapM_is_Some, Forall_forall. intros [k r] Hin.
    apply Hr. by apply elem_of_createdAt_index.
Qed.
End Deserialization.

Section PutProperties.
Context `{JSON}.

Lemma parse_if_truthy_stringify (v : option json) :
  (∀ b, v = Some b → json_serializable b) →
  IndexedDBStorage.parse_if_truthy (JSON_stringify <$> v) = Some v.
Proof.
  intros Hser. destruct v as [b |]; [| reflexivity].
  destruct (Hser b eq_refl) as [Hne Hparse]. cbn.
  destruct (JSON_stringify b) eqn:E; [done |]. by rewrite Hparse.
Qed.

Lemma truthy_record (v : option json) :
  (∀ m, v = Some m → JSON_truthy m = true) → truthy v = v.
Proof.
  intros Hrec. destruct v as [m |]; [| reflexivity].
  cbn. by rewrite (Hrec m).
Qed.

Lemma deserializeEntry_storedEntry entry :
  (∀ b, body (request entry) = Some b → json_serializable b) →
  (∀ m, metadata entry = Some m →
        JSON_truthy m = true ∧ json_serializable m) →
  IndexedDBStorage.deserializeEntry
    (id entry, IndexedDBStorage.storedEntry entry) = Some entry.
Proof.
  intros Hb Hm. unfold IndexedDBStorage.deserializeEntry.
  cbn [fst snd IndexedDBStorage.storedEntry rec_request rec_metadata body].
  rewrite (parse_if_truthy_stringify _ Hb).
  rewrite truthy_record by (intros m Hsome; by apply Hm).
  rewrite parse_if_truthy_stringify by (intros m Hsome; by apply Hm).
  destruct entry as [? [] ? ? ? ? ? ? ?]. reflexivity.
Qed.

(** [readable] is kept by the operations that write records. *)
Lemma readable_empty : readable ∅.
Proof. intros k r Hk. by rewrite lookup_empty in Hk. Qed.

Lemma readable_subseteq (small large : gmap string StoredRecord) :
  small ⊆ large → readable large → readable small.
Proof. intros Hsub Hr k r Hk. apply Hr. by eapply lookup_weaken. Qed.

Lemma readable_put maxEntries store entry store' :
  readable store →
  (∀ b, body (request entry) = Some b → json_serializable b) →
  (∀ m, metadata entry = Some m →
        JSON_truthy m = true ∧ json_serializable m) →
  IndexedDBStorage.put maxEntries store entry = Returns store' →
  readable store'.
Proof.
  intros Hr Hb Hm. unfold IndexedDBStorage.put.
  destruct (store !! id entry) eqn:Hfresh; [done |]. intros [= <-].
  apply (readable_subseteq _ _ (evictIfNeeded_subseteq _ _)).
  intros k r. destruct (decide (k = id entry)) as [-> | Hne].
  - rewrite lookup_insert_eq. intros [= <-].
    by rewrite deserializeEntry_storedEntry.
  - rewrite lookup_insert_ne by congruence. apply Hr.
Qed.

Lemma readable_update store id patch store' :
  readable store →
  IndexedDBStorage.update store id patch = Returns store' →
  readable store'.
Proof.
  intros Hr. unfold IndexedDBStorage.update.
  destruct (store !! id) as [existing |] eqn:Hex; [| done]. intros [= <-].
  intros k r. destruct (decide (k = id)) as [-> | Hne].
  - rewrite lookup_insert_eq. intros [= <-].
    destruct (Hr _ _ Hex) as [entry Hentry]. revert Hentry.
    unfold IndexedDBStorage.deserializeEntry, IndexedDBStorage.merge_patch.
    destruct patch as [[] [] [] []]; cbn;
      repeat (destruct (IndexedDBStorage.parse_if_truthy _); [| done]);
      eauto.
  - rewrite lookup_insert_ne by congruence. apply Hr.
Qed.

(** C9, as the code has it: an entry with an id not yet stored, whose body
    is a JSON-serializable value or absent and whose metadata is a
    JSON-serializable record (an object, truthy) or absent, is accepted by
    [put] and read back by [get] as it was given, as long as the store
    still holds it; it does whenever the store had room. *)
Theorem put_get_roundtrip maxEntries (store : gmap string StoredRecord) entry :
  store !! id entry = None →
  (∀ b, body (request entry) = Some b → json_serializable b) →
  (∀ m, metadata entry = Some m →
        JSON_truthy m = true ∧ json_serializable m) →
  ∃ store',
    IndexedDBStorage.put maxEntries store entry = Returns store'
    ∧ (is_Some (store' !! id entry) →
       IndexedDBStorage.get store' (id entry) = Returns (Some entry))
    ∧ ((size store < maxEntries)%nat → is_Some (store' !! id entry)).
Proof.
  intros Hfresh Hb Hm. unfold IndexedDBStorage.put. rewrite Hfresh.
  eexists. split; [reflexivity |]. split.
  - intros [r Hr]. unfold IndexedDBStorage.get. rewrite Hr.
    pose proof (lookup_weaken _ _ _ _ Hr (evictIfNeeded_subseteq _ _)) as Hr'.
    rewrite lookup_insert_eq in Hr'. injection Hr' as <-.
    by rewrite deserializeEntry_storedEntry.
  - intros Hroom. unfold IndexedDBStorage.evictIfNeeded.
    rewrite decide_True.
    + rewrite lookup_insert_eq. eauto.
    + rewrite map_size_insert_None by exact Hfresh. lia.
Qed.

(** C4, as the code has it: a [put] that takes the store over its bound
    leaves exactly [maxEntries] entries; the entries removed are the first
    ones of the ['createdAt'] index after the insertion, as many as the
    excess, so none of them is newer than an entry that stays. The entry
    being inserted is in that index like the others: it stays when there is
    room for one entry and it is newer than every entry already stored. *)
Theorem put_evicts_oldest maxEntries (store : gmap string StoredRecord) entry :
  store !! id entry = None →
  (maxEntries < size store + 1)%nat →
  let added := <[id entry := IndexedDBStorage.storedEntry entry]> store in
  let evicted :=
    take (size added - maxEntries) (IndexedDBStorage.createdAt_index added) in
  ∃ store',
    IndexedDBStorage.put maxEntries store entry = Returns store'
    ∧ size store' = maxEntries
    ∧ (∀ k, store' !! k
            = if decide (k ∈ evicted.*1) then None else added !! k)
    ∧ (∀ old kept r, old ∈ evicted → store' !! kept = Some r →
                     (rec_createdAt old.2 ≤ rec_createdAt r)%Z)
    ∧ ((0 < maxEntries)%nat →
       (∀ k r, store !! k = Some r → (rec_createdAt r < createdAt entry)%Z) →
       store' !! id entry = Some (IndexedDBStorage.storedEntry entry)).
Proof.
  intros Hfresh Hover added evicted.
  assert (Hsize : size added = S (size store))
    by (subst added; by rewrite map_size_insert_None).
  set (index := IndexedDBStorage.createdAt_index added) in *.
  set (store' := IndexedDBStorage.evict_cursor (size added - maxEntries) 0
                   index added).
  assert (Hput : IndexedDBStorage.put maxEntries store entry = Returns store').
  { unfold IndexedDBStorage.put. rewrite Hfresh.
    unfold IndexedDBStorage.evictIfNeeded. fold added.
    rewrite decide_False by lia. reflexivity. }
  assert (Hlook : ∀ k, store' !! k
            = if decide (k ∈ evicted.*1) then None else added !! k).
  { intros k. subst store' evicted. rewrite evict_cursor_lookup.
    by rewrite Nat.sub_0_r. }
  assert (Hsplit : index
            = (evicted ++ drop (size added - maxEntries) index)%list)
    by (subst evicted; by rewrite take_drop).
  assert (Hkept : ∀ k r, store' !! k = Some r →
            (k, r) ∈ drop (size added - maxEntries) index).
  { intros k r. rewrite Hlook.
    destruct (decide (k ∈ evicted.*1)) as [Hin | Hin]; [done |].
    intros Hk. apply elem_of_createdAt_index in Hk. fold index in Hk.
    rewrite Hsplit in Hk. apply elem_of_app in Hk as [Hk | Hk]; [| done].
    exfalso. apply Hin, list_elem_of_fmap. by exists (k, r). }
  pose proof (createdAt_index_sorted added) as Hsorted. fold index in Hsorted.
  rewrite Hsplit in Hsorted. apply StronglySorted_app in Hsorted as [Hord _].
  exists store'. split; [exact Hput |]. split; [| split; [exact Hlook |]].
  { subst store'. rewrite evict_cursor_size.
    - subst index. rewrite length_createdAt_index. lia.
    - apply NoDup_createdAt_index.
    - intros k Hk. apply list_elem_of_fmap in Hk as ([k' r] & -> & Hk).
      apply elem_of_createdAt_index in Hk. eauto. }
  split.
  - intros old kept r Hold Hk. apply (Hord old (kept, r) Hold).
    by apply Hkept.
  - intros Hpos Hnewest. rewrite Hlook.
    destruct (decide (id entry ∈ evicted.*1)) as [Hin | Hin];
      [| subst added; apply lookup_insert_eq].
    exfalso.
    apply list_elem_of_fmap in Hin as ([k r] & Hk & Hin). cbn in Hk. subst k.
    assert (Hr : r = IndexedDBStorage.storedEntry entry).
    { assert (Hidx : (id entry, r) ∈ index)
        by (rewrite Hsplit; apply elem_of_app; by left).
      apply elem_of_createdAt_index in Hidx. subst added.
      rewrite lookup_insert_eq in Hidx. congruence. }
    subst r.
    destruct (drop (size added - maxEntries) index) as [| [k2 r2] rest]
      eqn:Hdrop.
    { apply (f_equal length) in Hdrop. rewrite length_drop in Hdrop.
      subst index. rewrite length_createdAt_index in Hdrop.
      cbn in Hdrop. lia. }
    assert (Hin2 : (k2, r2) ∈ (k2, r2) :: rest) by left.
    pose proof (Hord _ _ Hin Hin2) as Hle. unfold not_newer in Hle.
    cbn in Hle.
    assert (Hk2 : added !! k2 = Some r2).
    { apply elem_of_createdAt_index. fold index. rewrite Hsplit.
      apply elem_of_app. by right. }
    assert (Hne : k2 ≠ id entry).
    { intros ->. pose proof (NoDup_createdAt_index added) as Hnd.
      fold index in Hnd. rewrite Hsplit, fmap_app in Hnd.
      apply NoDup_app in Hnd as (_ & Hdisj & _).
      apply (Hdisj (id entry)).
      - apply list_elem_of_fmap. by eexists (_, _).
      - apply list_elem_of_fmap. by exists (id entry, r2). }
    subst added. rewrite lookup_insert_ne in Hk2 by congruence.
    specialize (Hnewest _ _ Hk2). lia.
Qed.
End PutProperties.

(** ** The replay engine *)

Section EngineProperties.
Context `{JSON}.
Variable env : Env.
Variable config : Config.

Lemma canRetryEntry_budget entry :
  ReplayEngine.canRetryEntry config entry = true
  ↔ budget_remaining config (attemptCount entry + 1).
Proof.
  unfold ReplayEngine.canRetryEntry, budget_remaining.
  destruct (retry config); try apply Z.ltb_lt. split; [discriminate | tauto].
Qed.

Lemma canRetryEntry_no_budget entry :
  ReplayEngine.canRetryEntry config entry = false
  ↔ ¬ budget_remaining config (attemptCount entry + 1).
Proof.
  rewrite <- canRetryEntry_budget.
  destruct (ReplayEngine.canRetryEntry config entry); split; congruence.
Qed.

Lemma client_not_retryable status :
  isClientError status = true → isRetryableStatusCode status = false.
Proof. unfold isClientError, isRetryableStatusCode. lia. Qed.

Ltac run_attempt Hex Hfetch :=
  unfold rejected_leaving, ReplayEngine.processEntry;
  repeat (run_effects;
          rewrite ?Hex, ?Hfetch, ?lookup_insert_eq;
          repeat match goal with
                 | Hb : _ = true |- _ => rewrite Hb
                 | Hb : _ = false |- _ => rewrite Hb
                 end).

Lemma processEntry_client_error entry (w : World) existing status :
  store w !! id entry = Some existing →
  fetch env (fetches w) = Response status →
  isClientError status = true →
  rejected_leaving (ReplayEngine.processEntry env config entry w) (id entry)
    (λ updated,
       rec_attemptCount updated = (attemptCount entry + 1)%Z
       ∧ rec_status updated = failed
       ∧ rec_error updated
         = Some {| message := "HTTP " +:+ pretty status +:+ ": Client error";
                   code := Some (pretty status) |}).
Proof.
  intros Hex Hfetch Hc. run_attempt Hex Hfetch.
  eexists _, _. split; [reflexivity |]. split; [reflexivity |].
  cbn. auto.
Qed.

Lemma processEntry_server_error_rearmed entry (w : World) existing status :
  store w !! id entry = Some existing →
  fetch env (fetches w) = Response status →
  isRetryableStatusCode status = true →
  ReplayEngine.canRetryEntry config entry = true →
  rejected_leaving (ReplayEngine.processEntry env config entry w) (id entry)
    (λ updated,
       rec_attemptCount updated = (attemptCount entry + 1)%Z
       ∧ rec_status updated = pending
       ∧ rec_error updated = rec_error existing).
Proof.
  intros Hex Hfetch Hr Hb.
  assert (Hc : isClientError status = false)
    by (destruct (isClientError status) eqn:E; [| done];
        apply client_not_retryable in E; congruence).
  run_attempt Hex Hfetch.
  destruct (calculateBackoffDelay _ _); run_effects;
    (eexists _, _; split; [reflexivity |];
     rewrite lookup_insert_eq; split; [reflexivity |]);
    cbn; auto.
Qed.

Lemma processEntry_server_error_exhausted entry (w : World) existing status :
  store w !! id entry = Some existing →
  fetch env (fetches w) = Response status →
  isRetryableStatusCode status = true →
  ReplayEngine.canRetryEntry config entry = false →
  rejected_leaving (ReplayEngine.processEntry env config entry w) (id entry)
    (λ updated,
       rec_attemptCount updated = (attemptCount entry + 1)%Z
       ∧ rec_status updated = failed
       ∧ rec_error updated
         = Some {| message := "HTTP " +:+ pretty status
                              +:+ ": Server error, max retries exceeded";
                   code := Some (pretty status) |}).
Proof.
  intros Hex Hfetch Hr Hb.
  assert (Hc : isClientError status = false)
    by (destruct (isClientError status) eqn:E; [| done];
        apply client_not_retryable in E; congruence).
  run_attempt Hex Hfetch.
  eexists _, _. split; [reflexivity |]. split; [reflexivity |].
  cbn. auto.
Qed.

Lemma processEntry_network_error_exhausted entry (w : World) existing e :
  store w !! id entry = Some existing →
  fetch env (fetches w) = FetchThrows e →
  isNetworkError e = true →
  ReplayEngine.canRetryEntry config entry = false →
  rejected_leaving (ReplayEngine.processEntry env config entry w) (id entry)
    (λ updated,
       rec_attemptCount updated = (attemptCount entry + 1)%Z
       ∧ rec_status updated = failed
       ∧ rec_error updated
         = Some {| message := "Network error, max retries exceeded";
                   code := Some "NETWORK_ERROR" |}).
Proof.
  intros Hex Hfetch Hn Hb.
  run_attempt Hex Hfetch.
  eexists _, _. split; [reflexivity |]. split; [reflexivity |].
  cbn. auto.
Qed.

(** C1: an attempt whose response is in the client-error class marks
    the entry [failed] and records the error whatever budget is left; a
    response in the server-error class sends the entry back to [pending]
    when the strategy is not manual and the attempt count after the
    attempt is below [maxAttempts], and marks it [failed] with the error
    recorded otherwise. *)
Theorem processEntry_transitions entry (w : World) existing status :
  store w !! id entry = Some existing →
  fetch env (fetches w) = Response status →
  let attempts := (attemptCount entry + 1)%Z in
  let result := ReplayEngine.processEntry env config entry w in
  (isClientError status = true →
     rejected_leaving result (id entry) (λ updated,
       rec_attemptCount updated = attempts
       ∧ rec_status updated = failed
       ∧ rec_error updated
         = Some {| message := "HTTP " +:+ pretty status +:+ ": Client error";
                   code := Some (pretty status) |}))
  ∧ (isRetryableStatusCode status = true →
     budget_remaining config attempts →
     rejected_leaving result (id entry) (λ updated,
       rec_attemptCount updated = attempts
       ∧ rec_status updated = pending
       ∧ rec_error updated = rec_error existing))
  ∧ (isRetryableStatusCode status = true →
     ¬ budget_remaining config attempts →
     rejected_leaving result (id entry) (λ updated,
       rec_attemptCount updated = attempts
       ∧ rec_status updated = failed
       ∧ rec_error updated
         = Some {| message := "HTTP " +:+ pretty status
                              +:+ ": Server error, max retries exceeded";
                   code := Some (pretty status) |})).
Proof.
  intros Hex Hfetch attempts result. subst attempts result.
  split; [| split].
  - eauto using processEntry_client_error.
  - intros Hr Hb. apply canRetryEntry_budget in Hb.
    eauto using processEntry_server_error_rearmed.
  - intros Hr Hb. apply canRetryEntry_no_budget in Hb.
    eauto using processEntry_server_error_exhausted.
Qed.

Lemma recover_loop ps entries :
  Forall2 (λ p e, IndexedDBStorage.deserializeEntry p = Some e) ps entries →
  NoDup ps.*1 →
  ∀ w : World,
    (∀ k r, (k, r) ∈ ps → store w !! k = Some r) →
    ∃ w',
      for_each entries (λ entry,
        if decide (status entry = processing)
        then storage_update (id entry) (ReplayEngine.status_patch pending)
        else ret tt) w = (Returns tt, w')
      ∧ ∀ k, store w' !! k
             = if decide (k ∈ ps.*1) then recovered <$> store w !! k
               else store w !! k.
Proof.
  induction 1 as [| [k0 r0] entry ps entries Hd _ IH]; intros Hnd w Hw.
  - exists w. split; [reflexivity |]. intros k.
    rewrite decide_False; [done | apply not_elem_of_nil].
  - apply deserializeEntry_fields in Hd as (Hid & Hst & _).
    rewrite fmap_cons in Hnd. apply NoDup_cons in Hnd as [Hk0 Hnd].
    cbn [fst] in Hk0.
    assert (Hr0 : store w !! k0 = Some r0) by (apply Hw; left).
    cbn [for_each]. unfold bind at 1. rewrite Hid, Hst.
    destruct (decide (rec_status r0 = processing)) as [Hp | Hp].
    + erewrite storage_update_existing by exact Hr0.
      edestruct IH as (w' & Hrun & Hlook); [exact Hnd | | ].
      2:{ exists w'. split; [exact Hrun |]. intros k. rewrite Hlook.
          cbn [with_store store logged]. rewrite fmap_cons. cbn [fst].
          destruct (decide (k = k0)) as [-> | Hne].
          - rewrite decide_False by exact Hk0.
            rewrite decide_True by left.
            rewrite lookup_insert_eq, Hr0. cbn. unfold recovered.
            rewrite decide_True by exact Hp. reflexivity.
          - rewrite lookup_insert_ne by congruence.
            destruct (decide (k ∈ ps.*1)) as [Hin | Hin].
            + rewrite decide_True by (by right). reflexivity.
            + rewrite decide_False; [reflexivity |].
              rewrite elem_of_cons. tauto. }
      intros k r Hin. cbn [with_store store logged].
      rewrite lookup_insert_ne; [apply Hw; by right |].
      intros <-. apply Hk0. apply list_elem_of_fmap. by exists (k0, r).
    + edestruct IH as (w' & Hrun & Hlook); [exact Hnd | | ].
      2:{ exists w'. split; [exact Hrun |]. intros k. rewrite Hlook.
          rewrite fmap_cons. cbn [fst].
          destruct (decide (k = k0)) as [-> | Hne].
          - rewrite decide_False by exact Hk0.
            rewrite decide_True by left.
            rewrite Hr0. cbn. unfold recovered.
            rewrite decide_False by exact Hp. reflexivity.
          - destruct (decide (k ∈ ps.*1)) as [Hin | Hin].
            + rewrite decide_True by (by right). reflexivity.
            + rewrite decide_False; [reflexivity |].
              rewrite elem_of_cons. tauto. }
      intros k r Hin. apply Hw. by right.
Qed.

Lemma recoverStaleEntries_store (w : World) :
  readable (store w) →
  ∃ w',
    ReplayEngine.recoverStaleEntries w = (Returns tt, w')
    ∧ store w' = recovered <$> store w.
Proof.
  intros Hread.
  destruct (getAll_readable _ Hread) as (entries & Hall & Hdes).
  unfold ReplayEngine.recoverStaleEntries.
  unfold bind at 1. unfold storage_getAll.
  run_effects. rewrite Hall.
  edestruct (recover_loop _ _ Hdes (NoDup_createdAt_index _)
               (logged storage_getAll_called w)) as (w' & Hrun & Hlook).
  { intros k r. apply elem_of_createdAt_index. }
  cbn [logged store] in Hlook.
  exists w'. split; [exact Hrun |].
  apply map_eq. intros k. rewrite Hlook, lookup_fmap.
  destruct (decide _) as [Hin | Hin]; [reflexivity |].
  destruct (store w !! k) as [r |] eqn:Hk; [| reflexivity].
  exfalso. apply Hin, list_elem_of_fmap. exists (k, r).
  split; [reflexivity | by apply elem_of_createdAt_index].
Qed.

(** A call of [process] that passes the guard runs the recovery before
    the drain loop. *)
Lemma process_recovers_first options fuel (w : World) :
  isProcessing (engine w) = false →
  ReplayEngine.process env config options fuel w
  = try_finally
      (ReplayEngine.recoverStaleEntries ;;;
       ReplayEngine.drain env config (default 1%Z (concurrency options))
         (default true (stopOnError options)) fuel)
      (λ w, with_engine w (ReplayEngine.leave (engine w)))
      (with_engine w (ReplayEngine.enter (engine w))).
Proof.
  intros Hp. unfold ReplayEngine.process.
  unfold bind at 1. unfold getWorld at 1. rewrite Hp. reflexivity.
Qed.

(** C2: startup recovery sets every entry found in [processing] to
    [pending] and leaves every other entry as it is; afterwards no entry of
    the store is [processing]. It is the first step of [process]: a call
    that passes the guard enters its drain loop on the recovered store. *)
Theorem recoverStaleEntries_resets_processing (w : World) :
  readable (store w) →
  ∃ w',
    ReplayEngine.recoverStaleEntries w = (Returns tt, w')
    ∧ (∀ k r, store w !! k = Some r → rec_status r = processing →
              store w' !! k = Some (IndexedDBStorage.set_status r pending))
    ∧ (∀ k r, store w !! k = Some r → rec_status r ≠ processing →
              store w' !! k = Some r)
    ∧ (∀ k, store w !! k = None → store w' !! k = None)
    ∧ (∀ k r, store w' !! k = Some r → rec_status r ≠ processing)
    ∧ (∀ options fuel,
         isProcessing (engine w) = false →
         ∃ w1,
           store w1 = store w'
           ∧ ReplayEngine.process env config options fuel w
             = try_finally
                 (ReplayEngine.drain env config
                    (default 1%Z (concurrency options))
                    (default true (stopOnError options)) fuel)
                 (λ w, with_engine w (ReplayEngine.leave (engine w)))
                 w1).
Proof.
  intros Hread.
  destruct (recoverStaleEntries_store w Hread) as (w' & Hrun & Hstore).
  exists w'. split; [exact Hrun |]. rewrite Hstore.
  repeat split.
  - intros k r Hk Hp. rewrite lookup_fmap, Hk. cbn. unfold recovered.
    by rewrite decide_True.
  - intros k r Hk Hp. rewrite lookup_fmap, Hk. cbn. unfold recovered.
    by rewrite decide_False.
  - intros k Hk. by rewrite lookup_fmap, Hk.
  - intros k r. rewrite lookup_fmap.
    destruct (store w !! k) as [r0 |]; [| done].
    cbn. intros [= <-]. unfold recovered.
    destruct (decide (rec_status r0 = processing)); [| done].
    discriminate.
  - intros options fuel Hguard.
    rewrite (process_recovers_first options fuel w Hguard).
    destruct (recoverStaleEntries_store
                (with_engine w (ReplayEngine.enter (engine w))) Hread)
      as (w1 & Hrun1 & Hstore1).
    exists w1. split; [exact Hstore1 |].
    unfold try_finally, bind. by rewrite Hrun1.
Qed.
End EngineProperties.


(** ** The facade *)

Section FacadeProperties.
Context `{JSON}.
Variable env : Env.
Variable config : Config.

Lemma get_Some_inv store id entry :
  IndexedDBStorage.get store id = Returns (Some entry) →
  ∃ r, store !! id = Some r
       ∧ IndexedDBStorage.deserializeEntry (id, r) = Some entry.
Proof.
  unfold IndexedDBStorage.get. destruct (store !! id) as [r |]; [| done].
  destruct (IndexedDBStorage.deserializeEntry _) eqn:E; [| done].
  intros [= <-]. eauto.
Qed.

Lemma deserializeEntry_rearmed k r entry :
  IndexedDBStorage.deserializeEntry (k, r) = Some entry →
  IndexedDBStorage.deserializeEntry
    (k, IndexedDBStorage.merge_patch r retry_patch)
  = Some (rearmed entry).
Proof.
  unfold IndexedDBStorage.deserializeEntry. cbn.
  destruct (IndexedDBStorage.parse_if_truthy _); [| discriminate].
  destruct (IndexedDBStorage.parse_if_truthy _); [| discriminate].
  intros [= <-]. reflexivity.
Qed.

(** [retry] on a [failed] entry, step by step. *)
Lemma retry_failed (w : World) id r entry :
  isDestroyed w = false →
  store w !! id = Some r →
  IndexedDBStorage.deserializeEntry (id, r) = Some entry →
  status entry = failed →
  RequestLedger.retry id w
  = (Returns tt,
     with_store
       (logged (storage_update_called id retry_patch)
          (logged (storage_get_called id) w))
       (<[id := IndexedDBStorage.merge_patch r retry_patch]> (store w))).
Proof.
  intros Hd Hr Hdes Hst.
  unfold RequestLedger.retry, RequestLedger.ensureNotDestroyed.
  run_effects. rewrite Hd. run_effects.
  unfold IndexedDBStorage.get. rewrite Hr, Hdes. rewrite Hst.
  rewrite decide_False by (intros Hne; by apply Hne).
  run_effects. rewrite Hr, Hd. reflexivity.
Qed.

(** [retry] on anything else throws before it writes. *)
Lemma retry_rejected (w : World) id :
  isDestroyed w = false →
  (∀ entry, IndexedDBStorage.get (store w) id = Returns (Some entry) →
            status entry ≠ failed) →
  ∃ e w', RequestLedger.retry id w = (Throws e, w') ∧ store w' = store w.
Proof.
  intros Hd Hnf.
  unfold RequestLedger.retry, RequestLedger.ensureNotDestroyed.
  run_effects. rewrite Hd. run_effects.
  destruct (IndexedDBStorage.get (store w) id) as [[entry |] | e |] eqn:Hget.
  - rewrite decide_True by (by apply Hnf). run_effects. eauto.
  - run_effects. eauto.
  - eauto.
  - exfalso. revert Hget. unfold IndexedDBStorage.get.
    destruct (store w !! id); [| done].
    by destruct (IndexedDBStorage.deserializeEntry _).
Qed.

(** C6: on a ledger in use, [retry id] succeeds exactly when [get id]
    finds an entry whose status is [failed]; it then leaves that entry with
    status [pending] and no error. When there is no entry, or the entry is
    [pending], [processing] or [completed], it throws and the store is what
    it was. *)
Theorem retry_requires_failed (w : World) id :
  isDestroyed w = false →
  let result := RequestLedger.retry id w in
  (result.1 = Returns tt
   ↔ ∃ entry, IndexedDBStorage.get (store w) id = Returns (Some entry)
              ∧ status entry = failed)
  ∧ (∀ entry, IndexedDBStorage.get (store w) id = Returns (Some entry) →
              status entry = failed →
              result.1 = Returns tt
              ∧ IndexedDBStorage.get (store result.2) id
                = Returns (Some (rearmed entry)))
  ∧ (IndexedDBStorage.get (store w) id = Returns None
     ∨ (∃ entry, IndexedDBStorage.get (store w) id = Returns (Some entry)
                 ∧ (status entry = pending ∨ status entry = processing
                    ∨ status entry = completed)) →
     ∃ e, result.1 = Throws e ∧ store result.2 = store w).
Proof.
  intros Hd result. subst result.
  assert (Hok : ∀ entry,
             IndexedDBStorage.get (store w) id = Returns (Some entry) →
             status entry = failed →
             (RequestLedger.retry id w).1 = Returns tt
             ∧ IndexedDBStorage.get (store (RequestLedger.retry id w).2) id
               = Returns (Some (rearmed entry))).
  { intros entry Hget Hst.
    destruct (get_Some_inv _ _ _ Hget) as (r & Hr & Hdes).
    rewrite (retry_failed w id r entry Hd Hr Hdes Hst). cbn [fst snd].
    split; [reflexivity |]. cbn [with_store store].
    unfold IndexedDBStorage.get. rewrite lookup_insert_eq.
    by rewrite (deserializeEntry_rearmed _ _ _ Hdes). }
  split; [| split].
  - split.
    + intros Hret.
      destruct (IndexedDBStorage.get (store w) id) as [[entry |] | e |] eqn:Hget.
      * destruct (decide (status entry = failed)) as [Hst | Hst]; [eauto |].
        destruct (retry_rejected w id Hd) as (e & w' & Hrun & _).
        { intros entry' Hg. rewrite Hget in Hg. injection Hg as <-.
          exact Hst. }
        rewrite Hrun in Hret. discriminate.
      * destruct (retry_rejected w id Hd) as (e & w' & Hrun & _);
          [intros ?; rewrite Hget; discriminate |].
        rewrite Hrun in Hret. discriminate.
      * destruct (retry_rejected w id Hd) as (e' & w' & Hrun & _);
          [intros ?; rewrite Hget; discriminate |].
        rewrite Hrun in Hret. discriminate.
      * destruct (retry_rejected w id Hd) as (e' & w' & Hrun & _);
          [intros ?; rewrite Hget; discriminate |].
        rewrite Hrun in Hret. discriminate.
    + intros (entry & Hget & Hst). by apply (Hok entry).
  - exact Hok.
  - intros Hcase.
    destruct (retry_rejected w id Hd) as (e & w' & Hrun & Hsame).
    { intros entry Hget.
      destruct Hcase as [Hnone | (entry' & Hget' & Hst)]; [congruence |].
      rewrite Hget in Hget'. injection Hget' as <-.
      destruct Hst as [-> | [-> | ->]]; discriminate. }
    rewrite Hrun. eauto.
Qed.

Lemma rejected_leaving_impl (result : res unit * World) id
    (P Q : StoredRecord → Prop) :
  (∀ r, P r → Q r) →
  rejected_leaving result id P → rejected_leaving result id Q.
Proof. intros HPQ (e & r & ? & ? & ?). exists e, r. auto. Qed.

Lemma budget_reached_canRetryEntry (entry : LedgerEntry) :
  budget_reached config (attemptCount entry) →
  ReplayEngine.canRetryEntry config entry = false.
Proof.
  unfold budget_reached, ReplayEngine.canRetryEntry.
  destruct (retry config); [| | done]; intros Hm; apply Z.ltb_ge; lia.
Qed.

(** C10: a successful [retry] of a [failed] entry changes the status and
    the error of the entry and nothing else: request, attempt count,
    creation time, last attempt time, idempotency key and metadata are as
    before. The budget is therefore not reset: under an automatic strategy
    whose [maxAttempts] the attempt count has reached, the next attempt
    that fails marks the entry [failed] again. *)
Theorem retry_keeps_budget (w : World) entryId entry :
  isDestroyed w = false →
  IndexedDBStorage.get (store w) entryId = Returns (Some entry) →
  status entry = failed →
  ∃ w' r r',
    RequestLedger.retry entryId w = (Returns tt, w')
    ∧ store w !! entryId = Some r ∧ store w' !! entryId = Some r'
    ∧ rec_status r' = pending ∧ rec_error r' = None
    ∧ rec_request r' = rec_request r
    ∧ rec_attemptCount r' = rec_attemptCount r
    ∧ rec_createdAt r' = rec_createdAt r
    ∧ rec_lastAttemptAt r' = rec_lastAttemptAt r
    ∧ rec_idempotencyKey r' = rec_idempotencyKey r
    ∧ rec_metadata r' = rec_metadata r
    ∧ IndexedDBStorage.get (store w') entryId = Returns (Some (rearmed entry))
    ∧ (budget_reached config (attemptCount entry) →
       failure_outcome (fetch env (fetches w')) = true →
       rejected_leaving
         (ReplayEngine.processEntry env config (rearmed entry) w')
         entryId
         (λ updated,
            rec_status updated = failed ∧ is_Some (rec_error updated)
            ∧ rec_attemptCount updated = (attemptCount entry + 1)%Z)).
Proof.
  intros Hd Hget Hst.
  destruct (get_Some_inv _ _ _ Hget) as (r & Hr & Hdes).
  pose proof (deserializeEntry_fields _ _ _ Hdes) as (Hid & _ & _).
  eexists _, r, (IndexedDBStorage.merge_patch r retry_patch).
  split; [exact (retry_failed w entryId r entry Hd Hr Hdes Hst) |].
  cbn [with_store store].
  rewrite lookup_insert_eq.
  repeat (split; [reflexivity || exact Hr |]).
  split.
  { unfold IndexedDBStorage.get. rewrite lookup_insert_eq.
    by rewrite (deserializeEntry_rearmed _ _ _ Hdes). }
  intros Hbudget Hfail.
  assert (Hno : ReplayEngine.canRetryEntry config (rearmed entry) = false)
    by (by apply budget_reached_canRetryEntry).
  set (w' := with_store _ _) in *.
  assert (Hr' : store w' !! id (rearmed entry)
                = Some (IndexedDBStorage.merge_patch r retry_patch)).
  { subst w'. cbn [with_store store rearmed id]. rewrite Hid.
    apply lookup_insert_eq. }
  assert (Hid' : id (rearmed entry) = entryId) by exact Hid.
  rewrite <- Hid'.
  destruct (fetch env (fetches w')) as [st | e] eqn:Hfetch; cbn in Hfail.
  - apply orb_true_iff in Hfail as [Hc | Hs].
    + eapply rejected_leaving_impl;
        [| exact (processEntry_client_error env config _ _ _ _ Hr' Hfetch Hc)].
      intros u (Hcount & -> & ->). split; [done |]. split; [eauto |].
      exact Hcount.
    + eapply rejected_leaving_impl;
        [| exact (processEntry_server_error_exhausted env config _ _ _ _
                    Hr' Hfetch Hs Hno)].
      intros u (Hcount & -> & ->). split; [done |]. split; [eauto |].
      exact Hcount.
  - eapply rejected_leaving_impl;
      [| exact (processEntry_network_error_exhausted env config _ _ _ _
                  Hr' Hfetch Hfail Hno)].
    intros u (Hcount & -> & ->). split; [done |]. split; [eauto |].
    exact Hcount.
Qed.
Lemma evictIfNeeded_room maxEntries (store : gmap string StoredRecord) :
  (size store ≤ maxEntries)%nat →
  IndexedDBStorage.evictIfNeeded maxEntries store = store.
Proof.
  intros Hle. unfold IndexedDBStorage.evictIfNeeded.
  by rewrite decide_True.
Qed.

Lemma persist_outcome_ext options (w1 w : World) outcome :
  store w1 = store w → clock w1 = clock w →
  persist_outcome env config options w1 outcome →
  persist_outcome env config options w outcome.
Proof. unfold persist_outcome. by intros -> ->. Qed.

Lemma persistRequest_outcome options (w : World) :
  let outcome :=
    (RequestLedger.persistRequest env config options ;;; ret None) w in
  fetches outcome.2 = fetches w
  ∧ persist_outcome env config options w outcome.
Proof.
  unfold persist_outcome, RequestLedger.persistRequest.
  run_effects. unfold IndexedDBStorage.put.
  cbn [id RequestLedger.new_entry].
  destruct (store w !! opt_id options) as [r |] eqn:Hr; run_effects.
  - split; [reflexivity |]. split; reflexivity.
  - split; [reflexivity |]. split; [reflexivity |]. split; [reflexivity |].
    split; [reflexivity |].
    intros Hroom. rewrite evictIfNeeded_room.
    + apply lookup_insert_eq.
    + rewrite map_size_insert_None by exact Hr. lia.
Qed.

Lemma request_falls_back options (w : World) e :
  isDestroyed w = false →
  onlineCheck env (onlineChecks w) = true →
  fetch env (fetches w) = FetchThrows e →
  isNetworkError e = true →
  ∃ w1, store w1 = store w ∧ clock w1 = clock w
        ∧ RequestLedger.request env config options w
          = (RequestLedger.persistRequest env config options ;;; ret None) w1.
Proof.
  intros Hd Hon Hfetch Hnet.
  unfold RequestLedger.request, RequestLedger.ensureNotDestroyed,
    RequestLedger.executeRequest.
  unfold bind at 1. unfold bind at 1. unfold getWorld at 1.
  rewrite Hd. unfold ret at 1. unfold bind at 1.
  unfold ask_onlineCheck at 1. rewrite Hon.
  unfold try_catch at 1. unfold bind at 1. unfold ask_fetch at 1.
  cbn [fetches logged]. rewrite Hfetch, Hnet.
  eexists. split; [| split; [| reflexivity]]; reflexivity.
Qed.

Lemma request_offline options (w : World) :
  isDestroyed w = false →
  onlineCheck env (onlineChecks w) = false →
  ∃ w1, store w1 = store w ∧ clock w1 = clock w ∧ fetches w1 = fetches w
        ∧ RequestLedger.request env config options w
          = (RequestLedger.persistRequest env config options ;;; ret None) w1.
Proof.
  intros Hd Hoff.
  unfold RequestLedger.request, RequestLedger.ensureNotDestroyed.
  unfold bind at 1. unfold bind at 1. unfold getWorld at 1.
  rewrite Hd. unfold ret at 1. unfold bind at 1.
  unfold ask_onlineCheck at 1. rewrite Hoff.
  eexists. split; [| split; [| split; [| reflexivity]]]; reflexivity.
Qed.

(** C5, as the code has it: when the connectivity check reports
    reachable and the immediate attempt fails with a network-classified
    error, [request] falls back to [persistRequest] and does not surface
    that error: with no entry under the id the new entry is put with status
    [pending] and the call returns; with an entry already under the id the
    put is rejected and a [PersistenceError] is thrown. When the attempt
    fails with another error, that error is thrown and nothing is put.
    When the check reports unreachable, [persistRequest] runs without any
    attempt. *)
Theorem request_persists_or_propagates options (w : World) :
  isDestroyed w = false →
  let outcome := RequestLedger.request env config options w in
  (onlineCheck env (onlineChecks w) = true →
   ∀ e, fetch env (fetches w) = FetchThrows e →
        (isNetworkError e = true →
           outcome.1 ≠ Throws e
           ∧ persist_outcome env config options w outcome)
        ∧ (isNetworkError e = false →
           outcome.1 = Throws e
           ∧ store outcome.2 = store w
           ∧ trace outcome.2
             = (trace w
                ++ [onlineCheck_called; fetch_called (opt_id options)])%list))
  ∧ (onlineCheck env (onlineChecks w) = false →
     fetches outcome.2 = fetches w
     ∧ persist_outcome env config options w outcome).
Proof.
  intros Hd outcome. subst outcome. split.
  - intros Hon e Hfetch. split; intros Hnet.
    + destruct (request_falls_back options w e Hd Hon Hfetch Hnet)
        as (w1 & Hs & Hc & ->).
      pose proof (persistRequest_outcome options w1) as [_ Hp].
      apply (persist_outcome_ext options w1 w) in Hp; [| done | done].
      split; [| exact Hp].
      unfold persist_outcome in Hp.
      destruct (store w !! opt_id options); destruct Hp as [Hp _];
        rewrite Hp; [| discriminate].
      intros [= <-]. discriminate.
    + unfold RequestLedger.request, RequestLedger.ensureNotDestroyed,
        RequestLedger.executeRequest.
      repeat (run_effects; rewrite ?Hd, ?Hon, ?Hfetch, ?Hnet).
      rewrite <- app_assoc. auto.
  - intros Hoff.
    destruct (request_offline options w Hd Hoff)
      as (w1 & Hs & Hc & Hf & ->).
    pose proof (persistRequest_outcome options w1) as [Hf' Hp].
    apply (persist_outcome_ext options w1 w) in Hp; [| done | done].
    split; [congruence | exact Hp].
Qed.
End FacadeProperties.


(** * The properties on the example data *)

Section OnExamples.
#[local] Existing Instance literal_JSON.

Lemma literal_serializable (v : literal) : json_serializable v.
Proof. by destruct v. Qed.

Lemma mixed_entries_readable : readable mixed_entries.
Proof.
  change (map_Forall
            (λ k r, is_Some (IndexedDBStorage.deserializeEntry (k, r)))
            mixed_entries).
  apply (bool_decide_unpack _). vm_compute. exact I.
Qed.

Lemma processEntry_transitions_witness :
  rejected_leaving
    (ReplayEngine.processEntry (constant_env true (Response 404))
       example_config (createEntry "test-1" 1000) (world_of three_entries))
    "test-1"
    (λ updated,
       rec_attemptCount updated = 1%Z
       ∧ rec_status updated = failed
       ∧ rec_error updated
         = Some {| message := "HTTP 404: Client error";
                   code := Some "404" |}).
Proof.
  refine (proj1 (processEntry_transitions
                   (constant_env true (Response 404)) example_config
                   (createEntry "test-1" 1000) (world_of three_entries)
                   (IndexedDBStorage.storedEntry (createEntry "test-1" 1000))
                   404 _ _) _).
  - vm_compute. reflexivity.
  - reflexivity.
  - reflexivity.
Defined.

Lemma recoverStaleEntries_resets_processing_witness :
  ∃ w',
    ReplayEngine.recoverStaleEntries (world_of mixed_entries)
    = (Returns tt, w')
    ∧ ∀ k r, store w' !! k = Some r → rec_status r ≠ processing.
Proof.
  destruct (recoverStaleEntries_resets_processing
              (constant_env true (Response 200)) example_config
              (world_of mixed_entries) mixed_entries_readable)
    as (w' & Hrun & _ & _ & _ & Hnone & _).
  exists w'. split; [exact Hrun | exact Hnone].
Defined.

Lemma update_error_field_witness :
  ∃ updated,
    IndexedDBStorage.update mixed_entries "test-3" retry_patch
    = Returns (<["test-3" := updated]> mixed_entries)
    ∧ rec_error updated = None.
Proof.
  destruct (update_error_field mixed_entries "test-3"
              (IndexedDBStorage.storedEntry
                 (attemptedEntry "test-3" 3000 failed 3
                    (Some {| message :=
                               "HTTP 500: Server error, max retries exceeded";
                             code := Some "500" |})))
              retry_patch)
    as (updated & Hrun & Hcleared & _).
  - vm_compute. reflexivity.
  - exists updated. split; [exact Hrun | by apply Hcleared].
Defined.

Lemma put_get_roundtrip_witness :
  ∃ store',
    IndexedDBStorage.put 10 three_entries
      (attemptedEntry "test-4" 4000 pending 0 None) = Returns store'
    ∧ IndexedDBStorage.get store' "test-4"
      = Returns (Some (attemptedEntry "test-4" 4000 pending 0 None)).
Proof.
  destruct (put_get_roundtrip 10 three_entries
              (attemptedEntry "test-4" 4000 pending 0 None))
    as (store' & Hput & Hget & Hroom).
  - vm_compute. reflexivity.
  - intros b _. apply literal_serializable.
  - intros m [= <-]. split; [reflexivity | apply literal_serializable].
  - exists store'. split; [exact Hput |]. apply Hget, Hroom.
    vm_compute. lia.
Defined.

(** C9 as stated fails: with capacity 3 and entries created at 1000, 2000
    and 3000, an entry created at 500 with a serializable body and no
    metadata is accepted by [put], which then evicts it as the oldest;
    [get] of its id returns nothing, not the entry. *)
Lemma put_roundtrip_lost_to_eviction :
  let entry := createEntry "test-4" 500 in
  three_entries !! id entry = None
  ∧ (∀ b, body (request entry) = Some b → json_serializable b)
  ∧ metadata entry = None
  ∧ IndexedDBStorage.put 3 three_entries entry = Returns three_entries
  ∧ IndexedDBStorage.get three_entries (id entry) = Returns None
  ∧ IndexedDBStorage.get three_entries (id entry) ≠ Returns (Some entry).
Proof.
  split; [vm_compute; reflexivity |].
  split; [intros b _; apply literal_serializable |].
  vm_compute. repeat split. discriminate.
Qed.

Lemma three_entries_older :
  ∀ k r, three_entries !! k = Some r → (rec_createdAt r < 4000)%Z.
Proof.
  change (map_Forall (λ _ r, (rec_createdAt r < 4000)%Z) three_entries).
  apply (bool_decide_unpack _). vm_compute. exact I.
Qed.

Lemma put_evicts_oldest_witness :
  ∃ store',
    IndexedDBStorage.put 3 three_entries (createEntry "test-4" 4000)
    = Returns store'
    ∧ size store' = 3%nat
    ∧ store' !! "test-4"
      = Some (IndexedDBStorage.storedEntry (createEntry "test-4" 4000)).
Proof.
  destruct (put_evicts_oldest 3 three_entries (createEntry "test-4" 4000))
    as (store' & Hput & Hsize & _ & _ & Hstays).
  - vm_compute. reflexivity.
  - vm_compute. lia.
  - exists store'. split; [exact Hput |]. split; [exact Hsize |].
    apply Hstays; [lia | exact three_entries_older].
Defined.

(** The eviction test of [tests/storage.test.ts]: with capacity 3 and
    entries created at 1000, 2000 and 3000, putting an entry created at
    4000 leaves test-2, test-3 and test-4. *)
Example eviction_test :
  ∃ store' all,
    IndexedDBStorage.put 3 three_entries (createEntry "test-4" 4000)
    = Returns store'
    ∧ IndexedDBStorage.getAll store' = Returns all
    ∧ map id all = ["test-2"; "test-3"; "test-4"].
Proof. eexists _, _. vm_compute. repeat split. Qed.

(** C4 as stated fails: with capacity 3 and entries created at 1000, 2000
    and 3000, an entry created at 500 is the first of the ['createdAt']
    index once it is added, so it is the entry that [put] evicts; the put
    succeeds and the store is what it was. *)
Lemma put_evicts_inserted_entry :
  three_entries !! "test-4" = None
  ∧ (3 < size three_entries + 1)%nat
  ∧ IndexedDBStorage.put 3 three_entries (createEntry "test-4" 500)
    = Returns three_entries
  ∧ IndexedDBStorage.get three_entries "test-4" = Returns None.
Proof. vm_compute. repeat split; lia. Qed.

(** The same happens among entries created in the same millisecond, where
    the index falls back on the id: the entry with the smallest id goes,
    here the one being inserted. *)
Example eviction_on_tie_drops_inserted :
  let stored :=
    puts 3 [createEntry "test-1" 1000; createEntry "test-2" 1000;
            createEntry "test-3" 1000] in
  IndexedDBStorage.put 3 stored (createEntry "test-0" 1000) = Returns stored.
Proof. vm_compute. reflexivity. Qed.

(** The entry that [mixed_entries] holds as [failed]. *)
Lemma get_failed_entry :
  IndexedDBStorage.get mixed_entries "test-3"
  = Returns (Some (attemptedEntry "test-3" 3000 failed 3
                     (Some {| message :=
                                "HTTP 500: Server error, max retries exceeded";
                              code := Some "500" |}))).
Proof. vm_compute. reflexivity. Qed.

Lemma retry_requires_failed_witness :
  (RequestLedger.retry "test-3" (world_of mixed_entries)).1 = Returns tt
  ∧ IndexedDBStorage.get
      (store (RequestLedger.retry "test-3" (world_of mixed_entries)).2)
      "test-3"
    = Returns (Some (attemptedEntry "test-3" 3000 pending 3 None)).
Proof.
  exact (proj1 (proj2 (retry_requires_failed (world_of mixed_entries)
                         "test-3" eq_refl))
           _ get_failed_entry eq_refl).
Defined.

Lemma retry_keeps_budget_witness :
  ∃ w',
    RequestLedger.retry "test-3" (world_of mixed_entries) = (Returns tt, w')
    ∧ rejected_leaving
        (ReplayEngine.processEntry (constant_env true (Response 503))
           example_config (attemptedEntry "test-3" 3000 pending 3 None) w')
        "test-3"
        (λ updated,
           rec_status updated = failed ∧ is_Some (rec_error updated)
           ∧ rec_attemptCount updated = 4%Z).
Proof.
  destruct (retry_keeps_budget (constant_env true (Response 503))
              example_config (world_of mixed_entries) "test-3" _
              eq_refl get_failed_entry eq_refl)
    as (w' & r & r' & Hrun & _ & _ & _ & _ & _ & _ & _ & _ & _ & _ & _
        & Hagain).
  exists w'. split; [exact Hrun |]. apply Hagain.
  - cbn. lia.
  - reflexivity.
Defined.

Lemma request_persists_or_propagates_witness :
  let env := constant_env false (Response 200) in
  let w := world_of mixed_entries in
  let outcome :=
    RequestLedger.request env example_config (example_options "test-9") w in
  fetches outcome.2 = fetches w
  ∧ persist_outcome env example_config (example_options "test-9") w outcome.
Proof.
  exact (proj2 (request_persists_or_propagates
                  (constant_env false (Response 200)) example_config
                  (example_options "test-9") (world_of mixed_entries)
                  eq_refl)
           eq_refl).
Defined.

(** C5 as stated fails: the ledger is reachable and the attempt fails
    with a network-classified error, but an entry with the id of the
    request is already stored (as [failed]); [put] rejects the duplicate,
    [request] throws a [PersistenceError], and the store holds no [pending]
    entry for the request. *)
Lemma request_duplicate_id_not_persisted :
  let env := constant_env true (FetchThrows (TypeError "Failed to fetch")) in
  let w := world_of mixed_entries in
  let outcome :=
    RequestLedger.request env example_config (example_options "test-3") w in
  isDestroyed w = false
  ∧ onlineCheck env (onlineChecks w) = true
  ∧ fetch env (fetches w) = FetchThrows (TypeError "Failed to fetch")
  ∧ isNetworkError (TypeError "Failed to fetch") = true
  ∧ outcome.1
    = Throws (PersistenceError "Failed to persist request to ledger"
                (Some (DuplicateEntryError "test-3")))
  ∧ store outcome.2 = mixed_entries
  ∧ rec_status <$> store outcome.2 !! "test-3" = Some failed.
Proof. vm_compute. repeat split. Qed.
End OnExamples.


(** * Further properties *)

(** ** Retry policy and failure classification *)

(** X1: under a fixed or exponential strategy [calculateBackoffDelay]
    gives a delay exactly when [canRetry] allows another attempt; under the
    manual strategy it never gives one although [canRetry] always says
    yes. *)
Theorem calculateBackoffDelay_canRetry strategy n :
  match strategy with
  | manual =>
      calculateBackoffDelay strategy n = None ∧ canRetry strategy n = true
  | _ =>
      is_Some (calculateBackoffDelay strategy n) ↔ canRetry strategy n = true
  end.
Proof.
  destruct strategy as [d m | b M m |]; cbn; [| | done].
  - destruct (Z.geb_spec n m), (Z.ltb_spec n m); try lia;
      split; (done || eauto); by intros [].
  - destruct (Z.geb_spec n m), (Z.ltb_spec n m); try lia;
      split; (done || eauto); by intros [].
Qed.

(** X2: with a positive [baseMs], an exponential delay never exceeds
    [maxMs] and does not shrink from one attempt to the next. *)
Theorem exponential_delay_bounded baseMs maxMs maxAttempts n m d d' :
  (0 < baseMs)%Z → (1 ≤ n ≤ m)%Z →
  calculateBackoffDelay (exponential baseMs maxMs maxAttempts) n = Some d →
  calculateBackoffDelay (exponential baseMs maxMs maxAttempts) m = Some d' →
  (d ≤ d' ≤ maxMs)%Z.
Proof.
  intros Hb Hnm. cbn.
  destruct (n >=? maxAttempts)%Z; [done |].
  destruct (m >=? maxAttempts)%Z; [done |].
  intros [= <-] [= <-].
  assert (2 ^ (n - 1) ≤ 2 ^ (m - 1))%Z
    by (apply Z.pow_le_mono_r; lia).
  split; [| lia].
  apply Z.min_le_compat_r. apply Z.mul_le_mono_nonneg_l; lia.
Qed.

Lemma toLowerCase_idempotent s : toLowerCase (toLowerCase s) = toLowerCase s.
Proof.
  induction s as [| c s IH]; [reflexivity |]. cbn. rewrite IH. f_equal.
  destruct c as [[] [] [] [] [] [] [] []]; reflexivity.
Qed.

(** X3: [isNetworkError] accepts only a [TypeError] or a [DOMException]
    named [AbortError]; every error class of the ledger itself, [NetworkError]
    included, is classified as not a network error. For a [TypeError] the
    answer does not depend on the case of the ASCII letters of the
    message. *)
Theorem isNetworkError_classes e :
  (isNetworkError e = true →
     (∃ msg, e = TypeError msg) ∨ (∃ msg, e = DOMException "AbortError" msg))
  ∧ (∀ msg, e = TypeError msg →
            isNetworkError e = isNetworkError (TypeError (toLowerCase msg)))
  ∧ (∀ msg cause, e = NetworkError msg cause ∨ e = PersistenceError msg cause
                  → isNetworkError e = false).
Proof.
  split; [| split].
  - destruct e; try discriminate; [eauto |].
    cbn. intros Hn%String.eqb_eq. subst. eauto.
  - intros msg ->. cbn. by rewrite toLowerCase_idempotent.
  - by intros msg cause [-> | ->].
Qed.

(** ** The order of the ['createdAt'] index *)

Lemma String_leb_trans a b c :
  String.leb a b = true → String.leb b c = true → String.leb a c = true.
Proof.
  unfold String.leb. revert b c.
  induction a as [| x a IH]; intros [| y b] [| z c]; cbn; try done.
  unfold Ascii.compare.
  destruct (N.compare_spec (N_of_ascii x) (N_of_ascii y)) as [Hxy | Hxy | Hxy];
    destruct (N.compare_spec (N_of_ascii y) (N_of_ascii z))
      as [Hyz | Hyz | Hyz];
    destruct (N.compare_spec (N_of_ascii x) (N_of_ascii z))
      as [Hxz | Hxz | Hxz];
    try done; try lia; eauto.
Qed.

#[local] Instance index_le_trans : Transitive IndexedDBStorage.index_le.
Proof.
  intros [k1 r1] [k2 r2] [k3 r3]. unfold IndexedDBStorage.index_le. cbn.
  intros [H12 | [H12 L12]] [H23 | [H23 L23]];
    [left; lia | left; lia | left; lia |].
  right. split; [lia |]. by eapply String_leb_trans.
Qed.

Lemma createdAt_index_Sorted (store : gmap string StoredRecord) :
  Sorted IndexedDBStorage.index_le (IndexedDBStorage.createdAt_index store).
Proof. apply (Sorted_merge_sort _). Qed.

(** The index is the only sorted listing of the records. *)
Lemma createdAt_index_unique (store : gmap string StoredRecord) l :
  Sorted IndexedDBStorage.index_le l →
  l ≡ₚ map_to_list store →
  l = IndexedDBStorage.createdAt_index store.
Proof.
  intros Hsorted Hperm.
  apply (Sorted_unique_strong IndexedDBStorage.index_le);
    [| exact Hsorted | apply createdAt_index_Sorted
     | by rewrite createdAt_index_Permutation].
  intros [k1 r1] [k2 r2] H1 H2 Hle Hge.
  rewrite Hperm in H1. apply elem_of_map_to_list in H1.
  apply elem_of_createdAt_index in H2.
  assert (k1 = k2).
  { destruct Hle as [Hlt | [Heq Hl]], Hge as [Hgt | [Heq' Hg]];
      cbn in *; try lia. by apply String.leb_antisym. }
  subst. congruence.
Qed.

Lemma StronglySorted_filter {A} (R : relation A) (P : A → Prop)
    `{∀ x, Decision (P x)} l :
  StronglySorted R l → StronglySorted R (filter P l).
Proof.
  induction 1 as [| x l _ IH Hall]; [constructor |].
  rewrite filter_cons. destruct (decide (P x)); [| exact IH].
  constructor; [exact IH |].
  apply Forall_forall. intros y Hy%list_elem_of_filter.
  rewrite Forall_forall in Hall. apply Hall, Hy.
Qed.

Lemma createdAt_index_delete (store : gmap string StoredRecord) k :
  IndexedDBStorage.createdAt_index (delete k store)
  = filter (λ p, p.1 ≠ k) (IndexedDBStorage.createdAt_index store).
Proof.
  symmetry. apply createdAt_index_unique.
  - apply StronglySorted_Sorted, StronglySorted_filter.
    apply Sorted_StronglySorted; [apply _ | apply createdAt_index_Sorted].
  - apply NoDup_Permutation.
    + apply NoDup_filter. eapply NoDup_fmap_1, NoDup_createdAt_index.
    + apply NoDup_map_to_list.
    + intros [k' r]. rewrite list_elem_of_filter, elem_of_createdAt_index,
        elem_of_map_to_list, lookup_delete_Some. cbn.
      split; intros [? ?]; split; congruence.
Qed.

(** Replacing a record by one of the same age leaves every record at its
    place in the index. *)
Lemma createdAt_index_insert_same (store : gmap string StoredRecord) k r r' :
  store !! k = Some r →
  rec_createdAt r' = rec_createdAt r →
  IndexedDBStorage.createdAt_index (<[k := r']> store)
  = (λ p, if decide (p.1 = k) then (k, r') else p)
      <$> IndexedDBStorage.createdAt_index store.
Proof.
  intros Hk Hage. symmetry. apply createdAt_index_unique.
  - assert (Hsorted := createdAt_index_Sorted store).
    assert (Hin : ∀ p, p ∈ IndexedDBStorage.createdAt_index store →
                       store !! p.1 = Some p.2).
    { intros [k' r0]. apply elem_of_createdAt_index. }
    induction Hsorted as [| x l _ IH Hhd]; [constructor |].
    rewrite fmap_cons. constructor.
    { apply IH. intros p Hp. apply Hin. by right. }
    destruct Hhd as [| y l Hxy]; [constructor |].
    rewrite fmap_cons. constructor.
    assert (Hx := Hin x ltac:(left)).
    assert (Hy := Hin y ltac:(right; left)).
    unfold IndexedDBStorage.index_le in *.
    repeat case_decide; cbn; subst; try done;
      rewrite ?Hage; congruence.
  - apply NoDup_Permutation.
    + eapply NoDup_fmap_1 with (f := fst).
      rewrite <- list_fmap_compose.
      erewrite list_fmap_ext; [apply NoDup_createdAt_index |].
      intros i p _. cbn. by case_decide.
    + apply NoDup_map_to_list.
    + intros [k' r0]. rewrite list_elem_of_fmap, elem_of_map_to_list.
      split.
      * intros ([k0 r1] & Heq & Hin%elem_of_createdAt_index).
        cbn in Heq. case_decide; simplify_eq.
        -- apply lookup_insert_eq.
        -- by rewrite lookup_insert_ne.
      * destruct (decide (k' = k)) as [-> | Hne].
        -- rewrite lookup_insert_eq. intros [= <-]. exists (k, r).
           split; [cbn; by rewrite decide_True |].
           by apply elem_of_createdAt_index.
        -- rewrite lookup_insert_ne by done. intros Hk'. exists (k', r0).
           split; [cbn; by rewrite decide_False |].
           by apply elem_of_createdAt_index.
Qed.

(** ** The store operations together *)

Section StoreProperties.
Context `{JSON}.

Lemma deserializeEntry_createdAt k r entry :
  IndexedDBStorage.deserializeEntry (k, r) = Some entry →
  createdAt entry = rec_createdAt r.
Proof.
  unfold IndexedDBStorage.deserializeEntry. cbn [fst snd].
  destruct (IndexedDBStorage.parse_if_truthy _); [| discriminate].
  destruct (IndexedDBStorage.parse_if_truthy _); [| discriminate].
  by intros [= <-].
Qed.

(** X4: on a store whose records deserialize, [getAll] lists every entry
    once, in ascending [createdAt] order, and each listed entry is the one
    [get] returns for its id. *)
Theorem getAll_sorted_complete (store : gmap string StoredRecord) :
  readable store →
  ∃ entries,
    IndexedDBStorage.getAll store = Returns entries
    ∧ length entries = IndexedDBStorage.count store
    ∧ NoDup (id <$> entries)
    ∧ (∀ k, k ∈ id <$> entries ↔ is_Some (store !! k))
    ∧ (∀ entry, entry ∈ entries →
                IndexedDBStorage.get store (id entry) = Returns (Some entry))
    ∧ StronglySorted (λ a b, (createdAt a ≤ createdAt b)%Z) entries.
Proof.
  intros Hread.
  destruct (getAll_readable _ Hread) as (entries & Hall & Hdes).
  exists entries. split; [exact Hall |].
  assert (Hids : id <$> entries
                 = (IndexedDBStorage.createdAt_index store).*1).
  { clear Hall. induction Hdes as [| [k r] e ps es Hd _ IH]; [done |].
    rewrite !fmap_cons, IH. f_equal.
    by apply deserializeEntry_fields in Hd as (-> & _). }
  split.
  { unfold IndexedDBStorage.count.
    rewrite <- (length_createdAt_index store).
    symmetry. by eapply Forall2_length. }
  split; [rewrite Hids; apply NoDup_createdAt_index |].
  split.
  { intros k. rewrite Hids, list_elem_of_fmap. split.
    - intros ([k' r] & -> & Hin%elem_of_createdAt_index). eauto.
    - intros [r Hr]. exists (k, r).
      split; [done | by apply elem_of_createdAt_index]. }
  split.
  { intros entry Hin.
    destruct (proj1 (list_elem_of_lookup _ _) Hin) as [i Hi].
    destruct (Forall2_lookup_r _ _ _ _ _ Hdes Hi) as ([k r] & Hp & Hd).
    pose proof (deserializeEntry_fields _ _ _ Hd) as (Hid & _).
    apply list_elem_of_lookup_2, elem_of_createdAt_index in Hp.
    unfold IndexedDBStorage.get. rewrite Hid, Hp. by rewrite Hd. }
  pose proof (createdAt_index_sorted store) as Hsorted.
  clear Hall Hids. induction Hdes as [| [k r] e ps es Hd Hrest IH];
    [constructor |].
  apply StronglySorted_inv in Hsorted as [Htail Hhead].
  constructor; [by apply IH |].
  apply Forall_forall. intros e' Hin.
  destruct (proj1 (list_elem_of_lookup _ _) Hin) as [i Hi].
  destruct (Forall2_lookup_r _ _ _ _ _ Hrest Hi) as ([k' r'] & Hp & Hd').
  rewrite Forall_forall in Hhead.
  specialize (Hhead _ (list_elem_of_lookup_2 _ _ _ Hp)).
  unfold not_newer in Hhead. cbn in Hhead.
  by rewrite (deserializeEntry_createdAt _ _ _ Hd),
    (deserializeEntry_createdAt _ _ _ Hd').
Qed.

Lemma evictIfNeeded_size maxEntries (store : gmap string StoredRecord) :
  size (IndexedDBStorage.evictIfNeeded maxEntries store)
  = (size store `min` maxEntries)%nat.
Proof.
  unfold IndexedDBStorage.evictIfNeeded.
  destruct (decide _) as [Hle | Hgt]; [lia |].
  rewrite evict_cursor_size.
  - rewrite length_createdAt_index. lia.
  - apply NoDup_createdAt_index.
  - intros k Hk. apply list_elem_of_fmap in Hk as ([k' r] & -> & Hk).
    apply elem_of_createdAt_index in Hk. eauto.
Qed.

(** X5: a [put] of a new id leaves [min (count + 1) maxEntries] entries,
    so never more than [maxEntries], whatever the store held before; what
    remains is the new record or a record that was there, unchanged. *)
Theorem put_within_capacity maxEntries (store : gmap string StoredRecord)
    entry :
  store !! id entry = None →
  ∃ store',
    IndexedDBStorage.put maxEntries store entry = Returns store'
    ∧ IndexedDBStorage.count store'
      = (S (IndexedDBStorage.count store) `min` maxEntries)%nat
    ∧ (IndexedDBStorage.count store' ≤ maxEntries)%nat
    ∧ (∀ k r, store' !! k = Some r →
              if decide (k = id entry)
              then r = IndexedDBStorage.storedEntry entry
              else store !! k = Some r).
Proof.
  intros Hfresh. unfold IndexedDBStorage.put, IndexedDBStorage.count.
  rewrite Hfresh. eexists. split; [reflexivity |].
  rewrite evictIfNeeded_size, map_size_insert_None by exact Hfresh.
  split; [reflexivity |]. split; [lia |].
  intros k r Hk.
  pose proof (lookup_weaken _ _ _ _ Hk (evictIfNeeded_subseteq _ _)) as Hk'.
  destruct (decide (k = id entry)) as [-> | Hne].
  - rewrite lookup_insert_eq in Hk'. congruence.
  - by rewrite lookup_insert_ne in Hk'.
Qed.

(** X6: once an entry is stored, a second [put] with its id is rejected
    with [DuplicateEntryError] and the stored entry stays as it was. *)
Theorem put_twice_rejected config entry entry' (w : World) :
  store w !! id entry = None →
  (size (store w) < maxEntries config)%nat →
  id entry' = id entry →
  ∃ w1 w2,
    storage_put config entry w = (Returns tt, w1)
    ∧ store w1 !! id entry = Some (IndexedDBStorage.storedEntry entry)
    ∧ storage_put config entry' w1
      = (Throws (DuplicateEntryError (id entry)), w2)
    ∧ store w2 = store w1.
Proof.
  intros Hfresh Hroom Hid.
  assert (Hstored :
    IndexedDBStorage.evictIfNeeded (maxEntries config)
      (<[id entry := IndexedDBStorage.storedEntry entry]> (store w))
    !! id entry = Some (IndexedDBStorage.storedEntry entry)).
  { rewrite evictIfNeeded_room; [apply lookup_insert_eq |].
    rewrite map_size_insert_None by exact Hfresh. lia. }
  exists (with_store (logged (storage_put_called entry) w)
            (IndexedDBStorage.evictIfNeeded (maxEntries config)
               (<[id entry := IndexedDBStorage.storedEntry entry]>
                  (store w)))).
  eexists. split; [| split; [exact Hstored |]].
  - unfold storage_put, IndexedDBStorage.put.
    run_effects. by rewrite Hfresh.
  - unfold storage_put, IndexedDBStorage.put.
    run_effects. rewrite Hid, Hstored. split; reflexivity.
Qed.

Lemma deserializeEntry_merge_patch k r entry patch :
  IndexedDBStorage.deserializeEntry (k, r) = Some entry →
  IndexedDBStorage.deserializeEntry
    (k, IndexedDBStorage.merge_patch r patch)
  = Some (patched entry patch).
Proof.
  unfold IndexedDBStorage.deserializeEntry, IndexedDBStorage.merge_patch.
  destruct patch as [[] [] [] []]; cbn;
    (destruct (IndexedDBStorage.parse_if_truthy _); [| discriminate]);
    (destruct (IndexedDBStorage.parse_if_truthy _); [| discriminate]);
    by intros [= <-].
Qed.

Lemma merge_patch_createdAt r patch :
  rec_createdAt (IndexedDBStorage.merge_patch r patch) = rec_createdAt r.
Proof. by destruct patch as [[] [] [] []]. Qed.

(** X7: [update] of a missing id throws [EntryNotFoundError]; on an
    existing entry it returns, [get] then gives that entry with the
    patched properties and every other property as before, no other entry
    is touched and the count stays. *)
Theorem update_get (store : gmap string StoredRecord) id0 patch :
  (IndexedDBStorage.get store id0 = Returns None →
   IndexedDBStorage.update store id0 patch
   = Throws (EntryNotFoundError id0))
  ∧ (∀ entry,
       IndexedDBStorage.get store id0 = Returns (Some entry) →
       ∃ store',
         IndexedDBStorage.update store id0 patch = Returns store'
         ∧ IndexedDBStorage.get store' id0
           = Returns (Some (patched entry patch))
         ∧ (∀ k, k ≠ id0 →
                 IndexedDBStorage.get store' k = IndexedDBStorage.get store k)
         ∧ IndexedDBStorage.count store' = IndexedDBStorage.count store).
Proof.
  unfold IndexedDBStorage.update, IndexedDBStorage.get,
    IndexedDBStorage.count.
  split.
  - destruct (store !! id0) as [r |]; [| done].
    by destruct (IndexedDBStorage.deserializeEntry _).
  - intros entry Hget.
    destruct (store !! id0) as [r |] eqn:Hr; [| done].
    destruct (IndexedDBStorage.deserializeEntry (id0, r)) eqn:Hdes;
      [| done].
    injection Hget as ->.
    eexists. split; [reflexivity |]. rewrite lookup_insert_eq.
    rewrite (deserializeEntry_merge_patch _ _ _ _ Hdes).
    split; [reflexivity |]. split.
    + intros k Hne. by rewrite lookup_insert_ne.
    + apply map_size_insert_Some. eauto.
Qed.

Lemma Forall2_deserialize_patched ps entries k r patch :
  (∀ r0, (k, r0) ∈ ps → r0 = r) →
  Forall2 (λ p e, IndexedDBStorage.deserializeEntry p = Some e) ps entries →
  Forall2 (λ p e, IndexedDBStorage.deserializeEntry p = Some e)
    ((λ p, if decide (p.1 = k)
           then (k, IndexedDBStorage.merge_patch r patch) else p) <$> ps)
    ((λ e, if decide (id e = k) then patched e patch else e) <$> entries).
Proof.
  intros Hk Hall. induction Hall as [| [k0 r0] e ps es Hd _ IH];
    [constructor |].
  rewrite !fmap_cons. constructor.
  - pose proof (deserializeEntry_fields _ _ _ Hd) as (Hid & _).
    cbn [fst]. rewrite Hid. destruct (decide (k0 = k)) as [-> | Hne].
    + rewrite <- (Hk r0) by left.
      by apply deserializeEntry_merge_patch.
    + exact Hd.
  - apply IH. intros r1 Hin. apply Hk. by right.
Qed.

(** X8: [update] keeps the order of [getAll]: the listing after the
    update is the listing before it with the patched entry at the same
    place. *)
Theorem update_keeps_order (store : gmap string StoredRecord) id0 patch
    store' :
  readable store →
  IndexedDBStorage.update store id0 patch = Returns store' →
  ∃ entries,
    IndexedDBStorage.getAll store = Returns entries
    ∧ IndexedDBStorage.getAll store'
      = Returns ((λ e, if decide (id e = id0) then patched e patch else e)
                   <$> entries).
Proof.
  intros Hread. unfold IndexedDBStorage.update.
  destruct (store !! id0) as [r |] eqn:Hr; [| done]. intros [= <-].
  destruct (getAll_readable _ Hread) as (entries & Hall & Hdes).
  exists entries. split; [exact Hall |].
  unfold IndexedDBStorage.getAll.
  rewrite (createdAt_index_insert_same store id0 r) by
    (exact Hr || apply merge_patch_createdAt).
  apply (Forall2_deserialize_patched _ _ id0 r patch) in Hdes.
  - apply mapM_Some in Hdes. by rewrite Hdes.
  - intros r0 Hin%elem_of_createdAt_index. congruence.
Qed.

Lemma Forall2_deserialize_filter ps entries k :
  Forall2 (λ p e, IndexedDBStorage.deserializeEntry p = Some e) ps entries →
  Forall2 (λ p e, IndexedDBStorage.deserializeEntry p = Some e)
    (filter (λ p, p.1 ≠ k) ps) (filter (λ e, id e ≠ k) entries).
Proof.
  induction 1 as [| [k0 r0] e ps es Hd _ IH]; [constructor |].
  pose proof (deserializeEntry_fields _ _ _ Hd) as (Hid & _).
  rewrite !filter_cons. cbn [fst]. rewrite Hid.
  destruct (decide (k0 ≠ k)); [by constructor | exact IH].
Qed.

(** X9: [remove] never fails; afterwards [get] finds nothing under the
    id and [getAll] lists the other entries in the order they had.
    Removing an id that is not stored changes nothing. *)
Theorem remove_get (store : gmap string StoredRecord) id0 :
  readable store →
  ∃ entries,
    IndexedDBStorage.getAll store = Returns entries
    ∧ IndexedDBStorage.get (IndexedDBStorage.remove store id0) id0
      = Returns None
    ∧ IndexedDBStorage.getAll (IndexedDBStorage.remove store id0)
      = Returns (filter (λ e, id e ≠ id0) entries)
    ∧ (IndexedDBStorage.get store id0 = Returns None →
       IndexedDBStorage.remove store id0 = store).
Proof.
  intros Hread.
  destruct (getAll_readable _ Hread) as (entries & Hall & Hdes).
  exists entries. split; [exact Hall |].
  unfold IndexedDBStorage.remove, IndexedDBStorage.get.
  rewrite lookup_delete_eq. split; [reflexivity |]. split.
  - unfold IndexedDBStorage.getAll. rewrite createdAt_index_delete.
    apply (Forall2_deserialize_filter _ _ id0), mapM_Some in Hdes.
    by rewrite Hdes.
  - destruct (store !! id0) as [r |] eqn:Hr.
    + by destruct (IndexedDBStorage.deserializeEntry _).
    + intros _. by apply delete_id.
Qed.
End StoreProperties.

(** ** One attempt *)

Section AttemptProperties.
Context `{JSON}.
Variable env : Env.
Variable config : Config.

(** X10: whatever [fetch] answers, [processEntry] touches nothing but the
    record of its entry: the flags of the engine and every other record
    are as before. Without a record under the id it throws
    [EntryNotFoundError] before any [fetch]. With one, it calls [fetch] once,
    and the record keeps its request, creation time, idempotency key and
    metadata, has the attempt count of the entry plus one and the time of
    the attempt as [lastAttemptAt]. *)
Theorem processEntry_touches_one_record entry (w : World) :
  let result := ReplayEngine.processEntry env config entry w in
  engine result.2 = engine w
  ∧ (∀ k, k ≠ id entry → store result.2 !! k = store w !! k)
  ∧ match store w !! id entry with
    | None =>
        result.1 = Throws (EntryNotFoundError (id entry))
        ∧ store result.2 = store w
        ∧ fetches result.2 = fetches w
    | Some existing =>
        fetches result.2 = S (fetches w)
        ∧ ∃ updated,
            store result.2 !! id entry = Some updated
            ∧ rec_request updated = rec_request existing
            ∧ rec_createdAt updated = rec_createdAt existing
            ∧ rec_idempotencyKey updated = rec_idempotencyKey existing
            ∧ rec_metadata updated = rec_metadata existing
            ∧ rec_attemptCount updated = (attemptCount entry + 1)%Z
            ∧ rec_lastAttemptAt updated = Some (Date_now env (clock w))
    end.
Proof.
  cbn zeta. unfold ReplayEngine.processEntry.
  destruct (store w !! id entry) as [existing |] eqn:Hex.
  2:{ run_effects. rewrite Hex. run_effects. by repeat split. }
  destruct (fetch env (fetches w)) as [status | e] eqn:Hfetch.
  - destruct (isClientError status) eqn:Hc;
      [| destruct (isRetryableStatusCode status) eqn:Hr;
         [destruct (ReplayEngine.canRetryEntry config entry) eqn:Hb;
          [destruct (calculateBackoffDelay (retry config)
                       (attemptCount entry + 1)) eqn:Hd |] |]].
    all: repeat (run_effects;
                 rewrite ?Hex, ?Hfetch, ?Hc, ?Hr, ?Hb, ?Hd,
                   ?lookup_insert_eq).
    all: (split; [done |]; split;
          [intros k Hne; by rewrite ?lookup_insert_ne by done |];
          split; [done |]; eexists; split; [reflexivity |];
          by destruct existing).
  - destruct (isNetworkError e) eqn:Hn;
      [destruct (ReplayEngine.canRetryEntry config entry) eqn:Hb;
       [destruct (calculateBackoffDelay (retry config)
                    (attemptCount entry + 1)) eqn:Hd |] |].
    all: repeat (run_effects;
                 rewrite ?Hex, ?Hfetch, ?Hn, ?Hb, ?Hd, ?lookup_insert_eq).
    all: (split; [done |]; split;
          [intros k Hne; by rewrite ?lookup_insert_ne by done |];
          split; [done |]; eexists; split; [reflexivity |];
          by destruct existing).
Qed.

(** X11: a response whose status lies outside 400..599 (a redirect or an
    informational status as much as a 2xx) is a success: [processEntry]
    returns, fires [onReplaySuccess], and leaves the record in [processing]
    with its error as it was; it does not remove it. *)
Theorem processEntry_success entry (w : World) existing status :
  store w !! id entry = Some existing →
  fetch env (fetches w) = Response status →
  (status < 400 ∨ 600 ≤ status)%Z →
  ∃ w' updated,
    ReplayEngine.processEntry env config entry w = (Returns tt, w')
    ∧ store w' !! id entry = Some updated
    ∧ rec_status updated = processing
    ∧ rec_error updated = rec_error existing
    ∧ trace w'
      = (trace w ++ attempt_opening env entry w
         ++ [onReplaySuccess entry status])%list.
Proof.
  intros Hex Hfetch Hstatus.
  assert (Hc : isClientError status = false)
    by (unfold isClientError; lia).
  assert (Hr : isRetryableStatusCode status = false)
    by (unfold isRetryableStatusCode; lia).
  unfold ReplayEngine.processEntry, attempt_opening.
  repeat (run_effects;
          rewrite ?Hex, ?Hfetch, ?Hc, ?Hr, ?lookup_insert_eq).
  eexists _, _. split; [reflexivity |]. cbn [store trace].
  rewrite lookup_insert_eq. split; [reflexivity |].
  split; [done |]. split; [by destruct existing |].
  by rewrite <- !app_assoc.
Qed.

(** X12: what [fetch] throws is what [processEntry] throws, unchanged.
    After a network error the record is [pending] again while the budget
    lasts and otherwise [failed] with the code [NETWORK_ERROR]; after any
    other exception nothing is recorded and the record stays in
    [processing]. *)
Theorem processEntry_rethrows entry (w : World) existing e :
  store w !! id entry = Some existing →
  fetch env (fetches w) = FetchThrows e →
  ∃ w' updated,
    ReplayEngine.processEntry env config entry w = (Throws e, w')
    ∧ store w' !! id entry = Some updated
    ∧ rec_status updated
      = (if isNetworkError e
         then if ReplayEngine.canRetryEntry config entry
              then pending else failed
         else processing)
    ∧ rec_error updated
      = (if isNetworkError e && negb (ReplayEngine.canRetryEntry config entry)
         then Some {| message := "Network error, max retries exceeded";
                      code := Some "NETWORK_ERROR" |}
         else rec_error existing).
Proof.
  intros Hex Hfetch. unfold ReplayEngine.processEntry.
  destruct (isNetworkError e) eqn:Hn;
    [destruct (ReplayEngine.canRetryEntry config entry) eqn:Hb;
     [destruct (calculateBackoffDelay (retry config)
                  (attemptCount entry + 1)) eqn:Hd |] |].
  all: repeat (run_effects;
               rewrite ?Hex, ?Hfetch, ?Hn, ?Hb, ?Hd, ?lookup_insert_eq).
  all: eexists _, _; split; [reflexivity |]; cbn [store];
    rewrite ?lookup_insert_eq; split; [reflexivity |];
    by destruct existing.
Qed.

Lemma canRetryEntry_delay entry :
  ReplayEngine.canRetryEntry config entry = true →
  is_Some (calculateBackoffDelay (retry config) (attemptCount entry + 1)).
Proof.
  unfold ReplayEngine.canRetryEntry, calculateBackoffDelay.
  destruct (retry config) as [d m | b M m |]; [| | done];
    intros Hlt%Z.ltb_lt;
    (destruct (Z.geb_spec (attemptCount entry + 1) m); [lia | eauto]).
Qed.

(** X13: whenever [processEntry] re-arms an entry it also sleeps: in
    that branch [calculateBackoffDelay] for the new attempt count is never
    [null], and the sleep comes after the record is [pending] again. *)
Theorem rearm_sleeps entry (w : World) existing :
  store w !! id entry = Some existing →
  retryable_outcome (fetch env (fetches w)) = true →
  ReplayEngine.canRetryEntry config entry = true →
  ∃ backoffDelay updated,
    calculateBackoffDelay (retry config) (attemptCount entry + 1)
    = Some backoffDelay
    ∧ store (ReplayEngine.processEntry env config entry w).2 !! id entry
      = Some updated
    ∧ rec_status updated = pending
    ∧ trace (ReplayEngine.processEntry env config entry w).2
      = (trace w ++ attempt_opening env entry w
         ++ [storage_update_called (id entry)
               (ReplayEngine.status_patch pending);
             delay_called backoffDelay])%list.
Proof.
  intros Hex Hout Hb.
  destruct (canRetryEntry_delay entry Hb) as [d Hd]. exists d.
  unfold ReplayEngine.processEntry, attempt_opening.
  destruct (fetch env (fetches w)) as [status | e] eqn:Hfetch;
    cbn in Hout.
  - apply andb_true_iff in Hout as [Hc%negb_true_iff Hr].
    repeat (run_effects;
            rewrite ?Hex, ?Hfetch, ?Hc, ?Hr, ?Hb, ?Hd, ?lookup_insert_eq).
    eexists. split; [reflexivity |]. split; [reflexivity |].
    split; [by destruct existing |]. by rewrite <- !app_assoc.
  - repeat (run_effects;
            rewrite ?Hex, ?Hfetch, ?Hout, ?Hb, ?Hd, ?lookup_insert_eq).
    eexists. split; [reflexivity |]. split; [reflexivity |].
    split; [by destruct existing |]. by rewrite <- !app_assoc.
Qed.
End AttemptProperties.

(** ** What the effects leave alone *)

Section Preservation.
Context `{JSON} {X : Type}.
Variable proj : World → X.
Hypothesis proj_logged : ∀ ev w, proj (logged ev w) = proj w.
Hypothesis proj_with_store : ∀ w s, proj (with_store w s) = proj w.
Hypothesis proj_counters :
  ∀ w a b c,
    proj {| store := store w; engine := engine w;
            isDestroyed := isDestroyed w; onlineChecks := a; fetches := b;
            clock := c; trace := trace w |} = proj w.

Hypothesis proj_lastError :
  ∀ w e,
    proj (with_engine w (ReplayEngine.set_lastError (engine w) e)) = proj w.

Lemma preserves_ret {A} (a : A) : preserves proj (ret a).
Proof. by intros w. Qed.

Lemma preserves_throw {A} e : preserves proj (throw (A := A) e).
Proof. by intros w. Qed.

Lemma preserves_bind {A B} (m : M A) (k : A → M B) :
  preserves proj m → (∀ a, preserves proj (k a)) → preserves proj (bind m k).
Proof.
  intros Hm Hk w. unfold bind. specialize (Hm w).
  destruct (m w) as [[a | e |] w']; cbn in *; [| done | done].
  by rewrite Hk.
Qed.

Lemma preserves_try_catch {A} (m : M A) handler :
  preserves proj m → (∀ e, preserves proj (handler e)) → preserves proj (try_catch m handler).
Proof.
  intros Hm Hh w. unfold try_catch. specialize (Hm w).
  destruct (m w) as [[a | e |] w']; cbn in *; [done | | done].
  by rewrite Hh.
Qed.

Lemma preserves_settled {A} (m : M A) : preserves proj m → preserves proj (settled m).
Proof.
  intros Hm w. unfold settled. specialize (Hm w).
  by destruct (m w) as [[a | e |] w'].
Qed.

Lemma preserves_log ev : preserves proj (log ev).
Proof. intros w. apply proj_logged. Qed.

Lemma preserves_getWorld : preserves proj getWorld.
Proof. by intros w. Qed.

Lemma preserves_modify f : (∀ w, proj (f w) = proj w) → preserves proj (modify f).
Proof. intros Hf w. apply Hf. Qed.

Lemma preserves_for_each {A} (l : list A) body :
  (∀ x, preserves proj (body x)) → preserves proj (for_each l body).
Proof.
  intros Hbody. induction l as [| x l IH]; [apply preserves_ret |].
  cbn. apply preserves_bind; [apply Hbody | by intros _].
Qed.

Lemma preserves_storage_getAll : preserves proj storage_getAll.
Proof. intros w. apply proj_logged. Qed.

Lemma preserves_storage_get k : preserves proj (storage_get k).
Proof. intros w. apply proj_logged. Qed.

Lemma preserves_storage_update k patch : preserves proj (storage_update k patch).
Proof.
  intros w. unfold storage_update, bind, log, getWorld, lift_store.
  destruct (IndexedDBStorage.update _ _ _); cbn;
    by rewrite ?proj_with_store, proj_logged.
Qed.

Lemma preserves_storage_remove k : preserves proj (storage_remove k).
Proof.
  intros w. unfold storage_remove, bind, log, modify. cbn.
  by rewrite proj_with_store, proj_logged.
Qed.

Lemma preserves_storage_put config entry :
  preserves proj (storage_put config entry).
Proof.
  intros w. unfold storage_put, bind, log, getWorld, lift_store.
  destruct (IndexedDBStorage.put _ _ _); cbn;
    by rewrite ?proj_with_store, proj_logged.
Qed.

Lemma preserves_delay ms : preserves proj (delay ms).
Proof. apply preserves_log. Qed.

Lemma preserves_ask_onlineCheck env : preserves proj (ask_onlineCheck env).
Proof.
  intros w. unfold ask_onlineCheck. cbn. by rewrite proj_logged, proj_counters.
Qed.

Lemma preserves_ask_fetch env k : preserves proj (ask_fetch env k).
Proof.
  intros w. unfold ask_fetch.
  destruct (fetch env (fetches w)); cbn; by rewrite proj_logged, proj_counters.
Qed.

Lemma preserves_ask_Date_now env : preserves proj (ask_Date_now env).
Proof. intros w. unfold ask_Date_now. cbn. apply proj_counters. Qed.

Lemma preserves_recoverStaleEntries :
  preserves proj ReplayEngine.recoverStaleEntries.
Proof.
  apply preserves_bind; [apply preserves_storage_getAll |].
  intros entries. apply preserves_for_each. intros entry.
  destruct (decide _);
    [apply preserves_storage_update | apply preserves_ret].
Qed.

Lemma preserves_processEntry env config entry :
  preserves proj (ReplayEngine.processEntry env config entry).
Proof.
  assert (Hmark : ∀ e c, preserves proj (ReplayEngine.markAsFailed entry e c))
    by (intros; apply preserves_storage_update).
  assert (Hrearm : preserves proj (ReplayEngine.rearm config entry)).
  { apply preserves_bind; [apply preserves_storage_update |].
    intros _. destruct (calculateBackoffDelay _ _);
      [apply preserves_delay | apply preserves_ret]. }
  unfold ReplayEngine.processEntry.
  apply preserves_bind; [apply preserves_ask_Date_now |]. intros now.
  apply preserves_bind; [apply preserves_storage_update |]. intros _.
  apply preserves_bind; [apply preserves_log |]. intros _.
  apply preserves_try_catch.
  - apply preserves_bind; [apply preserves_ask_fetch |]. intros status.
    repeat match goal with
           | |- preserves proj (if ?b then _ else _) => destruct b
           | |- preserves proj (bind _ _) => apply preserves_bind; [| intros _]
           end;
      auto using preserves_log, preserves_throw.
  - intros e.
    repeat match goal with
           | |- preserves proj (if ?b then _ else _) => destruct b
           | |- preserves proj (bind _ _) => apply preserves_bind; [| intros _]
           end;
      auto using preserves_log, preserves_throw.
Qed.

Lemma preserves_allSettled env config batch :
  preserves proj (ReplayEngine.allSettled env config batch).
Proof.
  induction batch as [| entry batch IH]; [apply preserves_ret |].
  cbn. apply preserves_bind;
    [apply preserves_settled, preserves_processEntry |].
  intros result. apply preserves_bind; [exact IH |].
  intros results. apply preserves_ret.
Qed.

Lemma preserves_handle_results stopOnError results hasError :
  preserves proj (ReplayEngine.handle_results stopOnError results hasError).
Proof.
  revert hasError.
  induction results as [| [entry [error | []]] results IH]; intros hasError;
    cbn; [apply preserves_ret | |].
  - apply preserves_bind; [apply preserves_storage_get |].
    intros updatedEntry. apply preserves_bind.
    { destruct updatedEntry; [apply preserves_log | apply preserves_ret]. }
    intros _. destruct stopOnError; [| apply IH].
    apply preserves_bind; [| intros _; apply preserves_ret].
    apply preserves_modify. intros w. apply proj_lastError.
  - apply preserves_bind; [apply preserves_storage_remove |]. intros _.
    apply preserves_bind; [apply preserves_log |]. intros _. apply IH.
Qed.

Lemma preserves_drain env config concurrency stopOnError fuel :
  preserves proj (ReplayEngine.drain env config concurrency stopOnError fuel).
Proof.
  induction fuel as [| fuel IH]; [by intros w |].
  cbn [ReplayEngine.drain].
  apply preserves_bind; [apply preserves_getWorld |]. intros w0.
  destruct (isPaused (engine w0)); [apply preserves_ret |].
  destruct (abortController (engine w0)) as [[] |];
    [apply preserves_ret | | apply preserves_throw].
  apply preserves_bind; [apply preserves_ask_onlineCheck |]. intros online.
  destruct online; cbn [negb].
  2:{ apply preserves_bind; [apply preserves_delay | by intros _]. }
  apply preserves_bind; [apply preserves_storage_getAll |]. intros entries.
  destruct (filter _ entries) as [| first rest]; [apply preserves_ret |].
  apply preserves_bind; [apply preserves_allSettled |]. intros results.
  apply preserves_bind; [apply preserves_handle_results |]. intros hasError.
  destruct (hasError && stopOnError); [apply preserves_ret | exact IH].
Qed.
End Preservation.


(** ** The drain loop *)

Section DrainProperties.
Context `{JSON}.
Variable env : Env.
Variable config : Config.

Lemma drain_keeps_loop_flags concurrency stopOnError fuel (w : World) :
  loop_flags
    (ReplayEngine.drain env config concurrency stopOnError fuel w).2
  = loop_flags w.
Proof. by apply preserves_drain. Qed.

(** C8: a call of [process] made while the processing flag is set
    returns at once without error: the store, the flags, the oracles and
    the log of calls are as before, so it makes no recovery pass, no
    storage call and no attempt. The flag is set for as long as the loop of
    an earlier call runs: when a call has passed the guard and its loop has
    not ended, one more loop is active than before, and every further call,
    whatever its options, returns at once and leaves everything as it is.
    So there is never more than one active loop: that a loop is active
    exactly when the flag is set, and is then the only one, holds for a new
    engine and is kept by every call of [process], however it ends, and by
    [pause] and [resume]. *)
Theorem process_reentrant_is_noop options fuel (w : World) :
  (isProcessing (engine w) = true →
   ReplayEngine.process env config options fuel w = (Returns tt, w))
  ∧ (isProcessing (engine w) = false →
     let first := ReplayEngine.process env config options fuel w in
     first.1 = Pending →
     isProcessing (engine first.2) = true
     ∧ activeLoops (engine first.2) = S (activeLoops (engine w))
     ∧ ∀ options' fuel',
         ReplayEngine.process env config options' fuel' first.2
         = (Returns tt, first.2))
  ∧ one_loop ReplayEngine.initial
  ∧ (one_loop (engine w) →
     one_loop (engine (ReplayEngine.process env config options fuel w).2)
     ∧ one_loop (ReplayEngine.pause (engine w))
     ∧ one_loop (ReplayEngine.resume (engine w))).
Proof.
  assert (Hnoop : ∀ options' fuel' (w' : World),
            isProcessing (engine w') = true →
            ReplayEngine.process env config options' fuel' w'
            = (Returns tt, w')).
  { intros options' fuel' w' Hp. unfold ReplayEngine.process.
    unfold bind at 1. unfold getWorld at 1. rewrite Hp. reflexivity. }
  assert (Hrun : isProcessing (engine w) = false →
            let result := ReplayEngine.process env config options fuel w in
            match result.1 with
            | Pending =>
                isProcessing (engine result.2) = true
                ∧ activeLoops (engine result.2) = S (activeLoops (engine w))
            | _ =>
                isProcessing (engine result.2) = false
                ∧ activeLoops (engine result.2) = activeLoops (engine w)
            end).
  { intros Hguard result. subst result.
    rewrite (process_recovers_first env config options fuel w Hguard).
    set (entered := with_engine w (ReplayEngine.enter (engine w))).
    set (body := (ReplayEngine.recoverStaleEntries ;;; _)).
    assert (Hflags : loop_flags (body entered).2 = loop_flags entered).
    { subst body. apply (preserves_bind loop_flags); [| intros _].
      - by apply preserves_recoverStaleEntries.
      - by apply preserves_drain. }
    unfold try_finally. unfold loop_flags in Hflags.
    destruct (body entered) as [[[] | e |] w'];
      cbn in *; injection Hflags as Hp Hpa Ha Hl;
      rewrite ?Hl; auto. }
  split; [apply Hnoop |]. split.
  { intros Hguard first Hpending. specialize (Hrun Hguard).
    cbn zeta in Hrun. fold first in Hrun. rewrite Hpending in Hrun.
    destruct Hrun as [Hp Hl]. split; [exact Hp |]. split; [exact Hl |].
    intros options' fuel'. by apply Hnoop. }
  split; [reflexivity |].
  unfold one_loop. intros Hone. split; [| by split].
  destruct (isProcessing (engine w)) eqn:Hguard.
  - rewrite (Hnoop options fuel w Hguard). cbn [snd]. by rewrite Hguard.
  - specialize (Hrun eq_refl). cbn zeta in Hrun.
    destruct (ReplayEngine.process env config options fuel w).1;
      [destruct Hrun as [-> ->] | destruct Hrun as [-> ->]
       | destruct Hrun as [-> ->]];
      by rewrite ?Hone.
Qed.

(** X14: a call of [process] that passes the guard holds the lock for as
    long as its loop runs and always gives it back: while the loop has not
    finished the processing flag is set and one loop is active, and once
    the call returns or throws the flag is cleared, the abort controller
    dropped and the number of active loops what it was before the call.
    The paused flag is never touched. *)
Theorem process_holds_and_releases_lock options fuel (w : World) :
  isProcessing (engine w) = false →
  let result := ReplayEngine.process env config options fuel w in
  isPaused (engine result.2) = isPaused (engine w)
  ∧ match result.1 with
    | Pending =>
        isProcessing (engine result.2) = true
        ∧ activeLoops (engine result.2) = S (activeLoops (engine w))
    | _ =>
        isProcessing (engine result.2) = false
        ∧ abortController (engine result.2) = None
        ∧ activeLoops (engine result.2) = activeLoops (engine w)
    end.
Proof.
  intros Hguard result. subst result.
  rewrite (process_recovers_first env config options fuel w Hguard).
  set (entered := with_engine w (ReplayEngine.enter (engine w))).
  set (body := (ReplayEngine.recoverStaleEntries ;;; _)).
  assert (Hflags : loop_flags (body entered).2 = loop_flags entered).
  { subst body. apply (preserves_bind loop_flags); [| intros _].
    - by apply preserves_recoverStaleEntries.
    - by apply preserves_drain. }
  unfold try_finally. unfold loop_flags in Hflags.
  destruct (body entered) as [[[] | e |] w'];
    cbn in *; injection Hflags as Hp Hpa Ha Hl;
    rewrite ?Hl; auto.
Qed.

(** Startup recovery touches the store and the log only. *)
Lemma recoverStaleEntries_frame (w : World) :
  readable (store w) →
  ∃ w',
    ReplayEngine.recoverStaleEntries w = (Returns tt, w')
    ∧ store w' = recovered <$> store w
    ∧ engine w' = engine w
    ∧ fetches w' = fetches w
    ∧ onlineChecks w' = onlineChecks w.
Proof.
  intros Hread.
  destruct (recoverStaleEntries_store w Hread) as (w' & Hrun & Hstore).
  exists w'. split; [exact Hrun |]. split; [exact Hstore |].
  pose proof (preserves_recoverStaleEntries engine
                ltac:(done) ltac:(done) w) as He.
  pose proof (preserves_recoverStaleEntries fetches
                ltac:(done) ltac:(done) w) as Hf.
  pose proof (preserves_recoverStaleEntries onlineChecks
                ltac:(done) ltac:(done) w) as Ho.
  rewrite Hrun in He, Hf, Ho. auto.
Qed.

Lemma drain_offline concurrency stopOnError fuel :
  (∀ k, onlineCheck env k = false) →
  ∀ w : World,
    isPaused (engine w) = false →
    abortController (engine w) = Some false →
    ∃ w',
      ReplayEngine.drain env config concurrency stopOnError fuel w
      = (Pending, w')
      ∧ store w' = store w
      ∧ engine w' = engine w
      ∧ fetches w' = fetches w
      ∧ onlineChecks w' = (onlineChecks w + fuel)%nat.
Proof.
  intros Hoff. induction fuel as [| fuel IH]; intros w Hp Ha.
  - exists w. cbn. auto.
  - cbn [ReplayEngine.drain].
    unfold bind at 1. unfold getWorld at 1. rewrite Hp, Ha.
    unfold bind at 1. unfold ask_onlineCheck at 1. rewrite Hoff.
    cbn [negb]. unfold bind at 1. unfold delay, log at 1.
    match goal with
    | |- context [ReplayEngine.drain _ _ _ _ fuel ?w1] =>
        destruct (IH w1) as (w' & Hrun & Hs & He & Hf & Ho);
        [exact Hp | exact Ha | rewrite Hrun]
    end.
    exists w'. split; [reflexivity |].
    rewrite Hs, He, Hf, Ho. cbn. repeat split; lia.
Qed.

(** X15: while the connectivity check answers unreachable the loop only
    waits and checks again: after startup recovery it makes no attempt,
    writes nothing, and does not end, however many rounds it is given. *)
Theorem process_waits_while_offline options fuel (w : World) :
  isProcessing (engine w) = false →
  isPaused (engine w) = false →
  readable (store w) →
  (∀ k, onlineCheck env k = false) →
  ∃ w',
    ReplayEngine.process env config options fuel w = (Pending, w')
    ∧ store w' = recovered <$> store w
    ∧ fetches w' = fetches w
    ∧ onlineChecks w' = (onlineChecks w + fuel)%nat
    ∧ isProcessing (engine w') = true.
Proof.
  intros Hguard Hp Hread Hoff.
  rewrite (process_recovers_first env config options fuel w Hguard).
  destruct (recoverStaleEntries_frame
              (with_engine w (ReplayEngine.enter (engine w))) Hread)
    as (w1 & Hrec & Hs1 & He1 & Hf1 & Ho1).
  destruct (drain_offline (default 1%Z (concurrency options))
              (default true (stopOnError options)) fuel Hoff w1)
    as (w' & Hrun & Hs & He & Hf & Ho).
  { by rewrite He1. }
  { by rewrite He1. }
  exists w'. unfold try_finally, bind. rewrite Hrec, Hrun.
  split; [reflexivity |].
  rewrite Hs, Hs1, Hf, Hf1, Ho, Ho1, He, He1. auto.
Qed.

(** X16: on a paused engine a call of [process] still runs the startup
    recovery, and nothing else: no connectivity check, no attempt, and the
    lock is given back. *)
Theorem process_paused_only_recovers options fuel (w : World) :
  isProcessing (engine w) = false →
  isPaused (engine w) = true →
  readable (store w) →
  ∃ w',
    ReplayEngine.process env config options (S fuel) w = (Returns tt, w')
    ∧ store w' = recovered <$> store w
    ∧ fetches w' = fetches w
    ∧ onlineChecks w' = onlineChecks w
    ∧ isProcessing (engine w') = false.
Proof.
  intros Hguard Hp Hread.
  rewrite (process_recovers_first env config options (S fuel) w Hguard).
  destruct (recoverStaleEntries_frame
              (with_engine w (ReplayEngine.enter (engine w))) Hread)
    as (w1 & Hrec & Hs1 & He1 & Hf1 & Ho1).
  unfold try_finally, bind. rewrite Hrec.
  cbn [ReplayEngine.drain]. unfold bind, getWorld. rewrite He1. cbn.
  rewrite Hp. eexists. split; [reflexivity |]. cbn.
  by rewrite Hs1, Hf1, Ho1.
Qed.

Lemma getAll_entries (m : gmap string StoredRecord) :
  readable m →
  ∃ entries,
    IndexedDBStorage.getAll m = Returns entries
    ∧ NoDup (id <$> entries)
    ∧ (∀ e, e ∈ entries →
            ∃ r, m !! id e = Some r ∧ status e = rec_status r)
    ∧ (∀ k r, m !! k = Some r →
              ∃ e, e ∈ entries ∧ id e = k ∧ status e = rec_status r).
Proof.
  intros Hread.
  destruct (getAll_readable _ Hread) as (entries & Hall & Hdes).
  exists entries. split; [exact Hall |].
  assert (Hids : id <$> entries = (IndexedDBStorage.createdAt_index m).*1).
  { clear Hall. induction Hdes as [| [k r] e ps es Hd _ IH]; [done |].
    rewrite !fmap_cons, IH. f_equal.
    by apply deserializeEntry_fields in Hd as (-> & _). }
  split; [rewrite Hids; apply NoDup_createdAt_index |].
  split.
  - intros e Hin.
    destruct (proj1 (list_elem_of_lookup _ _) Hin) as [i Hi].
    destruct (Forall2_lookup_r _ _ _ _ _ Hdes Hi) as ([k r] & Hp & Hd).
    apply deserializeEntry_fields in Hd as (Hid & Hst & _).
    apply list_elem_of_lookup_2, elem_of_createdAt_index in Hp.
    exists r. by rewrite Hid.
  - intros k r Hk. apply elem_of_createdAt_index in Hk.
    destruct (proj1 (list_elem_of_lookup _ _) Hk) as [i Hi].
    destruct (Forall2_lookup_l _ _ _ _ _ Hdes Hi) as (e & He & Hd).
    apply deserializeEntry_fields in Hd as (Hid & Hst & _).
    exists e. split; [by eapply list_elem_of_lookup_2 | done].
Qed.

Lemma sublist_fmap_id (l1 l2 : list LedgerEntry) :
  l1 `sublist_of` l2 → (id <$> l1) `sublist_of` (id <$> l2).
Proof. induction 1; cbn; by constructor. Qed.

Lemma slice0_sublist {A} (n : Z) (l : list A) : slice0 n l `sublist_of` l.
Proof. unfold slice0. apply sublist_take. Qed.

Lemma slice0_nonempty {A} (n : Z) (x : A) (l : list A) :
  (0 < n)%Z → slice0 n (x :: l) ≠ [].
Proof.
  intros Hn. unfold slice0. cbn [length].
  destruct (Z.ltb_spec n 0); [lia |].
  destruct (Z.to_nat (Z.min n (Z.of_nat (S (length l))))) eqn:E; [lia |].
  done.
Qed.

Lemma processEntry_accepts entry (w : World) existing :
  store w !! id entry = Some existing →
  success_outcome (fetch env (fetches w)) = true →
  ∃ w' updated,
    ReplayEngine.processEntry env config entry w = (Returns tt, w')
    ∧ store w' = <[id entry := updated]> (store w)
    ∧ engine w' = engine w
    ∧ fetches w' = S (fetches w).
Proof.
  intros Hex Hout. unfold ReplayEngine.processEntry.
  destruct (fetch env (fetches w)) as [status | e] eqn:Hfetch;
    [| discriminate].
  cbn in Hout.
  apply andb_true_iff in Hout as [Hc%negb_true_iff Hr%negb_true_iff].
  repeat (run_effects;
          rewrite ?Hex, ?Hfetch, ?Hc, ?Hr, ?lookup_insert_eq).
  eexists _, _. split; [reflexivity |]. cbn. done.
Qed.

Lemma allSettled_accepts batch :
  (∀ k, success_outcome (fetch env k) = true) →
  ∀ w : World,
    (∀ e, e ∈ batch → is_Some (store w !! id e)) →
    ∃ w',
      ReplayEngine.allSettled env config batch w
      = (Returns ((λ _, inr tt) <$> batch), w')
      ∧ (∀ k, is_Some (store w' !! k) ↔ is_Some (store w !! k))
      ∧ (∀ k, k ∉ id <$> batch → store w' !! k = store w !! k)
      ∧ size (store w') = size (store w)
      ∧ engine w' = engine w
      ∧ fetches w' = (fetches w + length batch)%nat.
Proof.
  intros Hok. induction batch as [| entry rest IH]; intros w Hin.
  - exists w. cbn. repeat split; auto.
  - destruct (Hin entry) as [existing Hex]; [left |].
    destruct (processEntry_accepts entry w existing Hex (Hok _))
      as (w1 & updated & Hrun & Hs1 & He1 & Hf1).
    destruct (IH w1) as (w' & Hrest & Hdom & Hframe & Hsize & He & Hf).
    { intros e He. rewrite Hs1.
      destruct (decide (id e = id entry)) as [-> | Hne].
      - rewrite lookup_insert_eq. eauto.
      - rewrite lookup_insert_ne by done. apply Hin. by right. }
    exists w'. cbn [ReplayEngine.allSettled fmap list_fmap].
    unfold bind at 1. unfold settled. rewrite Hrun.
    unfold bind at 1. rewrite Hrest. cbn.
    split; [reflexivity |]. split.
    { intros k. rewrite Hdom, Hs1.
      destruct (decide (k = id entry)) as [-> | Hne].
      - rewrite lookup_insert_eq, Hex. split; eauto.
      - by rewrite lookup_insert_ne. }
    split.
    { intros k Hk. apply not_elem_of_cons in Hk as [Hne Hk].
      rewrite (Hframe k Hk), Hs1. by rewrite lookup_insert_ne. }
    split.
    { rewrite Hsize, Hs1. apply map_size_insert_Some. eauto. }
    split; [congruence |]. rewrite Hf, Hf1. lia.
Qed.

Lemma handle_results_accepts stopOnError batch :
  ∀ (w : World) hasError,
    ∃ w',
      ReplayEngine.handle_results stopOnError
        (zip batch ((λ _, inr tt) <$> batch)) hasError w
      = (Returns hasError, w')
      ∧ (∀ k, store w' !! k
              = if decide (k ∈ id <$> batch) then None else store w !! k)
      ∧ engine w' = engine w
      ∧ fetches w' = fetches w.
Proof.
  induction batch as [| entry rest IH]; intros w hasError.
  - exists w. cbn. split; [reflexivity |]. split; [| done].
    intros k. by rewrite decide_False by apply not_elem_of_nil.
  - rewrite !fmap_cons. cbn [zip zip_with ReplayEngine.handle_results].
    unfold bind at 1. unfold storage_remove at 1. unfold bind at 1.
    unfold log at 1. unfold modify at 1. unfold bind at 1.
    unfold log at 1.
    match goal with
    | |- context [ReplayEngine.handle_results _ _ _ ?w1] =>
        destruct (IH w1 hasError) as (w' & Hrun & Hlook & He & Hf)
    end.
    exists w'. split; [exact Hrun |]. split; [| by rewrite He, Hf].
    intros k. rewrite Hlook. cbn [store with_store logged].
    unfold IndexedDBStorage.remove.
    destruct (decide (k = id entry)) as [-> | Hne].
    + rewrite (decide_True (P := _ ∈ _ :: _)) by left.
      destruct (decide _); [done | apply lookup_delete_eq].
    + rewrite lookup_delete_ne by done.
      destruct (decide (k ∈ id <$> rest)) as [Hk | Hk].
      * by rewrite decide_True by by right.
      * rewrite decide_False; [done |].
        intros [? | ?]%elem_of_cons; done.
Qed.
End DrainProperties.

(** ** Draining the queue *)

Section QueueProperties.
Context `{JSON}.
Variable env : Env.
Variable config : Config.

Lemma deserializeEntry_same_texts k (r r' : StoredRecord) :
  rec_request r' = rec_request r →
  rec_metadata r' = rec_metadata r →
  is_Some (IndexedDBStorage.deserializeEntry (k, r)) →
  is_Some (IndexedDBStorage.deserializeEntry (k, r')).
Proof.
  unfold IndexedDBStorage.deserializeEntry. cbn [fst snd].
  intros -> ->.
  destruct (IndexedDBStorage.parse_if_truthy _); [| by intros [? [=]]].
  destruct (IndexedDBStorage.parse_if_truthy _); [| by intros [? [=]]].
  eauto.
Qed.

Lemma readable_recovered (m : gmap string StoredRecord) :
  readable m → readable (recovered <$> m).
Proof.
  intros Hread k r' (r & <- & Hr)%lookup_fmap_Some.
  apply (deserializeEntry_same_texts k r); [| | by eapply Hread];
    unfold recovered; by destruct (decide _).
Qed.

Lemma readable_insert_same_texts (m : gmap string StoredRecord) k r r' :
  readable m → m !! k = Some r →
  rec_request r' = rec_request r →
  rec_metadata r' = rec_metadata r →
  readable (<[k := r']> m).
Proof.
  intros Hread Hk Hreq Hmeta k0 r0.
  destruct (decide (k0 = k)) as [-> | Hne].
  - rewrite lookup_insert_eq. intros [= <-].
    apply (deserializeEntry_same_texts k r); [done | done |].
    by eapply Hread.
  - rewrite lookup_insert_ne by done. apply Hread.
Qed.

(** Whatever [fetch] answers, an attempt on a stored entry settles, calls
    [fetch] once and rewrites the record of its entry only, keeping the
    stored texts. *)
Lemma processEntry_frame entry (w : World) existing :
  store w !! id entry = Some existing →
  ∃ outcome w' updated,
    ReplayEngine.processEntry env config entry w = (outcome, w')
    ∧ match outcome with
      | Returns _ =>
          success_outcome (fetch env (fetches w)) = true
          ∧ rec_status updated = processing
      | Throws _ => success_outcome (fetch env (fetches w)) = false
      | Pending => False
      end
    ∧ store w' = <[id entry := updated]> (store w)
    ∧ rec_request updated = rec_request existing
    ∧ rec_metadata updated = rec_metadata existing
    ∧ engine w' = engine w
    ∧ fetches w' = S (fetches w)
    ∧ onlineChecks w' = onlineChecks w.
Proof.
  intros Hex. unfold ReplayEngine.processEntry.
  destruct (fetch env (fetches w)) as [status | e] eqn:Hfetch.
  - destruct (isClientError status) eqn:Hc;
      [| destruct (isRetryableStatusCode status) eqn:Hr;
         [destruct (ReplayEngine.canRetryEntry config entry) eqn:Hb;
          [destruct (calculateBackoffDelay (retry config)
                       (attemptCount entry + 1)) eqn:Hd |] |]].
    all: repeat (run_effects;
                 rewrite ?Hex, ?Hfetch, ?Hc, ?Hr, ?Hb, ?Hd,
                   ?lookup_insert_eq).
    all: eexists _, _, _; (split; [reflexivity |]);
      rewrite ?Hfetch; cbn [success_outcome];
      rewrite ?Hc, ?Hr, ?insert_insert_eq; cbn [negb andb];
      (split; [| split; [reflexivity | by destruct existing]]);
      by destruct existing.
  - destruct (isNetworkError e) eqn:Hn;
      [destruct (ReplayEngine.canRetryEntry config entry) eqn:Hb;
       [destruct (calculateBackoffDelay (retry config)
                    (attemptCount entry + 1)) eqn:Hd |] |].
    all: repeat (run_effects;
                 rewrite ?Hex, ?Hfetch, ?Hn, ?Hb, ?Hd, ?lookup_insert_eq).
    all: eexists _, _, _; (split; [reflexivity |]);
      rewrite ?Hfetch; cbn [success_outcome]; rewrite ?insert_insert_eq;
      (split; [| split; [reflexivity | by destruct existing]]);
      done.
Qed.

Lemma slice0_one {A} (x : A) (l : list A) : slice0 1 (x :: l) = [x].
Proof.
  unfold slice0. cbn [length Z.ltb Z.compare].
  rewrite Z.min_l by lia. reflexivity.
Qed.

Lemma size_without (ids : list string) :
  NoDup ids →
  ∀ m m' : gmap string StoredRecord,
    (∀ k, k ∈ ids → is_Some (m !! k)) →
    (∀ k, m' !! k = if decide (k ∈ ids) then None else m !! k) →
    (size m' + length ids = size m)%nat.
Proof.
  induction 1 as [| k0 ids Hk0 _ IH]; intros m m' Hin Hlook.
  - cbn. rewrite Nat.add_0_r. f_equal. apply map_eq. intros k.
    rewrite Hlook. by rewrite decide_False by apply not_elem_of_nil.
  - destruct (Hin k0) as [r Hr]; [left |].
    assert (Hpos : size m ≠ 0%nat).
    { intros Hz%map_size_empty_inv. by rewrite Hz in Hr. }
    assert (E : (size m' + length ids = size (delete k0 m))%nat).
    { apply IH.
      - intros k Hk. rewrite lookup_delete_ne by congruence.
        apply Hin. by right.
      - intros k. rewrite Hlook.
        destruct (decide (k = k0)) as [-> | Hne].
        + rewrite decide_True by left. rewrite lookup_delete_eq.
          by destruct (decide _).
        + rewrite lookup_delete_ne by done.
          destruct (decide (k ∈ ids)) as [Hk | Hk].
          * by rewrite decide_True by by right.
          * rewrite decide_False; [done |].
            intros [? | ?]%elem_of_cons; done. }
    rewrite map_size_delete_Some in E by eauto.
    cbn [length]. lia.
Qed.

Lemma drain_accepts concurrency stopOnError :
  (0 < concurrency)%Z →
  (∀ k, onlineCheck env k = true) →
  (∀ k, success_outcome (fetch env k) = true) →
  ∀ fuel (w : World),
    isPaused (engine w) = false →
    abortController (engine w) = Some false →
    readable (store w) →
    (size (store w) < fuel)%nat →
    ∃ w',
      ReplayEngine.drain env config concurrency stopOnError fuel w
      = (Returns tt, w')
      ∧ store w' = filter (λ kv, rec_status kv.2 ≠ pending) (store w)
      ∧ engine w' = engine w
      ∧ (fetches w' + size (store w') = fetches w + size (store w))%nat.
Proof.
  intros Hc Hon Hok. induction fuel as [| fuel IH];
    intros w Hp Ha Hread Hsize; [lia |].
  destruct (getAll_entries (store w) Hread)
    as (entries & Hall & Hnd & Hsound & Hcomplete).
  cbn [ReplayEngine.drain].
  unfold bind at 1. unfold getWorld at 1. rewrite Hp, Ha.
  unfold bind at 1. unfold ask_onlineCheck at 1. rewrite Hon. cbn [negb].
  unfold bind at 1. unfold storage_getAll at 1.
  unfold bind at 1. unfold log at 1. unfold bind at 1.
  unfold getWorld at 1. unfold lift_read at 1.
  cbn [store logged]. rewrite Hall.
  set (w2 := logged storage_getAll_called _).
  assert (Hs2 : store w2 = store w) by reflexivity.
  assert (He2 : engine w2 = engine w) by reflexivity.
  assert (Hf2 : fetches w2 = fetches w) by reflexivity.
  clearbody w2.
  destruct (filter (λ e, status e = pending) entries)
    as [| first others] eqn:Hfilter.
  { exists w2. split; [reflexivity |]. rewrite Hs2, He2, Hf2.
    split; [| done]. symmetry. apply map_filter_id.
    intros k r Hk Hpend. cbn in Hpend.
    destruct (Hcomplete k r Hk) as (e & Hin & _ & Hst).
    assert (He : e ∈ filter (λ e, status e = pending) entries).
    { apply list_elem_of_filter. split; [congruence | done]. }
    rewrite Hfilter in He. by apply not_elem_of_nil in He. }
  set (batch := slice0 concurrency (first :: others)).
  assert (Hsub : batch `sublist_of` entries).
  { etrans; [apply slice0_sublist |]. rewrite <- Hfilter.
    apply sublist_filter. }
  assert (Hbatch : ∀ e, e ∈ batch →
            ∃ r, store w !! id e = Some r ∧ rec_status r = pending).
  { intros e He.
    assert (He' : e ∈ filter (λ e, status e = pending) entries).
    { rewrite Hfilter. eapply sublist_subseteq; [| exact He].
      apply slice0_sublist. }
    apply list_elem_of_filter in He' as [Hst Hin].
    destruct (Hsound e Hin) as (r & Hr & Hst').
    exists r. split; [done | congruence]. }
  assert (Hne : batch ≠ []) by by apply slice0_nonempty.
  assert (Hndb : NoDup (id <$> batch)).
  { eapply sublist_NoDup; [exact Hnd |]. by apply sublist_fmap_id. }
  destruct (allSettled_accepts env config batch Hok w2)
    as (w3 & Hrun3 & Hdom3 & Hframe3 & Hsize3 & He3 & Hf3).
  { intros e He. rewrite Hs2. destruct (Hbatch e He) as (r & Hr & _).
    eauto. }
  destruct (handle_results_accepts stopOnError batch w3 false)
    as (w4 & Hrun4 & Hlook4 & He4 & Hf4).
  unfold bind at 1. rewrite Hrun3. unfold bind at 1. rewrite Hrun4.
  cbn [andb].
  assert (Hstore4 : ∀ k, store w4 !! k
            = if decide (k ∈ id <$> batch) then None else store w !! k).
  { intros k. rewrite Hlook4. destruct (decide _) as [| Hk]; [done |].
    by rewrite (Hframe3 k Hk), Hs2. }
  assert (Hsize4 : (size (store w4) + length batch = size (store w))%nat).
  { apply (size_without (id <$> batch) Hndb (store w) (store w4)) in Hstore4.
    - by rewrite length_fmap in Hstore4.
    - intros k (e & -> & He)%list_elem_of_fmap.
      destruct (Hbatch e He) as (r & Hr & _). eauto. }
  assert (Hlen : (0 < length batch)%nat)
    by (destruct batch; [done | cbn; lia]).
  destruct (IH w4) as (w' & Hrun & Hs & He & Hf).
  { by rewrite He4, He3, He2. }
  { by rewrite He4, He3, He2. }
  { eapply readable_subseteq; [| exact Hread].
    apply map_subseteq_spec. intros k r. rewrite Hstore4.
    by destruct (decide _). }
  { lia. }
  exists w'. split; [exact Hrun |]. split.
  { rewrite Hs. apply map_eq. intros k. apply option_eq. intros r.
    rewrite !map_lookup_filter_Some, Hstore4. cbn [snd].
    destruct (decide (k ∈ id <$> batch)) as [Hk | Hk]; [| done].
    split; [intros [? _]; done |]. intros [Hr Hst].
    apply list_elem_of_fmap in Hk as (e & -> & Hin).
    destruct (Hbatch e Hin) as (r' & Hr' & Hst'). congruence. }
  split; [by rewrite He, He4, He3, He2 |].
  rewrite Hf, Hf4, Hf3, Hf2. lia.
Qed.

(** X17: with the network reachable and every response outside 400..599,
    [process] ends, and when it ends every entry that was [pending] or
    [processing] has been sent once and removed, while [completed] and
    [failed] records are untouched; no error is recorded and the lock is
    free again. *)
Theorem process_drains_queue options fuel (w : World) :
  isProcessing (engine w) = false →
  isPaused (engine w) = false →
  readable (store w) →
  (0 < default 1 (concurrency options))%Z →
  (∀ k, onlineCheck env k = true) →
  (∀ k, success_outcome (fetch env k) = true) →
  (size (store w) < fuel)%nat →
  ∃ w',
    ReplayEngine.process env config options fuel w = (Returns tt, w')
    ∧ store w' = filter (λ kv, settled_status kv.2) (store w)
    ∧ (fetches w' + size (store w') = fetches w + size (store w))%nat
    ∧ lastError (engine w') = None
    ∧ isProcessing (engine w') = false.
Proof.
  intros Hguard Hp Hread Hc Hon Hok Hfuel.
  rewrite (process_recovers_first env config options fuel w Hguard).
  destruct (recoverStaleEntries_frame
              (with_engine w (ReplayEngine.enter (engine w))) Hread)
    as (w1 & Hrec & Hs1 & He1 & Hf1 & Ho1).
  cbn [store with_engine engine fetches] in Hs1, He1, Hf1.
  destruct (drain_accepts (default 1%Z (concurrency options))
              (default true (stopOnError options)) Hc Hon Hok fuel w1)
    as (w' & Hrun & Hs & He & Hf).
  { by rewrite He1. }
  { by rewrite He1. }
  { rewrite Hs1. by apply readable_recovered. }
  { by rewrite Hs1, map_size_fmap. }
  unfold try_finally, bind. rewrite Hrec, Hrun.
  eexists. split; [reflexivity |].
  cbn [store with_engine engine fetches ReplayEngine.leave
       lastError isProcessing].
  rewrite He, He1. cbn.
  split.
  { rewrite Hs, Hs1. apply map_eq. intros k. apply option_eq. intros r.
    rewrite !map_lookup_filter_Some, lookup_fmap_Some. cbn [snd].
    unfold settled_status, recovered. split.
    - intros [(r0 & <- & Hr0) Hst].
      destruct (decide (rec_status r0 = processing)); [done |]. done.
    - intros [Hr [Hst1 Hst2]]. split; [| done].
      exists r. by rewrite decide_False. }
  split; [| done].
  rewrite Hf, Hf1, Hs1, map_size_fmap. done.
Qed.

(** X18: with the defaults (one entry at a time, stop on error), when the
    attempt on the oldest pending entry is rejected, [process] ends after
    that one attempt: it records the error, sends nothing else, leaves
    every other record as recovery left it, and the state is [error]. *)
Theorem process_stops_at_first_error options fuel (w : World)
    entries first others :
  isProcessing (engine w) = false →
  isPaused (engine w) = false →
  readable (store w) →
  default 1%Z (concurrency options) = 1%Z →
  default true (stopOnError options) = true →
  onlineCheck env (onlineChecks w) = true →
  IndexedDBStorage.getAll (recovered <$> store w) = Returns entries →
  filter (λ e, status e = pending) entries = first :: others →
  success_outcome (fetch env (fetches w)) = false →
  ∃ w' error,
    ReplayEngine.process env config options (S fuel) w = (Returns tt, w')
    ∧ lastError (engine w') = Some error
    ∧ isProcessing (engine w') = false
    ∧ fetches w' = S (fetches w)
    ∧ onlineChecks w' = S (onlineChecks w)
    ∧ (∀ k, k ≠ id first → store w' !! k = recovered <$> store w !! k)
    ∧ (ReplayEngine.getState w').1 = Returns LedgerState.error.
Proof.
  intros Hguard Hp Hread Hc Hs Hon Hall Hfilter Hout.
  rewrite (process_recovers_first env config options (S fuel) w Hguard).
  rewrite Hc, Hs.
  destruct (recoverStaleEntries_frame
              (with_engine w (ReplayEngine.enter (engine w))) Hread)
    as (w1 & Hrec & Hs1 & He1 & Hf1 & Ho1).
  cbn [store with_engine engine fetches onlineChecks] in Hs1, He1, Hf1, Ho1.
  pose proof (readable_recovered _ Hread) as Hread1.
  destruct (getAll_entries _ Hread1)
    as (entries' & Hall' & _ & Hsound & _).
  rewrite Hall in Hall'. injection Hall' as <-.
  destruct (Hsound first) as (existing & Hex & _).
  { eapply (list_elem_of_filter (λ e, status e = pending)).
    rewrite Hfilter. left. }
  unfold try_finally, bind at 1. rewrite Hrec.
  cbn [ReplayEngine.drain].
  unfold bind at 1. unfold getWorld at 1. rewrite He1.
  cbn [ReplayEngine.enter isPaused abortController]. rewrite Hp.
  unfold bind at 1. unfold ask_onlineCheck at 1. rewrite Ho1, Hon.
  cbn [negb].
  unfold bind at 1. unfold storage_getAll at 1.
  unfold bind at 1. unfold log at 1. unfold bind at 1.
  unfold getWorld at 1. unfold lift_read at 1.
  cbn [store logged]. rewrite Hs1, Hall, Hfilter, slice0_one.
  set (w2 := logged storage_getAll_called _).
  destruct (processEntry_frame first w2 existing)
    as (outcome & w3 & updated & Hrun & Hcase & Hs3 & Hreq & Hmeta
        & He3 & Hf3 & Ho3).
  { subst w2. cbn [store logged]. by rewrite ?Hs1. }
  assert (Hfw2 : fetches w2 = fetches w) by (subst w2; cbn; done).
  assert (Hsw2 : store w2 = recovered <$> store w)
    by (subst w2; cbn [store logged]; by rewrite ?Hs1).
  assert (How2 : onlineChecks w2 = S (onlineChecks w))
    by (subst w2; cbn; by rewrite ?Ho1).
  assert (Hew2 : engine w2 = engine w1) by (subst w2; cbn; done).
  clearbody w2.
  rewrite Hfw2 in Hcase.
  destruct outcome as [[] | error |]; [| | done].
  { destruct Hcase as [Hcase _]. congruence. }
  destruct (Hread1 (id first) existing Hex) as [e0 He0].
  assert (Hget : is_Some (IndexedDBStorage.deserializeEntry
                            (id first, updated))).
  { apply (deserializeEntry_same_texts _ existing); eauto. }
  destruct Hget as [e1 He1'].
  cbn [ReplayEngine.allSettled]. unfold bind at 1. unfold bind at 1.
  unfold settled at 1. rewrite Hrun.
  cbv [bind ret]. cbn [zip zip_with ReplayEngine.handle_results].
  run_effects. unfold IndexedDBStorage.get.
  rewrite Hs3, lookup_insert_eq, He1'. run_effects.
  eexists _, error. split; [reflexivity |].
  cbn [engine store fetches onlineChecks lastError isProcessing
       ReplayEngine.leave ReplayEngine.set_lastError].
  split; [done |]. split; [done |].
  split; [by rewrite Hf3, Hfw2 |].
  split; [by rewrite Ho3, How2 |].
  split.
  { intros k Hk. rewrite lookup_insert_ne by done.
    by rewrite Hsw2, lookup_fmap. }
  unfold ReplayEngine.getState. run_effects.
  rewrite He3, Hew2, He1. cbn. by rewrite Hp.
Qed.


Lemma slice0_two {A} (x y : A) (l : list A) :
  slice0 2 (x :: y :: l) = [x; y].
Proof.
  unfold slice0. cbn [length Z.ltb Z.compare].
  rewrite Z.min_l by lia. reflexivity.
Qed.

(** X19: with two entries at a time and stop on error, when the older
    entry of the batch is rejected and the younger one is accepted, the
    loop over the results stops at the rejection: the younger entry, whose
    request has been sent, is not removed and stays [processing], so the
    next call of [process] recovers it and sends it again. *)
Theorem process_keeps_sent_entry_after_error options fuel (w : World)
    entries first second others :
  isProcessing (engine w) = false →
  isPaused (engine w) = false →
  readable (store w) →
  default 1%Z (concurrency options) = 2%Z →
  default true (stopOnError options) = true →
  onlineCheck env (onlineChecks w) = true →
  IndexedDBStorage.getAll (recovered <$> store w) = Returns entries →
  filter (λ e, status e = pending) entries = first :: second :: others →
  success_outcome (fetch env (fetches w)) = false →
  success_outcome (fetch env (S (fetches w))) = true →
  ∃ w' error kept,
    ReplayEngine.process env config options (S fuel) w = (Returns tt, w')
    ∧ lastError (engine w') = Some error
    ∧ fetches w' = S (S (fetches w))
    ∧ store w' !! id second = Some kept
    ∧ rec_status kept = processing
    ∧ recovered kept = IndexedDBStorage.set_status kept pending.
Proof.
  intros Hguard Hp Hread Hc Hs Hon Hall Hfilter Hout1 Hout2.
  rewrite (process_recovers_first env config options (S fuel) w Hguard).
  rewrite Hc, Hs.
  destruct (recoverStaleEntries_frame
              (with_engine w (ReplayEngine.enter (engine w))) Hread)
    as (w1 & Hrec & Hs1 & He1 & Hf1 & Ho1).
  cbn [store with_engine engine fetches onlineChecks] in Hs1, He1, Hf1, Ho1.
  pose proof (readable_recovered _ Hread) as Hread1.
  destruct (getAll_entries _ Hread1)
    as (entries' & Hall' & Hnd & Hsound & _).
  rewrite Hall in Hall'. injection Hall' as <-.
  assert (Hnd2 : NoDup (id <$> first :: second :: others)).
  { rewrite <- Hfilter. eapply sublist_NoDup; [exact Hnd |].
    apply sublist_fmap_id, sublist_filter. }
  assert (Hne : id second ≠ id first).
  { rewrite !fmap_cons in Hnd2. apply NoDup_cons in Hnd2 as [Hnot _].
    intros E. apply Hnot. rewrite E. left. }
  destruct (Hsound first) as (existing1 & Hex1 & _).
  { eapply (list_elem_of_filter (λ e, status e = pending)).
    rewrite Hfilter. left. }
  destruct (Hsound second) as (existing2 & Hex2 & _).
  { eapply (list_elem_of_filter (λ e, status e = pending)).
    rewrite Hfilter. right. left. }
  unfold try_finally, bind at 1. rewrite Hrec.
  cbn [ReplayEngine.drain].
  unfold bind at 1. unfold getWorld at 1. rewrite He1.
  cbn [ReplayEngine.enter isPaused abortController]. rewrite Hp.
  unfold bind at 1. unfold ask_onlineCheck at 1. rewrite Ho1, Hon.
  cbn [negb].
  unfold bind at 1. unfold storage_getAll at 1.
  unfold bind at 1. unfold log at 1. unfold bind at 1.
  unfold getWorld at 1. unfold lift_read at 1.
  cbn [store logged]. rewrite Hs1, Hall, Hfilter, slice0_two.
  set (w2 := logged storage_getAll_called _).
  assert (Hfw2 : fetches w2 = fetches w) by (subst w2; cbn; done).
  assert (Hsw2 : store w2 = recovered <$> store w)
    by (subst w2; cbn [store logged]; by rewrite ?Hs1).
  assert (Hew2 : engine w2 = engine w1) by (subst w2; cbn; done).
  clearbody w2.
  destruct (processEntry_frame first w2 existing1)
    as (outcome1 & w3 & updated1 & Hrun1 & Hcase1 & Hs3 & Hreq1 & Hmeta1
        & He3 & Hf3 & _).
  { by rewrite Hsw2. }
  rewrite Hfw2 in Hcase1.
  destruct outcome1 as [[] | error |]; [| | done].
  { destruct Hcase1 as [Hcase1 _]. congruence. }
  destruct (processEntry_frame second w3 existing2)
    as (outcome2 & w4 & updated2 & Hrun2 & Hcase2 & Hs4 & _ & _
        & He4 & Hf4 & _).
  { by rewrite Hs3, lookup_insert_ne, Hsw2. }
  rewrite Hf3, Hfw2 in Hcase2.
  destruct outcome2 as [[] | error2 |]; [| congruence | done].
  destruct Hcase2 as [_ Hst2].
  assert (Hget : is_Some (IndexedDBStorage.deserializeEntry
                            (id first, updated1))).
  { apply (deserializeEntry_same_texts _ existing1); eauto. }
  destruct Hget as [e1 He1'].
  cbn [ReplayEngine.allSettled]. unfold bind at 1. unfold bind at 1.
  unfold settled at 1. rewrite Hrun1.
  unfold bind at 1. unfold bind at 1. unfold settled at 1. rewrite Hrun2.
  cbv [bind ret]. cbn [zip zip_with ReplayEngine.handle_results].
  run_effects. unfold IndexedDBStorage.get.
  rewrite Hs4, lookup_insert_ne, Hs3, lookup_insert_eq, He1' by done.
  run_effects.
  eexists _, error, updated2. split; [reflexivity |].
  cbn [engine store fetches lastError
       ReplayEngine.leave ReplayEngine.set_lastError].
  split; [done |]. split; [by rewrite Hf4, Hf3, Hfw2 |].
  split; [by rewrite lookup_insert_eq |]. split; [done |].
  unfold recovered. by rewrite decide_True.
Qed.

Lemma drain_spins stopOnError fuel :
  (∀ k, onlineCheck env k = true) →
  ∀ (w : World) entries first others,
    isPaused (engine w) = false →
    abortController (engine w) = Some false →
    IndexedDBStorage.getAll (store w) = Returns entries →
    filter (λ e, status e = pending) entries = first :: others →
    ∃ w',
      ReplayEngine.drain env config 0 stopOnError fuel w = (Pending, w')
      ∧ store w' = store w
      ∧ engine w' = engine w
      ∧ fetches w' = fetches w.
Proof.
  intros Hon. induction fuel as [| fuel IH];
    intros w entries first others Hp Ha Hall Hfilter.
  - exists w. cbn. auto.
  - cbn [ReplayEngine.drain].
    unfold bind at 1. unfold getWorld at 1. rewrite Hp, Ha.
    unfold bind at 1. unfold ask_onlineCheck at 1. rewrite Hon.
    cbn [negb].
    unfold bind at 1. unfold storage_getAll at 1.
    unfold bind at 1. unfold log at 1. unfold bind at 1.
    unfold getWorld at 1. unfold lift_read at 1.
    cbn [store logged]. rewrite Hall, Hfilter.
    change (slice0 0 (first :: others)) with (@nil LedgerEntry).
    cbn [ReplayEngine.allSettled]. unfold bind at 1. unfold ret at 1.
    cbn [zip zip_with ReplayEngine.handle_results].
    unfold bind at 1. unfold ret at 1. cbn [andb].
    match goal with
    | |- context [ReplayEngine.drain _ _ _ _ fuel ?w1] =>
        destruct (IH w1 entries first others)
          as (w' & Hrun & Hs' & He' & Hf'); [done .. |]
    end.
    exists w'. split; [exact Hrun |]. by rewrite Hs', He', Hf'.
Qed.

(** X20: a concurrency of 0 makes every batch empty: with the network
    reachable and an entry waiting, [process] asks for the entries again
    and again without ever sending one, and does not end. *)
Theorem process_spins_without_batch options fuel (w : World) k r :
  isProcessing (engine w) = false →
  isPaused (engine w) = false →
  readable (store w) →
  default 1%Z (concurrency options) = 0%Z →
  (∀ k, onlineCheck env k = true) →
  store w !! k = Some r →
  rec_status r = pending ∨ rec_status r = processing →
  ∃ w',
    ReplayEngine.process env config options fuel w = (Pending, w')
    ∧ store w' = recovered <$> store w
    ∧ fetches w' = fetches w.
Proof.
  intros Hguard Hp Hread Hc Hon Hk Hst.
  rewrite (process_recovers_first env config options fuel w Hguard).
  rewrite Hc.
  destruct (recoverStaleEntries_frame
              (with_engine w (ReplayEngine.enter (engine w))) Hread)
    as (w1 & Hrec & Hs1 & He1 & Hf1 & Ho1).
  cbn [store with_engine engine fetches onlineChecks] in Hs1, He1, Hf1, Ho1.
  pose proof (readable_recovered _ Hread) as Hread1.
  destruct (getAll_entries _ Hread1)
    as (entries & Hall & _ & _ & Hcomplete).
  destruct (Hcomplete k (recovered r)) as (e & Hin & _ & Hse).
  { by rewrite lookup_fmap, Hk. }
  assert (Hpend : status e = pending).
  { rewrite Hse. unfold recovered.
    destruct (decide _); [done |]. by destruct Hst. }
  destruct (filter (λ e, status e = pending) entries)
    as [| first others] eqn:Hfilter.
  { assert (He : e ∈ filter (λ e, status e = pending) entries)
      by (by apply list_elem_of_filter).
    rewrite Hfilter in He. by apply not_elem_of_nil in He. }
  destruct (drain_spins (default true (stopOnError options)) fuel Hon
              w1 entries first others)
    as (w' & Hrun & Hs' & He' & Hf').
  { by rewrite He1. }
  { by rewrite He1. }
  { by rewrite Hs1. }
  { done. }
  exists w'. unfold try_finally, bind. rewrite Hrec, Hrun.
  split; [reflexivity |]. by rewrite Hs', Hs1, Hf', Hf1.
Qed.

End QueueProperties.
Section LedgerProperties.
Context `{JSON}.
Variable env : Env.
Variable config : Config.

Lemma hasPending_spec entries :
  ReplayEngine.hasPending entries = true
  ↔ ∃ e, e ∈ entries ∧ (status e = pending ∨ status e = processing).
Proof.
  unfold ReplayEngine.hasPending. rewrite existsb_exists. split.
  - intros (e & Hin%list_elem_of_In & Hor). exists e. split; [done |].
    apply orb_true_iff in Hor as [Hb | Hb]; apply bool_decide_eq_true in Hb;
      auto.
  - intros (e & Hin%list_elem_of_In & Hor). exists e. split; [done |].
    apply orb_true_iff.
    destruct Hor as [Hs | Hs]; [left | right]; by apply bool_decide_eq_true.
Qed.

(** X21: on a ledger that is neither paused nor processing and has no
    recorded error, [getState] answers [idle] exactly when no stored record
    is [pending] or [processing], and [pending] otherwise; it changes
    neither the store nor the engine. *)
Theorem getState_reports_queue (w : World) :
  isDestroyed w = false →
  isPaused (engine w) = false →
  isProcessing (engine w) = false →
  lastError (engine w) = None →
  readable (store w) →
  ∃ state w',
    RequestLedger.getState w = (Returns state, w')
    ∧ store w' = store w
    ∧ engine w' = engine w
    ∧ (state = LedgerState.pending ∨ state = LedgerState.idle)
    ∧ (state = LedgerState.idle
       ↔ ∀ k r, store w !! k = Some r → settled_status r).
Proof.
  intros Hd Hp Hproc Herr Hread.
  destruct (getAll_entries _ Hread)
    as (entries & Hall & _ & Hsound & Hcomplete).
  unfold RequestLedger.getState, RequestLedger.ensureNotDestroyed,
    ReplayEngine.getState.
  repeat (run_effects; rewrite ?Hd, ?Hp, ?Hproc, ?Herr, ?Hall).
  eexists _, _. split; [reflexivity |]. cbn [store engine].
  split; [done |]. split; [done |].
  destruct (ReplayEngine.hasPending entries) eqn:Hpend.
  - split; [by left |]. split; [done |]. intros Hall'. exfalso.
    apply hasPending_spec in Hpend as (e & Hin & Hor).
    destruct (Hsound e Hin) as (r & Hr & Hst).
    destruct (Hall' _ _ Hr) as [H1 H2]. rewrite Hst in Hor. tauto.
  - split; [by right |]. split; [| done]. intros _ k r Hk.
    destruct (Hcomplete k r Hk) as (e & Hin & _ & Hst).
    unfold settled_status.
    split; intros Hbad; apply not_true_iff_false in Hpend; apply Hpend;
      apply hasPending_spec; exists e; (split; [done |]);
      rewrite Hst; auto.
Qed.

(** X22: [destroy] is final. It keeps the stored entries and pauses the
    engine; afterwards [request], [process], [list], [get], [retry],
    [remove], [pause], [resume], [clearCompleted] and [getState] all throw
    "Ledger has been destroyed" without touching anything, and a second
    [destroy] does nothing. *)
Theorem destroy_is_final options processOptions fuel entryId (w : World) :
  let w' := (RequestLedger.destroy w).2 in
  (RequestLedger.destroy w).1 = Returns tt
  ∧ store w' = store w
  ∧ (isDestroyed w = false → isPaused (engine w') = true)
  ∧ refused w' (RequestLedger.request env config options w')
  ∧ refused w' (RequestLedger.process env config processOptions fuel w')
  ∧ refused w' (RequestLedger.list w')
  ∧ refused w' (RequestLedger.get entryId w')
  ∧ refused w' (RequestLedger.retry entryId w')
  ∧ refused w' (RequestLedger.remove entryId w')
  ∧ refused w' (RequestLedger.pause w')
  ∧ refused w' (RequestLedger.resume w')
  ∧ refused w' (RequestLedger.clearCompleted w')
  ∧ refused w' (RequestLedger.getState w')
  ∧ RequestLedger.destroy w' = (Returns tt, w').
Proof.
  cbn zeta.
  assert (Hd : isDestroyed (RequestLedger.destroy w).2 = true).
  { unfold RequestLedger.destroy, bind, getWorld.
    by destruct (isDestroyed w) eqn:E. }
  split.
  { unfold RequestLedger.destroy, bind, getWorld.
    by destruct (isDestroyed w). }
  split.
  { unfold RequestLedger.destroy, bind, getWorld.
    by destruct (isDestroyed w). }
  split.
  { intros E. unfold RequestLedger.destroy, bind, getWorld.
    by rewrite E. }
  set (w' := (RequestLedger.destroy w).2) in *. clearbody w'.
  unfold refused, RequestLedger.request, RequestLedger.process,
    RequestLedger.list, RequestLedger.get, RequestLedger.retry,
    RequestLedger.remove, RequestLedger.pause, RequestLedger.resume,
    RequestLedger.clearCompleted, RequestLedger.getState,
    RequestLedger.destroy, RequestLedger.ensureNotDestroyed.
  unfold bind, getWorld. rewrite Hd. by repeat split.
Qed.

(** X23: when the connectivity check reports reachable and [fetch]
    resolves, [request] hands the response to the caller whatever its
    status: an error status is not an exception here, so nothing is
    persisted and nothing will be replayed. *)
Theorem request_returns_any_response options (w : World) status :
  isDestroyed w = false →
  onlineCheck env (onlineChecks w) = true →
  fetch env (fetches w) = Response status →
  ∃ w',
    RequestLedger.request env config options w = (Returns (Some status), w')
    ∧ store w' = store w
    ∧ engine w' = engine w
    ∧ fetches w' = S (fetches w)
    ∧ trace w'
      = (trace w ++ [onlineCheck_called; fetch_called (opt_id options)])%list.
Proof.
  intros Hd Hon Hfetch.
  unfold RequestLedger.request, RequestLedger.ensureNotDestroyed,
    RequestLedger.executeRequest.
  repeat (run_effects; rewrite ?Hd, ?Hon, ?Hfetch).
  eexists. split; [reflexivity |]. cbn. by rewrite <- app_assoc.
Qed.

Lemma remove_loop (P : LedgerEntry → Prop) `{!∀ e, Decision (P e)}
    entries :
  ∀ w : World,
    ∃ w',
      for_each entries (λ entry,
        if decide (P entry) then storage_remove (id entry) else ret tt) w
      = (Returns tt, w')
      ∧ (∀ k, store w' !! k
              = if decide (k ∈ id <$> filter P entries) then None
                else store w !! k)
      ∧ engine w' = engine w.
Proof.
  induction entries as [| entry rest IH]; intros w.
  - exists w. split; [reflexivity |]. split; [| done]. intros k.
    by rewrite decide_False by apply not_elem_of_nil.
  - cbn [for_each]. unfold bind at 1. rewrite filter_cons.
    destruct (decide (P entry)) as [Hp | Hp].
    + unfold storage_remove at 1. unfold bind at 1. unfold log at 1.
      unfold modify at 1.
      match goal with
      | |- context [for_each rest _ ?w1] =>
          destruct (IH w1) as (w' & Hrun & Hlook & He)
      end.
      exists w'. split; [exact Hrun |]. split; [| by rewrite He].
      intros k. rewrite Hlook. cbn [store with_store logged].
      unfold IndexedDBStorage.remove. rewrite fmap_cons.
      destruct (decide (k = id entry)) as [-> | Hne].
      * rewrite (decide_True (P := _ ∈ _ :: _)) by left.
        destruct (decide _); [done | apply lookup_delete_eq].
      * rewrite lookup_delete_ne by done.
        destruct (decide (k ∈ id <$> filter P rest)) as [Hk | Hk].
        -- by rewrite decide_True by by right.
        -- rewrite decide_False; [done |].
           intros [? | ?]%elem_of_cons; done.
    + unfold ret at 1. apply IH.
Qed.

(** X24: [clearCompleted] removes the [completed] records and no other
    record. *)
Theorem clearCompleted_removes_completed (w : World) :
  isDestroyed w = false →
  readable (store w) →
  ∃ w',
    RequestLedger.clearCompleted w = (Returns tt, w')
    ∧ store w' = filter (λ kv, rec_status kv.2 ≠ completed) (store w)
    ∧ engine w' = engine w.
Proof.
  intros Hd Hread.
  destruct (getAll_entries _ Hread)
    as (entries & Hall & _ & Hsound & Hcomplete).
  unfold RequestLedger.clearCompleted, RequestLedger.ensureNotDestroyed.
  unfold bind at 1. unfold bind at 1. unfold getWorld at 1. rewrite Hd.
  unfold ret at 1. unfold bind at 1. unfold storage_getAll at 1.
  unfold bind at 1. unfold log at 1. unfold bind at 1.
  unfold getWorld at 1. unfold lift_read at 1.
  cbn [store logged]. rewrite Hall.
  match goal with
  | |- context [for_each entries _ ?w1] =>
      destruct (remove_loop (λ e, status e = completed) entries w1)
        as (w' & Hrun & Hlook & He)
  end.
  exists w'. split; [exact Hrun |]. split; [| by rewrite He].
  apply map_eq. intros k. apply option_eq. intros r.
  rewrite map_lookup_filter_Some, Hlook. cbn [store logged snd].
  destruct (decide _) as [Hk | Hk].
  - split; [done |]. intros [Hr Hst].
    apply list_elem_of_fmap in Hk as (e & -> & Hin).
    apply list_elem_of_filter in Hin as [Hc Hin].
    destruct (Hsound e Hin) as (r' & Hr' & Hst'). congruence.
  - split; [| by intros [? _]]. intros Hr. split; [done |].
    intros Hst. apply Hk.
    destruct (Hcomplete k r Hr) as (e & Hin & <- & Hse).
    apply list_elem_of_fmap. exists e. split; [done |].
    apply list_elem_of_filter. split; [congruence | done].
Qed.
End LedgerProperties.

Section StoreInvariant.
Context `{JSON}.
Variable P : gmap string StoredRecord → Prop.
Hypothesis P_subseteq : ∀ small large, small ⊆ large → P large → P small.
Hypothesis P_patch :
  ∀ m k r patch,
    P m → m !! k = Some r → patch_status patch ≠ Some completed →
    P (<[k := IndexedDBStorage.merge_patch r patch]> m).

Lemma maintains_ret {A} (a : A) : maintains P (ret a).
Proof. by intros w. Qed.

Lemma maintains_throw {A} e : maintains P (throw (A := A) e).
Proof. by intros w. Qed.

Lemma maintains_bind {A B} (m : M A) (k : A → M B) :
  maintains P m → (∀ a, maintains P (k a)) → maintains P (bind m k).
Proof.
  intros Hm Hk w Hw. unfold bind. specialize (Hm w Hw).
  destruct (m w) as [[a | e |] w']; cbn in *; [| done | done].
  by apply Hk.
Qed.

Lemma maintains_try_catch {A} (m : M A) handler :
  maintains P m → (∀ e, maintains P (handler e)) → maintains P (try_catch m handler).
Proof.
  intros Hm Hh w Hw. unfold try_catch. specialize (Hm w Hw).
  destruct (m w) as [[a | e |] w']; cbn in *; [done | | done].
  by apply Hh.
Qed.

Lemma maintains_try_finally {A} (m : M A) cleanup :
  maintains P m → (∀ w, store (cleanup w) = store w) →
  maintains P (try_finally m cleanup).
Proof.
  intros Hm Hc w Hw. unfold try_finally. specialize (Hm w Hw).
  destruct (m w) as [[a | e |] w']; cbn in *; by rewrite ?Hc.
Qed.

Lemma maintains_settled {A} (m : M A) : maintains P m → maintains P (settled m).
Proof.
  intros Hm w Hw. unfold settled. specialize (Hm w Hw).
  by destruct (m w) as [[a | e |] w'].
Qed.

Lemma maintains_reader {A} (m : M A) :
  (∀ w, store (m w).2 = store w) → maintains P m.
Proof. intros Hm w Hw. by rewrite Hm. Qed.

Lemma maintains_for_each {A} (l : list A) body :
  (∀ x, maintains P (body x)) → maintains P (for_each l body).
Proof.
  intros Hbody. induction l as [| x l IH]; [apply maintains_ret |].
  cbn. apply maintains_bind; [apply Hbody | by intros _].
Qed.

Lemma maintains_storage_getAll : maintains P storage_getAll.
Proof. by apply maintains_reader. Qed.

Lemma maintains_storage_get k : maintains P (storage_get k).
Proof. by apply maintains_reader. Qed.

Lemma maintains_log ev : maintains P (log ev).
Proof. by apply maintains_reader. Qed.

Lemma maintains_ask_fetch env k : maintains P (ask_fetch env k).
Proof.
  apply maintains_reader. intros w. unfold ask_fetch.
  by destruct (fetch env (fetches w)).
Qed.

Lemma maintains_storage_update k patch :
  patch_status patch ≠ Some completed → maintains P (storage_update k patch).
Proof.
  intros Hpatch w Hw.
  unfold storage_update, bind, log, getWorld, lift_store,
    IndexedDBStorage.update.
  cbn [store logged].
  destruct (store w !! k) as [r |] eqn:Hk; cbn; [| done].
  by apply P_patch.
Qed.

Lemma maintains_storage_remove k : maintains P (storage_remove k).
Proof.
  intros w Hw. unfold storage_remove, bind, log, modify. cbn.
  eapply P_subseteq; [| exact Hw]. apply delete_subseteq.
Qed.

Lemma maintains_recoverStaleEntries :
  maintains P ReplayEngine.recoverStaleEntries.
Proof.
  apply maintains_bind; [apply maintains_storage_getAll |].
  intros entries. apply maintains_for_each. intros entry.
  destruct (decide _);
    [by apply maintains_storage_update | apply maintains_ret].
Qed.

Lemma maintains_processEntry env config entry :
  maintains P (ReplayEngine.processEntry env config entry).
Proof.
  assert (Hmark : ∀ e c, maintains P (ReplayEngine.markAsFailed entry e c))
    by (intros; by apply maintains_storage_update).
  assert (Hrearm : maintains P (ReplayEngine.rearm config entry)).
  { apply maintains_bind; [by apply maintains_storage_update |].
    intros _. destruct (calculateBackoffDelay _ _);
      [apply maintains_log | apply maintains_ret]. }
  unfold ReplayEngine.processEntry.
  apply maintains_bind; [by apply maintains_reader |]. intros now.
  apply maintains_bind; [by apply maintains_storage_update |]. intros _.
  apply maintains_bind; [apply maintains_log |]. intros _.
  apply maintains_try_catch.
  - apply maintains_bind; [apply maintains_ask_fetch |]. intros status.
    repeat match goal with
           | |- maintains P (if ?b then _ else _) => destruct b
           | |- maintains P (bind _ _) => apply maintains_bind; [| intros _]
           end;
      auto using maintains_log, maintains_throw.
  - intros e.
    repeat match goal with
           | |- maintains P (if ?b then _ else _) => destruct b
           | |- maintains P (bind _ _) => apply maintains_bind; [| intros _]
           end;
      auto using maintains_log, maintains_throw.
Qed.

Lemma maintains_allSettled env config batch :
  maintains P (ReplayEngine.allSettled env config batch).
Proof.
  induction batch as [| entry batch IH]; [apply maintains_ret |].
  cbn. apply maintains_bind;
    [apply maintains_settled, maintains_processEntry |].
  intros result. apply maintains_bind; [exact IH |].
  intros results. apply maintains_ret.
Qed.

Lemma maintains_handle_results stopOnError results hasError :
  maintains P (ReplayEngine.handle_results stopOnError results hasError).
Proof.
  revert hasError.
  induction results as [| [entry [error | []]] results IH]; intros hasError;
    cbn; [apply maintains_ret | |].
  - apply maintains_bind; [apply maintains_storage_get |].
    intros updatedEntry. apply maintains_bind.
    { destruct updatedEntry; [apply maintains_log | apply maintains_ret]. }
    intros _. destruct stopOnError; [| apply IH].
    apply maintains_bind; [| intros _; apply maintains_ret].
    by apply maintains_reader.
  - apply maintains_bind; [apply maintains_storage_remove |]. intros _.
    apply maintains_bind; [apply maintains_log |]. intros _. apply IH.
Qed.

Lemma maintains_drain env config concurrency stopOnError fuel :
  maintains P (ReplayEngine.drain env config concurrency stopOnError fuel).
Proof.
  induction fuel as [| fuel IH]; [by intros w |].
  cbn [ReplayEngine.drain].
  apply maintains_bind; [by apply maintains_reader |]. intros w0.
  destruct (isPaused (engine w0)); [apply maintains_ret |].
  destruct (abortController (engine w0)) as [[] |];
    [apply maintains_ret | | apply maintains_throw].
  apply maintains_bind; [by apply maintains_reader |]. intros online.
  destruct online; cbn [negb].
  2:{ apply maintains_bind; [apply maintains_log | by intros _]. }
  apply maintains_bind; [apply maintains_storage_getAll |]. intros entries.
  destruct (filter _ entries) as [| first rest]; [apply maintains_ret |].
  apply maintains_bind; [apply maintains_allSettled |]. intros results.
  apply maintains_bind; [apply maintains_handle_results |]. intros hasError.
  destruct (hasError && stopOnError); [apply maintains_ret | exact IH].
Qed.

Lemma maintains_process env config options fuel :
  maintains P (ReplayEngine.process env config options fuel).
Proof.
  unfold ReplayEngine.process.
  apply maintains_bind; [by apply maintains_reader |]. intros w0.
  destruct (isProcessing (engine w0)); [apply maintains_ret |].
  apply maintains_bind; [by apply maintains_reader |]. intros _.
  apply maintains_try_finally; [| done].
  apply maintains_bind; [apply maintains_recoverStaleEntries |].
  intros _. apply maintains_drain.
Qed.
End StoreInvariant.

Section Invariants.
Context `{JSON}.
Variable env : Env.
Variable config : Config.

Lemma no_completed_subseteq small large :
  small ⊆ large → no_completed large → no_completed small.
Proof. intros Hsub Hl k r Hk. eapply Hl. by eapply lookup_weaken. Qed.

Lemma no_completed_patch m k r patch :
  no_completed m → m !! k = Some r →
  patch_status patch ≠ Some completed →
  no_completed (<[k := IndexedDBStorage.merge_patch r patch]> m).
Proof.
  intros Hm Hk Hpatch k' r'. destruct (decide (k' = k)) as [-> | Hne].
  - rewrite lookup_insert_eq. intros [= <-]. specialize (Hm _ _ Hk).
    unfold IndexedDBStorage.merge_patch.
    destruct patch as [[s |] [] [] []]; cbn in *; congruence.
  - rewrite lookup_insert_ne by done. apply Hm.
Qed.

Lemma readable_patch (m : gmap string StoredRecord) k r patch :
  readable m → m !! k = Some r →
  patch_status patch ≠ Some completed →
  readable (<[k := IndexedDBStorage.merge_patch r patch]> m).
Proof.
  intros Hm Hk _. eapply readable_update; [exact Hm |].
  unfold IndexedDBStorage.update. by rewrite Hk.
Qed.

Lemma no_completed_put (m m' : gmap string StoredRecord) entry :
  no_completed m → status entry ≠ completed →
  IndexedDBStorage.put (maxEntries config) m entry = Returns m' →
  no_completed m'.
Proof.
  intros Hm Hst. unfold IndexedDBStorage.put.
  destruct (m !! id entry); [done |]. intros [= <-].
  eapply no_completed_subseteq;
    [apply evictIfNeeded_subseteq |].
  intros k r. destruct (decide (k = id entry)) as [-> | Hne].
  - rewrite lookup_insert_eq. by intros [= <-].
  - rewrite lookup_insert_ne by done. apply Hm.
Qed.

Lemma maintains_request options :
  maintains no_completed (RequestLedger.request env config options).
Proof.
  assert (Hpersist :
    maintains no_completed (RequestLedger.persistRequest env config options)).
  { unfold RequestLedger.persistRequest.
    apply maintains_bind; [by apply maintains_reader |]. intros now.
    apply maintains_try_catch.
    - apply maintains_bind; [| intros _; by apply maintains_reader].
      intros w Hw. unfold storage_put, bind, log, getWorld, lift_store.
      cbn [store logged].
      destruct (IndexedDBStorage.put _ _ _) as [m' | e |] eqn:Hput;
        cbn; [| done | done].
      eapply no_completed_put; [exact Hw | | exact Hput]. done.
    - intros e. destruct e; apply maintains_throw. }
  unfold RequestLedger.request, RequestLedger.ensureNotDestroyed.
  apply maintains_bind.
  { apply maintains_reader. intros w. unfold bind, getWorld.
    by destruct (isDestroyed w). }
  intros _. apply maintains_bind; [by apply maintains_reader |].
  intros online. destruct online.
  - apply maintains_try_catch.
    + apply maintains_bind; [apply maintains_ask_fetch |].
      intros response. apply maintains_ret.
    + intros e. destruct (isNetworkError e); [| apply maintains_throw].
      apply maintains_bind; [exact Hpersist |]. intros _.
      apply maintains_ret.
  - apply maintains_bind; [exact Hpersist |]. intros _.
    apply maintains_ret.
Qed.

(** X25: the ledger never stores the status [completed]: on a store
    without a [completed] record, [request], [process] and [retry] leave
    none, however the attempts end and however long the loop runs. *)
Theorem ledger_never_stores_completed options processOptions fuel entryId
    (w : World) :
  no_completed (store w) →
  no_completed (store (RequestLedger.request env config options w).2)
  ∧ no_completed
      (store (RequestLedger.process env config processOptions fuel w).2)
  ∧ no_completed (store (RequestLedger.retry entryId w).2).
Proof.
  intros Hw.
  assert (Hguard : maintains no_completed RequestLedger.ensureNotDestroyed).
  { apply maintains_reader. intros w0.
    unfold RequestLedger.ensureNotDestroyed, bind, getWorld.
    by destruct (isDestroyed w0). }
  split; [by apply maintains_request |]. split.
  - revert w Hw. apply maintains_bind; [exact Hguard |]. intros _.
    apply (maintains_process no_completed no_completed_subseteq
             no_completed_patch).
  - revert w Hw. apply maintains_bind; [exact Hguard |]. intros _.
    apply maintains_bind; [by apply maintains_reader |].
    intros [entry |]; [| apply maintains_throw].
    destruct (decide _); [apply maintains_throw |].
    by apply (maintains_storage_update no_completed no_completed_patch).
Qed.

(** X26: [process] keeps the store readable: when every stored record
    deserializes before the call, every stored record deserializes after
    it. *)
Theorem process_keeps_store_readable options fuel (w : World) :
  readable (store w) →
  readable (store (ReplayEngine.process env config options fuel w).2).
Proof.
  apply (maintains_process readable readable_subseteq readable_patch).
Qed.
End Invariants.

(** * The further properties on the example data *)

Section OnFurtherExamples.
#[local] Existing Instance literal_JSON.

Lemma three_entries_readable : readable three_entries.
Proof.
  change (map_Forall
            (λ k r, is_Some (IndexedDBStorage.deserializeEntry (k, r)))
            three_entries).
  apply (bool_decide_unpack _). vm_compute. exact I.
Qed.

Lemma mixed_entries_no_completed : no_completed mixed_entries.
Proof.
  change (map_Forall (λ _ r, rec_status r ≠ completed) mixed_entries).
  apply (bool_decide_unpack _). vm_compute. exact I.
Qed.

Lemma exponential_delay_bounded_witness : (2000 ≤ 4000 ≤ 10000)%Z.
Proof.
  apply (exponential_delay_bounded 1000 10000 5 2 3 2000 4000);
    [lia | lia | reflexivity | reflexivity].
Defined.

Lemma getAll_sorted_complete_witness :
  ∃ entries,
    IndexedDBStorage.getAll mixed_entries = Returns entries
    ∧ length entries = IndexedDBStorage.count mixed_entries
    ∧ StronglySorted (λ a b, (createdAt a ≤ createdAt b)%Z) entries.
Proof.
  destruct (getAll_sorted_complete mixed_entries mixed_entries_readable)
    as (entries & Hall & Hlen & _ & _ & _ & Hsorted).
  exists entries. split; [exact Hall |]. split; [exact Hlen | exact Hsorted].
Defined.

Lemma put_within_capacity_witness :
  ∃ store',
    IndexedDBStorage.put 3 three_entries (createEntry "test-4" 4000)
    = Returns store'
    ∧ (IndexedDBStorage.count store' ≤ 3)%nat.
Proof.
  destruct (put_within_capacity 3 three_entries (createEntry "test-4" 4000))
    as (store' & Hput & _ & Hle & _).
  - vm_compute. reflexivity.
  - exists store'. split; [exact Hput | exact Hle].
Defined.

Lemma put_twice_rejected_witness :
  ∃ w1 w2,
    storage_put example_config (createEntry "test-4" 4000)
      (world_of three_entries) = (Returns tt, w1)
    ∧ storage_put example_config (createEntry "test-4" 9000) w1
      = (Throws (DuplicateEntryError "test-4"), w2)
    ∧ store w2 = store w1.
Proof.
  destruct (put_twice_rejected example_config (createEntry "test-4" 4000)
              (createEntry "test-4" 9000) (world_of three_entries))
    as (w1 & w2 & Hput & _ & Hagain & Hsame).
  - vm_compute. reflexivity.
  - vm_compute. lia.
  - reflexivity.
  - exists w1, w2. split; [exact Hput |]. split; [exact Hagain | exact Hsame].
Defined.

Lemma update_keeps_order_witness :
  ∃ entries,
    IndexedDBStorage.getAll mixed_entries = Returns entries
    ∧ IndexedDBStorage.getAll
        (<["test-3" :=
             IndexedDBStorage.merge_patch
               (IndexedDBStorage.storedEntry
                  (attemptedEntry "test-3" 3000 failed 3
                     (Some {| message :=
                                "HTTP 500: Server error, max retries exceeded";
                              code := Some "500" |})))
               retry_patch]> mixed_entries)
      = Returns ((λ e, if decide (id e = "test-3")
                       then patched e retry_patch else e) <$> entries).
Proof.
  apply (update_keeps_order mixed_entries "test-3" retry_patch).
  - exact mixed_entries_readable.
  - vm_compute. reflexivity.
Defined.

Lemma remove_get_witness :
  ∃ entries,
    IndexedDBStorage.getAll mixed_entries = Returns entries
    ∧ IndexedDBStorage.getAll (IndexedDBStorage.remove mixed_entries "test-2")
      = Returns (filter (λ e, id e ≠ "test-2") entries).
Proof.
  destruct (remove_get mixed_entries "test-2" mixed_entries_readable)
    as (entries & Hall & _ & Hrest & _).
  exists entries. split; [exact Hall | exact Hrest].
Defined.

Lemma processEntry_success_witness :
  ∃ w' updated,
    ReplayEngine.processEntry (constant_env true (Response 304))
      example_config (createEntry "test-1" 1000) (world_of three_entries)
    = (Returns tt, w')
    ∧ store w' !! "test-1" = Some updated
    ∧ rec_status updated = processing.
Proof.
  destruct (processEntry_success (constant_env true (Response 304))
              example_config (createEntry "test-1" 1000)
              (world_of three_entries)
              (IndexedDBStorage.storedEntry (createEntry "test-1" 1000)) 304)
    as (w' & updated & Hrun & Hstored & Hstatus & _).
  - vm_compute. reflexivity.
  - reflexivity.
  - lia.
  - exists w', updated. split; [exact Hrun |].
    split; [exact Hstored | exact Hstatus].
Defined.

Lemma processEntry_rethrows_witness :
  ∃ w' updated,
    ReplayEngine.processEntry
      (constant_env true (FetchThrows (TypeError "Failed to fetch")))
      example_config (createEntry "test-1" 1000) (world_of three_entries)
    = (Throws (TypeError "Failed to fetch"), w')
    ∧ store w' !! "test-1" = Some updated
    ∧ rec_status updated = pending.
Proof.
  destruct (processEntry_rethrows
              (constant_env true (FetchThrows (TypeError "Failed to fetch")))
              example_config (createEntry "test-1" 1000)
              (world_of three_entries)
              (IndexedDBStorage.storedEntry (createEntry "test-1" 1000))
              (TypeError "Failed to fetch"))
    as (w' & updated & Hrun & Hstored & Hstatus & _).
  - vm_compute. reflexivity.
  - reflexivity.
  - exists w', updated. split; [exact Hrun |].
    split; [exact Hstored | exact Hstatus].
Defined.

Lemma rearm_sleeps_witness :
  ∃ backoffDelay updated,
    calculateBackoffDelay (retry example_config) 1 = Some backoffDelay
    ∧ store (ReplayEngine.processEntry (constant_env true (Response 503))
               example_config (createEntry "test-1" 1000)
               (world_of three_entries)).2 !! "test-1"
      = Some updated
    ∧ rec_status updated = pending.
Proof.
  destruct (rearm_sleeps (constant_env true (Response 503)) example_config
              (createEntry "test-1" 1000) (world_of three_entries)
              (IndexedDBStorage.storedEntry (createEntry "test-1" 1000)))
    as (backoffDelay & updated & Hdelay & Hstored & Hstatus & _).
  - vm_compute. reflexivity.
  - reflexivity.
  - reflexivity.
  - exists backoffDelay, updated. split; [exact Hdelay |].
    split; [exact Hstored | exact Hstatus].
Defined.

Lemma process_holds_and_releases_lock_witness :
  let result :=
    ReplayEngine.process (constant_env true (Response 200)) example_config
      default_options 5 (world_of three_entries) in
  isPaused (engine result.2) = isPaused (engine (world_of three_entries)).
Proof.
  intros result.
  destruct (process_holds_and_releases_lock
              (constant_env true (Response 200)) example_config
              default_options 5 (world_of three_entries) eq_refl)
    as [Hpaused _].
  exact Hpaused.
Defined.

Lemma process_waits_while_offline_witness :
  ∃ w',
    ReplayEngine.process (constant_env false (Response 200)) example_config
      default_options 7 (world_of mixed_entries) = (Pending, w')
    ∧ fetches w' = 0%nat
    ∧ onlineChecks w' = 7%nat.
Proof.
  destruct (process_waits_while_offline (constant_env false (Response 200))
              example_config default_options 7 (world_of mixed_entries)
              eq_refl eq_refl mixed_entries_readable (λ _, eq_refl))
    as (w' & Hrun & _ & Hfetches & Hchecks & _).
  exists w'. split; [exact Hrun |]. split; [exact Hfetches | exact Hchecks].
Defined.

Lemma process_paused_only_recovers_witness :
  ∃ w',
    ReplayEngine.process (constant_env true (Response 200)) example_config
      default_options 1
      (with_engine (world_of mixed_entries)
         (ReplayEngine.pause ReplayEngine.initial))
    = (Returns tt, w')
    ∧ store w' = recovered <$> mixed_entries
    ∧ fetches w' = 0%nat.
Proof.
  destruct (process_paused_only_recovers (constant_env true (Response 200))
              example_config default_options 0
              (with_engine (world_of mixed_entries)
                 (ReplayEngine.pause ReplayEngine.initial))
              eq_refl eq_refl mixed_entries_readable)
    as (w' & Hrun & Hstore & Hfetches & _).
  exists w'. split; [exact Hrun |]. split; [exact Hstore | exact Hfetches].
Defined.

Lemma process_drains_queue_witness :
  ∃ w',
    ReplayEngine.process (constant_env true (Response 200)) example_config
      default_options 4 (world_of mixed_entries) = (Returns tt, w')
    ∧ store w' = filter (λ kv, settled_status kv.2) mixed_entries
    ∧ lastError (engine w') = None.
Proof.
  destruct (process_drains_queue (constant_env true (Response 200))
              example_config default_options 4 (world_of mixed_entries))
    as (w' & Hrun & Hstore & _ & Herror & _).
  - reflexivity.
  - reflexivity.
  - exact mixed_entries_readable.
  - cbn. lia.
  - reflexivity.
  - reflexivity.
  - vm_compute. lia.
  - exists w'. split; [exact Hrun |]. split; [exact Hstore | exact Herror].
Defined.

Lemma process_stops_at_first_error_witness :
  ∃ w' error,
    ReplayEngine.process (constant_env true (Response 404)) example_config
      default_options 1 (world_of three_entries) = (Returns tt, w')
    ∧ lastError (engine w') = Some error
    ∧ fetches w' = 1%nat.
Proof.
  destruct (process_stops_at_first_error (constant_env true (Response 404))
              example_config default_options 0 (world_of three_entries)
              [createEntry "test-1" 1000; createEntry "test-2" 2000;
               createEntry "test-3" 3000]
              (createEntry "test-1" 1000)
              [createEntry "test-2" 2000; createEntry "test-3" 3000])
    as (w' & error & Hrun & Herror & _ & Hfetches & _).
  - reflexivity.
  - reflexivity.
  - exact three_entries_readable.
  - reflexivity.
  - reflexivity.
  - reflexivity.
  - vm_compute. reflexivity.
  - vm_compute. reflexivity.
  - reflexivity.
  - exists w', error. split; [exact Hrun |].
    split; [exact Herror | exact Hfetches].
Defined.

Lemma process_keeps_sent_entry_after_error_witness :
  ∃ w' kept,
    ReplayEngine.process first_rejected_env example_config (batch_options 2)
      1 (world_of three_entries) = (Returns tt, w')
    ∧ fetches w' = 2%nat
    ∧ store w' !! "test-2" = Some kept
    ∧ rec_status kept = processing.
Proof.
  destruct (process_keeps_sent_entry_after_error first_rejected_env
              example_config (batch_options 2) 0 (world_of three_entries)
              [createEntry "test-1" 1000; createEntry "test-2" 2000;
               createEntry "test-3" 3000]
              (createEntry "test-1" 1000) (createEntry "test-2" 2000)
              [createEntry "test-3" 3000])
    as (w' & error & kept & Hrun & _ & Hfetches & Hkept & Hstatus & _).
  - reflexivity.
  - reflexivity.
  - exact three_entries_readable.
  - reflexivity.
  - reflexivity.
  - reflexivity.
  - vm_compute. reflexivity.
  - vm_compute. reflexivity.
  - reflexivity.
  - reflexivity.
  - exists w', kept. split; [exact Hrun |]. split; [exact Hfetches |].
    split; [exact Hkept | exact Hstatus].
Defined.

Lemma process_spins_without_batch_witness :
  ∃ w',
    ReplayEngine.process (constant_env true (Response 200)) example_config
      (batch_options 0) 9 (world_of three_entries) = (Pending, w')
    ∧ fetches w' = 0%nat.
Proof.
  destruct (process_spins_without_batch (constant_env true (Response 200))
              example_config (batch_options 0) 9 (world_of three_entries)
              "test-1"
              (IndexedDBStorage.storedEntry (createEntry "test-1" 1000)))
    as (w' & Hrun & _ & Hfetches).
  - reflexivity.
  - reflexivity.
  - exact three_entries_readable.
  - reflexivity.
  - reflexivity.
  - vm_compute. reflexivity.
  - left. reflexivity.
  - exists w'. split; [exact Hrun | exact Hfetches].
Defined.

Lemma getState_reports_queue_witness :
  ∃ state w',
    RequestLedger.getState (world_of mixed_entries) = (Returns state, w')
    ∧ (state = LedgerState.pending ∨ state = LedgerState.idle).
Proof.
  destruct (getState_reports_queue (world_of mixed_entries)
              eq_refl eq_refl eq_refl eq_refl mixed_entries_readable)
    as (state & w' & Hrun & _ & _ & Hstate & _).
  exists state, w'. split; [exact Hrun | exact Hstate].
Defined.

Lemma request_returns_any_response_witness :
  ∃ w',
    RequestLedger.request (constant_env true (Response 500)) example_config
      (example_options "test-9") (world_of mixed_entries)
    = (Returns (Some 500%Z), w')
    ∧ store w' = mixed_entries.
Proof.
  destruct (request_returns_any_response (constant_env true (Response 500))
              example_config (example_options "test-9")
              (world_of mixed_entries) 500 eq_refl eq_refl eq_refl)
    as (w' & Hrun & Hstore & _).
  exists w'. split; [exact Hrun | exact Hstore].
Defined.

Lemma archived_entries_readable : readable archived_entries.
Proof.
  change (map_Forall
            (λ k r, is_Some (IndexedDBStorage.deserializeEntry (k, r)))
            archived_entries).
  apply (bool_decide_unpack _). vm_compute. exact I.
Qed.

Lemma clearCompleted_removes_completed_witness :
  ∃ w',
    RequestLedger.clearCompleted (world_of archived_entries)
    = (Returns tt, w')
    ∧ rec_status <$> archived_entries !! "test-2" = Some completed
    ∧ store w' !! "test-2" = None
    ∧ store w' !! "test-1" = archived_entries !! "test-1"
    ∧ store w' !! "test-3" = archived_entries !! "test-3"
    ∧ size (store w') = 2%nat.
Proof.
  destruct (clearCompleted_removes_completed (world_of archived_entries)
              eq_refl archived_entries_readable)
    as (w' & Hrun & Hstore & _).
  exists w'. split; [exact Hrun |]. rewrite Hstore.
  vm_compute. repeat split.
Defined.

Lemma ledger_never_stores_completed_witness :
  no_completed
    (store (RequestLedger.process (constant_env true (Response 503))
              example_config default_options 6
              (world_of mixed_entries)).2).
Proof.
  destruct (ledger_never_stores_completed
              (constant_env true (Response 503)) example_config
              (example_options "test-9") default_options 6
              "test-3" (world_of mixed_entries)
              mixed_entries_no_completed)
    as (_ & Hprocess & _).
  exact Hprocess.
Defined.

Lemma process_keeps_store_readable_witness :
  readable
    (store (ReplayEngine.process (constant_env true (Response 503))
              example_config default_options 6
              (world_of mixed_entries)).2).
Proof.
  exact (process_keeps_store_readable (constant_env true (Response 503))
           example_config default_options 6 (world_of mixed_entries)
           mixed_entries_readable).
Defined.

Lemma process_reentrant_is_noop_witness :
  let first :=
    ReplayEngine.process (constant_env false (Response 200)) example_config
      default_options 3 (world_of three_entries) in
  first.1 = Pending
  ∧ activeLoops (engine first.2)
    = S (activeLoops (engine (world_of three_entries)))
  ∧ ReplayEngine.process (constant_env false (Response 200)) example_config
      (batch_options 2) 5 first.2
    = (Returns tt, first.2).
Proof.
  intros first.
  assert (Hpending : first.1 = Pending) by (vm_compute; reflexivity).
  split; [exact Hpending |].
  destruct (proj1 (proj2 (process_reentrant_is_noop
                            (constant_env false (Response 200))
                            example_config default_options 3
                            (world_of three_entries)))
              eq_refl Hpending)
    as (_ & Hloops & Hagain).
  split; [exact Hloops |].
  exact (Hagain (batch_options 2) 5).
Defined.
End OnFurtherExamples.
